(** * Certified-Watermarking: the sign-flip attack on passport signatures

    A shallow embedding of [passport_attack_2.py] (function [run_attack_2])
    and of the weight transplant of
    [experiments/classification_private.py] (method [transfer_learning]),
    with the properties of the index partition, the sign flip, the
    similarity score, the frozen parameters and the fallback copy.

    Conventions of the embedding:
    - a one-dimensional float tensor is a [list Q]: finite float values are
      rationals, and the operations the attack applies to them ([sign],
      multiplication by [-1], comparison) are exact on floats; the mean of
      a 0/1 mask is taken exactly, its float rounding is not modelled;
      infinities and NaN inputs are outside the model, the NaN that the
      mean of an empty tensor produces is kept as [NaN];
    - the product [total_weight_size * args.flipperc], whose integer part
      is the number of channels to flip, is the double-precision product:
      the double nearest to the exact one, ties to the even significand
      ([Float.round]); a product beyond the largest double is an
      infinity, outside the model as every infinity is;
    - an index tensor (int64) is a [list Z];
    - a Python exception is a [Raise] in the [result] monad. *)

From Stdlib Require Import ZArith QArith Qround Qabs Qpower Lia List Permutation.
From stdpp Require Import base option list gmap strings.

Local Open Scope Z_scope.

(** ** Exceptions and results *)

Inductive exn : Type :=
  | IndexError
  | RuntimeError
  | ZeroDivisionError
  | AttributeError.

Inductive result (A : Type) : Type :=
  | Ok (a : A)
  | Raise (e : exn).
Arguments Ok {A} a.
Arguments Raise {A} e.

#[global] Instance result_ret : MRet result := λ A a, Ok a.
#[global] Instance result_bind : MBind result :=
  λ A B f r, match r with Ok a => f a | Raise e => Raise e end.

Definition is_Ok {A} (r : result A) : Prop := ∃ a, r = Ok a.

(** A Python/torch scalar: a number, or the NaN of an empty mean. *)
Inductive scalar : Type :=
  | Num (q : Q)
  | NaN.

Definition scalar_add (a b : scalar) : scalar :=
  match a, b with
  | Num x, Num y => Num (x + y)%Q
  | _, _ => NaN
  end.

(** ** Tensor primitives (torch semantics) *)

Module Tensor.

(** [torch.sign]: -1, 0 or 1; zero has sign zero. *)
Definition sign (x : Q) : Q :=
  match Qnum x with
  | Z0 => 0%Q
  | Zpos _ => 1%Q
  | Zneg _ => (-1)%Q
  end.

(** [t.sign()] *)
Definition signs (t : list Q) : list Q := sign <$> t.

(** [a == b], elementwise on tensors of one shape. *)
Definition eq_mask (a b : list Q) : list bool :=
  zip_with Qeq_bool a b.

Definition count_true (mask : list bool) : nat :=
  length (List.filter id mask).

(** [mask.float().mean()]: NaN on an empty tensor. *)
Definition mean_mask (mask : list bool) : scalar :=
  match mask with
  | [] => NaN
  | _ => Num (inject_Z (Z.of_nat (count_true mask)) / inject_Z (Z.of_nat (length mask)))%Q
  end.

(** Position addressed by an index into a dimension of [size] entries:
    negative indices count from the end, anything outside
    [-size, size) raises. *)
Definition norm_index (size : nat) (idx : Z) : result nat :=
  if bool_decide (0 ≤ idx < Z.of_nat size) then Ok (Z.to_nat idx)
  else if bool_decide (- Z.of_nat size ≤ idx < 0) then Ok (Z.to_nat (idx + Z.of_nat size))
  else Raise IndexError.

Fixpoint norm_indices (size : nat) (idxs : list Z) : result (list nat) :=
  match idxs with
  | [] => Ok []
  | i :: rest =>
      p ← norm_index size i;
      ps ← norm_indices size rest;
      Ok (p :: ps)
  end.

(** [t[idxs]] with an index tensor (gather). *)
Definition gather (t : list Q) (ps : list nat) : list Q :=
  (λ p, default 0%Q (t !! p)) <$> ps.

(** [t[idxs] = vals] with an index tensor (scatter, in order). *)
Fixpoint scatter (t : list Q) (ps : list nat) (vals : list Q) : list Q :=
  match ps, vals with
  | p :: ps', v :: vals' => scatter (<[p := v]> t) ps' vals'
  | _, _ => t
  end.

(** [t[idxs] *= c]: read the addressed entries, scale them, write them
    back. *)
Definition imul_at (t : list Q) (idxs : list Z) (c : Q) : result (list Q) :=
  ps ← norm_indices (length t) idxs;
  Ok (scatter t ps ((λ v, v * c)%Q <$> gather t ps)).

(** [dst.copy_(src)]: same shape, or a one-element source broadcast. *)
Definition copy_ (dst src : list Q) : result (list Q) :=
  if bool_decide (length src = length dst) then Ok src
  else match src with
       | [v] => Ok (replicate (length dst) v)
       | _ => Raise RuntimeError
       end.

(** [t.zero_()] *)
Definition zero_ (t : list Q) : list Q := replicate (length t) 0%Q.

End Tensor.

(** ** The per-layer step of the flip loop *)

Module Flip.
Import Tensor.

(** [idxs[(idxs - size) < 0]] *)
Definition below (size : nat) (idxs : list Z) : list Z :=
  filter (λ idx, idx - Z.of_nat size < 0) idxs.

(** [idxs[(idxs - size) >= 0] - size] *)
Definition rest (size : nat) (idxs : list Z) : list Z :=
  (λ idx, idx - Z.of_nat size) <$> filter (λ idx, idx - Z.of_nat size >= 0) idxs.

Record step_out : Type := {
  new_w : list Q;       (* w.data after copy_(newsign) *)
  widxs : list Z;       (* the local indices consumed by this layer *)
  sim_term : scalar;    (* (w.data.sign() == origsign).float().mean() *)
  new_idxs : list Z     (* the index pool left for the next layers *)
}.

(** Body of [for w in conv_weights_to_reset]. *)
Definition flip_layer (w : list Q) (idxs : list Z) : result step_out :=
  let size := length w in
  let widxs := below size idxs in
  let origsign := signs w in
  newsign ← imul_at origsign widxs (-1)%Q;
  w' ← copy_ w newsign;
  Ok {| new_w := w';
        widxs := widxs;
        sim_term := mean_mask (eq_mask (signs w') origsign);
        new_idxs := rest size idxs |}.

End Flip.

(** ** Double-precision arithmetic

    A finite double is the rational it stands for. An operation on
    doubles returns the double nearest to the exact result, ties to the
    even significand (IEEE 754 binary64: a significand of 53 bits, a least
    exponent of -1074 for the unit in the last place). *)

Module Float.

Definition prec : Z := 53.
Definition emin : Z := -1074.

(** The integer part of the binary logarithm of a positive number. *)
Definition ilog2 (x : Q) : Z :=
  let k := Z.log2 (Qnum x) - Z.log2 (Zpos (Qden x)) in
  if Qle_bool (2 ^ k) x then k else k - 1.

(** The exponent of the unit in the last place of the doubles around
    [x]. *)
Definition cexp (x : Q) : Z := Z.max (ilog2 (Qabs x) - (prec - 1)) emin.

(** The nearest integer, ties to the even one. *)
Definition rne (x : Q) : Z :=
  let f := Qfloor x in
  match (x - inject_Z f ?= 1 # 2)%Q with
  | Lt => f
  | Gt => f + 1
  | Eq => if Z.even f then f else f + 1
  end.

(** The double nearest to [x]. *)
Definition round (x : Q) : Q :=
  if Qeq_bool x 0 then 0%Q
  else let e := cexp x in (inject_Z (rne (x * 2 ^ (- e))) * 2 ^ e)%Q.

(** [float(n)] of an integer, as [int * float] converts its left
    operand. *)
Definition of_int (n : Z) : Q := round (inject_Z n).

(** [x * y] on doubles. *)
Definition mul (x y : Q) : Q := round (x * y).

(** The largest double, and the results that are not an overflow. *)
Definition max_float : Q := (inject_Z (2 ^ prec - 1) * 2 ^ 971)%Q.
Definition finite (x : Q) : Prop := (Qabs x <= max_float)%Q.

End Float.

(** ** The attacked model and [run_attack_2] *)

Module Attack.
Import Tensor Flip.

(** A parameter tensor with the bookkeeping torch attaches to it. *)
Record Param : Type := {
  data : list Q;
  requires_grad : bool;
  grad : option (list Q);
  momentum_buffer : option (list Q)   (* optimizer.state[p] *)
}.

Definition set_data (p : Param) (d : list Q) : Param :=
  {| data := d; requires_grad := requires_grad p;
     grad := grad p; momentum_buffer := momentum_buffer p |}.

Definition set_requires_grad (p : Param) (b : bool) : Param :=
  {| data := data p; requires_grad := b;
     grad := grad p; momentum_buffer := momentum_buffer p |}.

(** A parameter is addressed by the path of its module (the entry of
    [plkeys]: the index into [model.features] for alexnet, the
    [layer.i.module] path for the resnets) and its attribute in the
    module ([bn.weight], [bn.bias], [conv.weight], ...). *)
Abbreviation pkey := (string * string)%type.
Abbreviation Model := (gmap pkey Param).

Definition bn_weight (fidx : string) : pkey := (fidx, "bn.weight"%string).
Definition bn_bias (fidx : string) : pkey := (fidx, "bn.bias"%string).

(** Attribute access: a missing module or attribute raises. *)
Definition param (m : Model) (k : pkey) : result Param :=
  match m !! k with
  | Some p => Ok p
  | None => Raise AttributeError
  end.

(** The passport model is read only through [get_scale] and [get_bias]
    of its passport layers; their code is not part of the attack script. *)
Record Passport : Type := {
  get_scale : string → result (list Q);
  get_bias : string → result (list Q)
}.

(** A [for] loop whose body may raise. *)
Fixpoint for_each {A S : Type} (body : S → A → result S) (xs : list A) (s : S)
  : result S :=
  match xs with
  | [] => Ok s
  | x :: xs' => s' ← body s x; for_each body xs' s'
  end.

(** [for param in model.parameters(): param.requires_grad_(False)] *)
Definition freeze (m : Model) : Model :=
  (λ p, set_requires_grad p false) <$> m.

(** Body of the loop that loads scale and bias of the passport model
    into the batch-norm affine parameters and makes them trainable. *)
Definition load_affine (pm : Passport) (m : Model) (fidx : string) : result Model :=
  w ← param m (bn_weight fidx);
  s ← get_scale pm fidx;
  d ← copy_ (data w) s;
  let m := <[bn_weight fidx := set_data w d]> m in
  b ← param m (bn_bias fidx);
  s ← get_bias pm fidx;
  d ← copy_ (data b) s;
  let m := <[bn_bias fidx := set_data b d]> m in
  w ← param m (bn_weight fidx);
  let m := <[bn_weight fidx := set_requires_grad w true]> m in
  b ← param m (bn_bias fidx);
  Ok (<[bn_bias fidx := set_requires_grad b true]> m).

Record prep_state : Type := {
  pr_model : Model;
  conv_weights_to_reset : list pkey;   (* references to the weight tensors *)
  total_weight_size : nat
}.

(** Body of the loop that collects the weights to reset and zeroes the
    biases. *)
Definition collect (st : prep_state) (fidx : string) : result prep_state :=
  let m := pr_model st in
  w ← param m (bn_weight fidx);
  let size := length (data w) in
  b ← param m (bn_bias fidx);
  let m := <[bn_bias fidx := set_data b (zero_ (data b))]> m in
  w ← param m (bn_weight fidx);
  let m := <[bn_weight fidx := set_requires_grad w true]> m in
  b ← param m (bn_bias fidx);
  let m := <[bn_bias fidx := set_requires_grad b true]> m in
  Ok {| pr_model := m;
        conv_weights_to_reset := conv_weights_to_reset st ++ [bn_weight fidx];
        total_weight_size := total_weight_size st + size |}.

(** [int(x)] on a float: truncation towards zero. *)
Definition py_int (x : Q) : Z := Z.quot (Qnum x) (Zpos (Qden x)).

(** [t[:n]] *)
Definition slice_to {A} (t : list A) (n : Z) : list A :=
  if bool_decide (n < 0) then take (Z.to_nat (Z.of_nat (length t) + n)) t
  else take (Z.to_nat n) t.

(** [total_weight_size * args.flipperc]: the integer is converted to a
    double and multiplied with the double [args.flipperc], which
    [type=float] has parsed from the command line as the double nearest
    to the number [flipperc] given there. *)
Definition flip_product (total_weight_size : nat) (flipperc : Q) : Q :=
  Float.mul (Float.of_int (Z.of_nat total_weight_size)) (Float.round flipperc).

(** None of the doubles of that product is an overflow: the converted
    integer, the parsed fraction and the product are finite. *)
Definition no_overflow (total_weight_size : nat) (flipperc : Q) : Prop :=
  Float.finite (Float.of_int (Z.of_nat total_weight_size))
  ∧ Float.finite (Float.round flipperc)
  ∧ Float.finite (flip_product total_weight_size flipperc).

(** [randidxs[:int(total_weight_size * args.flipperc)]], where
    [randidxs = torch.randperm(total_weight_size)] is the permutation
    the default generator hands out. *)
Definition select (total_weight_size : nat) (flipperc : Q) (randidxs : list Z)
  : list Z :=
  slice_to randidxs (py_int (flip_product total_weight_size flipperc)).

(** The outcomes [torch.randperm(n)] can have. *)
Definition randperm (n : nat) (randidxs : list Z) : Prop :=
  randidxs ≡ₚ (Z.of_nat <$> seq 0 n).

Record loop_state : Type := {
  st_model : Model;
  st_idxs : list Z;              (* idxs *)
  st_sim : scalar;               (* sim *)
  st_log : list (list Z)         (* widxs of the layers done, in order *)
}.

(** Body of [for w in conv_weights_to_reset]; [w] is a reference into
    the model, the new signs are written through it. *)
Definition flip_body (st : loop_state) (w : pkey) : result loop_state :=
  p ← param (st_model st) w;
  out ← flip_layer (data p) (st_idxs st);
  Ok {| st_model := <[w := set_data p (new_w out)]> (st_model st);
        st_idxs := new_idxs out;
        st_sim := scalar_add (st_sim st) (sim_term out);
        st_log := st_log st ++ [widxs out] |}.

Definition flip_loop (ws : list pkey) (m : Model) (idxs : list Z)
  : result loop_state :=
  for_each flip_body ws
    {| st_model := m; st_idxs := idxs; st_sim := Num 0; st_log := [] |}.

(** [sim / len(conv_weights_to_reset)]; with no layer [sim] still is the
    integer 0 and the division is an integer division by zero. *)
Definition report (sim : scalar) (n : nat) : result scalar :=
  match n with
  | O => Raise ZeroDivisionError
  | _ => Ok (match sim with
             | Num q => Num (q / inject_Z (Z.of_nat n))%Q
             | NaN => NaN
             end)
  end.

Record attack_out : Type := {
  out_model : Model;
  out_left : list Z;           (* idxs after the loop *)
  out_log : list (list Z);
  out_similarity : scalar      (* the printed signature similarity *)
}.

(** [run_attack_2] from the loaded models up to the printed similarity. *)
Definition run_attack_2 (pm : Passport) (plkeys : list string) (flipperc : Q)
    (randidxs : list Z) (model : Model) : result attack_out :=
  let model := freeze model in
  model ← for_each (load_affine pm) plkeys model;
  pr ← for_each collect plkeys
         {| pr_model := model; conv_weights_to_reset := []; total_weight_size := 0 |};
  let idxs := select (total_weight_size pr) flipperc randidxs in
  st ← flip_loop (conv_weights_to_reset pr) (pr_model pr) idxs;
  sim ← report (st_sim st) (length (conv_weights_to_reset pr));
  Ok {| out_model := st_model st; out_left := st_idxs st;
        out_log := st_log st; out_similarity := sim |}.

End Attack.

(** ** Fine-tuning: [train] and the epoch loop of [run_attack_2] *)

Module Train.
Import Tensor Attack.

Definition set_grad (p : Param) (g : option (list Q)) : Param :=
  {| data := data p; requires_grad := requires_grad p;
     grad := g; momentum_buffer := momentum_buffer p |}.

Definition vadd (a b : list Q) : list Q := zip_with Qplus a b.
Definition vsub (a b : list Q) : list Q := zip_with Qminus a b.
Definition vscale (c : Q) (a : list Q) : list Q := Qmult c <$> a.

(** The hyper-parameters of [torch.optim.SGD(model.parameters(), lr=lr,
    momentum=0.9, weight_decay=0.0005)] with [lr = 0.01]. *)
Definition lr : Q := 1 # 100.
Definition momentum : Q := 9 # 10.
Definition weight_decay : Q := 5 # 10000.

(** [SGD.step] on one parameter: a parameter without gradient is skipped. *)
Definition sgd_param (p : Param) : Param :=
  match grad p with
  | None => p
  | Some g =>
      let d_p := vadd g (vscale weight_decay (data p)) in
      let buf := match momentum_buffer p with
                 | None => d_p
                 | Some b => vadd (vscale momentum b) d_p
                 end in
      {| data := vsub (data p) (vscale lr buf);
         requires_grad := requires_grad p;
         grad := grad p;
         momentum_buffer := Some buf |}
  end.

(** [optimizer.step()]: the optimizer holds every parameter of the model. *)
Definition step (m : Model) : Model := sgd_param <$> m.

(** [optimizer.zero_grad()]: existing gradients are zeroed in place. *)
Definition zero_grad (m : Model) : Model :=
  (λ p, set_grad p (zero_ <$> grad p)) <$> m.

Section Epochs.
Context {Batch : Type}.

(** What the forward pass, the loss and autograd compute for a parameter
    on a batch; [loss.backward()] accumulates it into [p.grad] of the
    parameters that require a gradient and of no other. *)
Variable autograd : Model → Batch → pkey → list Q.

Definition backward (m : Model) (b : Batch) : Model :=
  map_imap (λ k p,
    Some (if requires_grad p
          then set_grad p (Some (match grad p with
                                 | None => autograd m b k
                                 | Some g => vadd g (autograd m b k)
                                 end))
          else p)) m.

(** Body of [for k, (d, t) in enumerate(trainloader)] in [train]. *)
Definition train_batch (m : Model) (b : Batch) : Model :=
  step (backward (zero_grad m) b).

(** [train(model, optimizer, criterion, trainloader, device)] *)
Definition train (m : Model) (trainloader : list Batch) : Model :=
  fold_left train_batch trainloader m.

(** [for ep in range(1, epochs + 1)]: one pass over the loader per epoch
    ([test] reads the model under [no_grad] and changes no parameter). *)
Definition fine_tune (m : Model) (epochs : list (list Batch)) : Model :=
  fold_left train epochs m.

End Epochs.
End Train.

(** ** The weight transplant of [transfer_learning] *)

Module Transfer.
Import Tensor.

(** A state dict: parameter and buffer names to tensors (a tensor's shape
    is its number of entries). *)
Abbreviation state_dict := (gmap string (list Q)).

(** A module of the passport model: its state dict, and for a passport
    layer what [get_scale()] and [get_bias()] return. *)
Record passport_module : Type := {
  pm_state : state_dict;
  pm_affine : option (list Q * list Q)
}.

Definition pm_get_scale (s : passport_module) : result (list Q) :=
  match pm_affine s with
  | Some (sc, _) => Ok sc
  | None => Raise AttributeError
  end.

Definition pm_get_bias (s : passport_module) : result (list Q) :=
  match pm_affine s with
  | Some (_, bi) => Ok bi
  | None => Raise AttributeError
  end.

(** The clone has its [features] (alexnet) and the modules reached by
    name (the resnets); so has the passport model. *)
Record CloneNet : Type := {
  c_features : list state_dict;
  c_named : gmap string state_dict
}.

Record PassportNet : Type := {
  p_features : list passport_module;
  p_named : gmap string passport_module
}.

Definition shape_ok (sd : state_dict) (k : string) (t : list Q) : bool :=
  match sd !! k with
  | Some s => bool_decide (length s = length t)
  | None => true
  end.

(** [target.load_state_dict(sd, strict)] of torch: every entry of the
    target that [sd] has with the same shape is copied; then the call
    raises if a shape differed or, when strict, if the key sets differ.
    The result is the target after the call and whether it returned. *)
Definition load_state_dict (target sd : state_dict) (strict : bool)
  : state_dict * bool :=
  let new := map_imap (λ k t,
               Some (match sd !! k with
                     | Some s => if bool_decide (length s = length t) then s else t
                     | None => t
                     end)) target in
  let shapes := bool_decide (map_Forall (λ k t, shape_ok sd k t = true) target) in
  let keys := bool_decide (dom target = dom sd) in
  (new, shapes && (negb strict || keys)).

Fixpoint load_features (tl : list state_dict) (self : list passport_module)
  : list state_dict * bool :=
  match tl, self with
  | t :: tl', s :: self' =>
      let r := load_state_dict t (pm_state s) true in
      let rs := load_features tl' self' in
      (r.1 :: rs.1, r.2 && rs.2)
  | t :: tl', [] =>
      let rs := load_features tl' [] in
      (t :: rs.1, bool_decide (t = ∅) && rs.2)
  | [], self' => ([], forallb (λ s, bool_decide (pm_state s = ∅)) self')
  end.

Definition named_sd (self : gmap string passport_module) (path : string)
  : state_dict :=
  default ∅ (pm_state <$> self !! path).

(** [tl_model.load_state_dict(self.model.state_dict())] on the whole
    models (strict). *)
Definition load_model (tl : CloneNet) (self : PassportNet) : CloneNet * bool :=
  let fs := load_features (c_features tl) (p_features self) in
  let named := map_imap (λ path t,
                 Some (load_state_dict t (named_sd (p_named self) path) true).1)
                 (c_named tl) in
  let ok_named :=
    bool_decide (map_Forall (λ path t,
        (load_state_dict t (named_sd (p_named self) path) true).2 = true)
        (c_named tl)) in
  let no_extra :=
    bool_decide (map_Forall (λ path s,
        is_Some (c_named tl !! path) ∨ pm_state s = ∅) (p_named self)) in
  ({| c_features := fs.1; c_named := named |}, fs.2 && ok_named && no_extra).

Definition entry (t : state_dict) (k : string) : result (list Q) :=
  match t !! k with
  | Some v => Ok v
  | None => Raise AttributeError
  end.

(** The body shared by the three fallback loops:
    [try: tl_m.load_state_dict(self_m.state_dict())] and its [except]. *)
Definition transplant (tl_m : state_dict) (self_m : passport_module)
  : result state_dict :=
  let r := load_state_dict tl_m (pm_state self_m) true in
  if r.2 then Ok r.1
  else
    let r := load_state_dict r.1 (pm_state self_m) false in
    if negb r.2 then Raise RuntimeError
    else
      let t := r.1 in
      w ← entry t "bn.weight";
      sc ← pm_get_scale self_m;
      d ← copy_ w sc;
      let t := <["bn.weight"%string := d]> t in
      b ← entry t "bn.bias";
      bi ← pm_get_bias self_m;
      d ← copy_ b bi;
      Ok (<["bn.bias"%string := d]> t).

(** [for tl_m, self_m in zip(tl_model.features, self.model.features)] *)
Fixpoint transplant_features (tl : list state_dict) (self : list passport_module)
  : result (list state_dict) :=
  match tl, self with
  | t :: tl', s :: self' =>
      t' ← transplant t s;
      rest ← transplant_features tl' self';
      Ok (t' :: rest)
  | _, _ => Ok tl
  end.

(** The passport configuration: a layer is a module, or a mapping from
    the indices of a sequential to the names of its modules. *)
Inductive cfg_entry : Type :=
  | CfgModule
  | CfgSequential (blocks : list (string * list string)).

Definition module_path (l_key i m_key : string) : string :=
  l_key +:+ "." +:+ i +:+ "." +:+ m_key.

(** The module paths the nested loops over [passport_settings] visit, in
    order. *)
Definition config_paths (passport_settings : list (string * cfg_entry))
  : list string :=
  '(l_key, e) ← passport_settings;
  match e with
  | CfgModule => [l_key]
  | CfgSequential blocks =>
      '(i, m_keys) ← blocks;
      m_key ← m_keys;
      [module_path l_key i m_key]
  end.

Definition named_module {A} (m : gmap string A) (path : string) : result A :=
  match m !! path with
  | Some x => Ok x
  | None => Raise AttributeError
  end.

Fixpoint transplant_named (paths : list string) (tl : gmap string state_dict)
    (self : gmap string passport_module) : result (gmap string state_dict) :=
  match paths with
  | [] => Ok tl
  | path :: paths' =>
      tl_m ← named_module tl path;
      self_m ← named_module self path;
      t' ← transplant tl_m self_m;
      transplant_named paths' (<[path := t']> tl) self
  end.

Inductive arch : Type := alexnet | resnet.

(** [transfer_learning], its block "load / reset weights of passport
    layers for clone model". *)
Definition transfer_learning (a : arch) (passport_settings : list (string * cfg_entry))
    (tl : CloneNet) (self : PassportNet) : result CloneNet :=
  let r := load_model tl self in
  if r.2 then Ok r.1
  else
    let tl := r.1 in
    match a with
    | alexnet =>
        fs ← transplant_features (c_features tl) (p_features self);
        Ok {| c_features := fs; c_named := c_named tl |}
    | resnet =>
        named ← transplant_named (config_paths passport_settings)
                  (c_named tl) (p_named self);
        Ok {| c_features := c_features tl; c_named := named |}
    end.

End Transfer.

(** ** A small model to evaluate the definitions on *)

Module Example.
Import Attack.

Definition fresh (d : list Q) : Param :=
  {| data := d; requires_grad := true; grad := None; momentum_buffer := None |}.

(** Two attacked layers with batch norm, of 2 and 3 channels, a
    convolution, and the bias of a layer that is not attacked. *)
Definition model : Model :=
  <[bn_weight "0" := fresh [1; 1]%Q]>
  (<[bn_bias "0" := fresh [4; 5]%Q]>
  (<[bn_weight "2" := fresh [1; 1; 1]%Q]>
  (<[bn_bias "2" := fresh [6; 7; 8]%Q]>
  (<[bn_bias "1" := fresh [3; 3]%Q]>
  (<[("0", "conv.weight")%string := fresh [5; 6; 7]%Q]> ∅))))).

Definition passport : Passport :=
  {| get_scale := λ f, Ok (if String.eqb f "0" then [5 # 2; -3]%Q
                           else [0; 1 # 2; -1 # 2]%Q);
     get_bias := λ f, Ok (if String.eqb f "0" then [7; 8]%Q else [9; 9; 9]%Q) |}.

Definition plkeys : list string := ["0"; "2"]%string.

End Example.

(** ** Reference notions the properties are stated with *)

Module Spec.
Import Tensor Flip Attack.

(** The tensor [sign(w)] with the entries at the selected channels
    negated. *)
Definition flipped (w : list Q) (idxs : list Z) : list Q :=
  imap (λ i x, if bool_decide (Z.of_nat i ∈ idxs) then (sign x * -1)%Q else sign x) w.

(** The first global index of layer [l]: the channel counts before it. *)
Definition offset (sizes : list nat) (l : nat) : Z :=
  Z.of_nat (sum_list (take l sizes)).

(** Channel [i] carries the same sign in [after] as in [before]. *)
Definition agree (before after : list Q) (i : nat) : bool :=
  match before !! i, after !! i with
  | Some b, Some a => Qeq_bool (sign a) (sign b)
  | _, _ => false
  end.

(** The fraction of the channels of a layer whose sign is the same
    after the flip as before. *)
Definition fraction_unchanged (before after : list Q) : Q :=
  inject_Z (Z.of_nat (length (List.filter (agree before after) (seq 0 (length before)))))
  / inject_Z (Z.of_nat (length before)).

Definition Qsum (qs : list Q) : Q := foldr Qplus 0%Q qs.

(** The arithmetic mean of a list of numbers. *)
Definition arithmetic_mean (qs : list Q) : Q :=
  (Qsum qs / inject_Z (Z.of_nat (length qs)))%Q.

(** The local indices each layer of the given sizes takes from the pool,
    and the pool left after the last layer. *)
Fixpoint consume (sizes : list nat) (idxs : list Z) : list (list Z) * list Z :=
  match sizes with
  | [] => ([], idxs)
  | c :: cs =>
      let r := consume cs (rest c idxs) in
      (below c idxs :: r.1, r.2)
  end.

(** The channel count of the weight a reference points to. *)
Definition size_of (m : Model) (w : pkey) : nat :=
  match m !! w with
  | Some p => length (data p)
  | None => 0
  end.

(** The parameters the attack makes trainable: the batch-norm weight and
    bias of the layers of [plkeys]. *)
Definition affine_of (plkeys : list string) (k : pkey) : Prop :=
  k.1 ∈ plkeys ∧ (k.2 = "bn.weight"%string ∨ k.2 = "bn.bias"%string).

#[global] Instance affine_of_dec (plkeys : list string) (k : pkey) :
  Decision (affine_of plkeys k).
Proof. unfold affine_of. apply _. Defined.

(** The bias of a layer of [plkeys]. *)
Definition bias_of (plkeys : list string) (k : pkey) : Prop :=
  k.1 ∈ plkeys ∧ k.2 = "bn.bias"%string.

#[global] Instance bias_of_dec (plkeys : list string) (k : pkey) :
  Decision (bias_of plkeys k).
Proof. unfold bias_of. apply _. Defined.

(** The models [run_attack_2] runs on without an error: every layer of
    [plkeys] has its batch-norm weight and bias, and the passport model
    returns a scale and a bias of their shapes. *)
Definition attackable (pm : Passport) (plkeys : list string) (m : Model) : Prop :=
  ∀ f, f ∈ plkeys →
    ∃ w b s t, m !! bn_weight f = Some w ∧ m !! bn_bias f = Some b
      ∧ get_scale pm f = Ok s ∧ length s = length (data w)
      ∧ get_bias pm f = Ok t ∧ length t = length (data b).

(** [m] after the affine parameters of the layers [done] were loaded into
    [m0] and made trainable. *)
Definition loaded (done : list string) (m0 m : Model) : Prop :=
  ∀ k, match m0 !! k, m !! k with
       | Some p, Some p' =>
           grad p' = grad p ∧ momentum_buffer p' = momentum_buffer p
           ∧ length (data p') = length (data p)
           ∧ requires_grad p'
             = (if decide (affine_of done k) then true else requires_grad p)
           ∧ (¬ affine_of done k → data p' = data p)
       | None, None => True
       | _, _ => False
       end.

(** [m] after the biases of the layers [done] of [m0] were zeroed and
    their affine parameters made trainable. *)
Definition collected (done : list string) (m0 m : Model) : Prop :=
  ∀ k, match m0 !! k, m !! k with
       | Some p, Some p' =>
           grad p' = grad p ∧ momentum_buffer p' = momentum_buffer p
           ∧ requires_grad p'
             = (if decide (affine_of done k) then true else requires_grad p)
           ∧ data p'
             = (if decide (bias_of done k) then zero_ (data p) else data p)
       | None, None => True
       | _, _ => False
       end.

(** What [run_attack_2] has done to the model [m0] when the similarity is
    printed: gradients and optimizer state are as before, shapes are
    kept, exactly the affine parameters of [plkeys] are trainable, their
    biases are zero, and the data of every other parameter is as loaded. *)
Definition attack_effect (plkeys : list string) (m0 m : Model) : Prop :=
  ∀ k, match m0 !! k, m !! k with
       | Some p, Some p' =>
           grad p' = grad p ∧ momentum_buffer p' = momentum_buffer p
           ∧ length (data p') = length (data p)
           ∧ requires_grad p' = bool_decide (affine_of plkeys k)
           ∧ (bias_of plkeys k → data p' = zero_ (data p))
           ∧ (¬ affine_of plkeys k → data p' = data p)
       | None, None => True
       | _, _ => False
       end.

(** The weight tensor of a parameter of the model. *)
Definition data_of (m : Model) (k : pkey) : list Q :=
  match m !! k with
  | Some p => data p
  | None => []
  end.

(** The channel counts of the layers the loop visits, in order. *)
Definition layer_sizes (m : Model) (ws : list pkey) : list nat :=
  size_of m <$> ws.

(** A model that differs from [m0] only in the data of the parameters
    [touched], whose shapes are kept. *)
Definition reshaped (touched : pkey → Prop) (m0 m : Model) : Prop :=
  ∀ k, match m0 !! k, m !! k with
       | Some p, Some p' =>
           (∃ d, p' = set_data p d ∧ length d = length (data p))
           ∧ (¬ touched k → p' = p)
       | None, None => True
       | _, _ => False
       end.

End Spec.

(** ** Reference notions for the transplant *)

Module TransferSpec.
Import Tensor Transfer.

(** A module of the clone and the module of the passport model at the
    same place, in models of matching architecture: the entries they
    share have the same shape; a plain module has the same entries as the
    clone's; a passport layer faces a module with batch-norm weight and
    bias of the shape of its scale and bias, and does not store a
    batch-norm weight itself. *)
Definition compatible (t : state_dict) (s : passport_module) : Prop :=
  map_Forall (λ k v, shape_ok (pm_state s) k v = true) t
  ∧ match pm_affine s with
    | Some (sc, bi) =>
        (∃ w, t !! "bn.weight"%string = Some w ∧ length sc = length w)
        ∧ (∃ b, t !! "bn.bias"%string = Some b ∧ length bi = length b)
        ∧ pm_state s !! "bn.weight"%string = None
    | None => dom t = dom (pm_state s)
    end.

(** The clone's module holds the scale and bias of the passport layer as
    its batch-norm weight and bias. *)
Definition transplanted (t : state_dict) (s : passport_module) : Prop :=
  match pm_affine s with
  | Some (sc, bi) =>
      t !! "bn.weight"%string = Some sc ∧ t !! "bn.bias"%string = Some bi
  | None => True
  end.

(** The clone's module [t0] has become [t] by copies from the module of
    the passport model: the keys are those of [t0]; every entry that the
    module of the passport model has as well holds the tensor of the
    passport model, every other entry is as it was. The batch-norm weight
    and bias facing a passport layer are set apart: they hold the scale
    and the bias ([transplanted]). *)
Definition copied (t0 t : state_dict) (s : passport_module) : Prop :=
  dom t = dom t0
  ∧ ∀ k v0, t0 !! k = Some v0 →
      (is_Some (pm_affine s) → k ≠ "bn.weight"%string ∧ k ≠ "bn.bias"%string) →
      t !! k = Some (default v0 (pm_state s !! k)).

(** The modules the fallback visits are compatible. *)
Definition matching (a : arch) (passport_settings : list (string * cfg_entry))
    (tl : CloneNet) (self : PassportNet) : Prop :=
  match a with
  | alexnet => Forall2 compatible (c_features tl) (p_features self)
  | resnet =>
      ∀ path, path ∈ config_paths passport_settings →
        ∃ t s, c_named tl !! path = Some t ∧ p_named self !! path = Some s
          ∧ compatible t s
  end.

(** Every passport layer the fallback visits has its scale and bias in
    the clone. *)
Definition reconstructed (a : arch) (passport_settings : list (string * cfg_entry))
    (tl : CloneNet) (self : PassportNet) : Prop :=
  match a with
  | alexnet =>
      ∀ i s, p_features self !! i = Some s →
        ∃ t, c_features tl !! i = Some t ∧ transplanted t s
  | resnet =>
      ∀ path s, path ∈ config_paths passport_settings →
        p_named self !! path = Some s →
        ∃ t, c_named tl !! path = Some t ∧ transplanted t s
  end.

(** Every module of the clone [tl0] that the fallback visits has become,
    in [tl], a copy of the module of the passport model, with the scale
    and bias of a passport layer in its batch-norm weight and bias. *)
Definition recovered (a : arch) (passport_settings : list (string * cfg_entry))
    (tl0 tl : CloneNet) (self : PassportNet) : Prop :=
  match a with
  | alexnet =>
      length (c_features tl) = length (c_features tl0)
      ∧ ∀ i t0 s, c_features tl0 !! i = Some t0 → p_features self !! i = Some s →
          ∃ t, c_features tl !! i = Some t ∧ copied t0 t s ∧ transplanted t s
  | resnet =>
      ∀ path t0 s, path ∈ config_paths passport_settings →
        c_named tl0 !! path = Some t0 → p_named self !! path = Some s →
        ∃ t, c_named tl !! path = Some t ∧ copied t0 t s ∧ transplanted t s
  end.

End TransferSpec.

(** A clone and a passport model of two feature modules: a block with
    batch norm facing a passport layer, and a module without entries. *)
Module TransferExample.
Import Transfer.

Definition clone : CloneNet :=
  {| c_features :=
       [ <["conv.weight"%string := [1; 2]%Q]>
           (<["bn.weight"%string := [1; 1]%Q]>
              (<["bn.bias"%string := [0; 0]%Q]> ∅));
         ∅ ];
     c_named := ∅ |}.

Definition passport_layer : passport_module :=
  {| pm_state := <["conv.weight"%string := [3; 4]%Q]> ∅;
     pm_affine := Some ([5; -6]%Q, [7; 8]%Q) |}.

Definition plain_module : passport_module :=
  {| pm_state := ∅; pm_affine := None |}.

Definition passport_net : PassportNet :=
  {| p_features := [passport_layer; plain_module]; p_named := ∅ |}.

End TransferExample.

(** A model whose only attacked layer has no channel. *)
Module EmptyExample.
Import Attack.

Definition model : Model :=
  <[bn_weight "0" := Example.fresh []]> (<[bn_bias "0" := Example.fresh []]> ∅).

Definition passport : Passport :=
  {| get_scale := λ _, Ok []; get_bias := λ _, Ok [] |}.

End EmptyExample.

(** ** Loading the clone back into the passport model *)

Module TransferBack.
Import Tensor Transfer.

(** The body of the loops of "load transfer learning weights from clone
    model": [try: self_m.load_state_dict(tl_m.state_dict())], and the
    non-strict load of its [except]. *)
Definition load_back (self_m tl_m : state_dict) : result state_dict :=
  let r := load_state_dict self_m tl_m true in
  if r.2 then Ok r.1
  else
    let r := load_state_dict r.1 tl_m false in
    if r.2 then Ok r.1 else Raise RuntimeError.

(** [for tl_m, self_m in zip(tl_model.features, self.model.features)],
    on the state dicts of the modules of the passport model. *)
Fixpoint load_back_features (self tl : list state_dict)
  : result (list state_dict) :=
  match self, tl with
  | s :: self', t :: tl' =>
      s' ← load_back s t;
      rest ← load_back_features self' tl';
      Ok (s' :: rest)
  | _, _ => Ok self
  end.

End TransferBack.

(** ** [set_intermediate_keys] *)

Module Keys.
Section Keys.

(** [X] are the activations, [L] the modules of
    [passport_model.features]. What [set_key] does to a passport layer is
    code of the layer, outside the script. *)
Context {X L : Type}.
Variable is_passport : L → bool.   (* a PassportBlock or a PassportPrivateBlock *)
Variable set_key : L → X → option X → L.

(** The loop over [zip(pretrained_model.features,
    passport_model.features)]: a passport layer gets the current keys,
    then the keys go through the pretrained layer. *)
Fixpoint set_intermediate_keys (passport_features : list L)
    (pretrained_features : list (X → X)) (x : X) (y : option X) : list L :=
  match pretrained_features, passport_features with
  | pretrained_layer :: pretrained', passport_layer :: passport' =>
      (if is_passport passport_layer then set_key passport_layer x y
       else passport_layer)
      :: set_intermediate_keys passport' pretrained'
           (pretrained_layer x) (pretrained_layer <$> y)
  | _, _ => passport_features
  end.

(** The activation of [x] after the given layers. *)
Definition forward (layers : list (X → X)) (x : X) : X :=
  fold_left (λ a layer, layer a) layers x.

End Keys.
End Keys.

(** ** The epoch loop of [ClassificationPrivateExperiment.training] *)

Module Experiment.

(** A mapping of metric names to values. *)
Abbreviation metrics := (gmap string Q).

(** [for key in src: metrics[f'{prefix}{key}'] = src[key]]; the keys
    written are distinct, the order of the iteration does not show in the
    result. *)
Definition add_prefixed (prefix : string) (src acc : metrics) : metrics :=
  map_fold (λ key v acc, <[prefix +:+ key := v]> acc) acc src.

(** What the trainer returns in an epoch. *)
Record epoch_result : Type := {
  train_metrics : metrics;
  valid_metrics : metrics;
  wm_metrics : metrics       (* self.trainer.test(self.wm_data, ...) *)
}.

(** The [metrics] of an epoch of [training]. *)
Definition merge_metrics (train_backdoor : bool) (r : epoch_result) : metrics :=
  let wm := if train_backdoor then wm_metrics r else ∅ in
  add_prefixed "wm_" wm
    (add_prefixed "valid_" (valid_metrics r)
       (add_prefixed "train_" (train_metrics r) ∅)).

(** [best_acc]: [float('-inf')] or an accuracy. *)
Inductive best : Type :=
  | NegInf
  | Best (acc : Q).

(** [best_acc < acc] *)
Definition improves (b : best) (acc : Q) : bool :=
  match b with
  | NegInf => true
  | Best q => negb (Qle_bool acc q)
  end.

(** The files written: [epoch-{ep}.pth], [best.pth], and the file of
    [save_last_model]. *)
Inductive file : Type :=
  | epoch_pth (ep : Z)
  | best_pth
  | last_pth.

Record run_state : Type := {
  best_acc : best;
  history : list metrics;        (* the rows appended to history.csv *)
  saves : list (file * Z)        (* each file written, with the epoch of
                                    the model it holds, in order *)
}.

(** Body of [for ep in range(1, self.epochs + 1)]; [None] is the
    [KeyError] of a metric the trainer did not return. *)
Definition epoch_body (save_interval : Z) (train_backdoor : bool)
    (st : run_state) (ep : Z) (r : epoch_result) : option run_state :=
  _ ← train_metrics r !! "sign_acc"%string;
  let metrics := merge_metrics train_backdoor r in
  let saves1 :=
    if bool_decide (save_interval ≠ 0) && bool_decide (ep `mod` save_interval = 0)
    then saves st ++ [(epoch_pth ep, ep)] else saves st in
  acc ← metrics !! "valid_total_acc"%string;
  let improved := improves (best_acc st) acc in
  Some {| best_acc := if improved then Best acc else best_acc st;
          history := history st ++ [metrics];
          saves := (if improved then saves1 ++ [(best_pth, ep)] else saves1)
                   ++ [(last_pth, ep)] |}.

Fixpoint epoch_loop (save_interval : Z) (train_backdoor : bool)
    (ep : Z) (results : list epoch_result) (st : run_state) : option run_state :=
  match results with
  | [] => Some st
  | r :: results' =>
      st' ← epoch_body save_interval train_backdoor st ep r;
      epoch_loop save_interval train_backdoor (ep + 1) results' st'
  end.

(** [training]: [results] are the metrics of the epochs 1, 2, ... *)
Definition training (save_interval : Z) (train_backdoor : bool)
    (results : list epoch_result) : option run_state :=
  epoch_loop save_interval train_backdoor 1 results
    {| best_acc := NegInf;
       history := [];
       saves := if bool_decide (0 < save_interval) then [(epoch_pth 0, 0)] else [] |}.

(** The validation accuracy [training] compares. *)
Definition total_acc (r : epoch_result) : option Q :=
  valid_metrics r !! "total_acc"%string.

(** [best_acc] after the given accuracies, one by one. *)
Definition running (b : best) (accs : list Q) : best :=
  fold_left (λ b acc, if improves b acc then Best acc else b) accs b.

(** When the epoch [ep], with best accuracy [b] so far and validation
    accuracy [acc], writes the file [f]. *)
Definition written (save_interval : Z) (f : file) (ep : Z) (b : best) (acc : Q)
  : Prop :=
  match f with
  | epoch_pth k => k = ep ∧ save_interval ≠ 0 ∧ ep `mod` save_interval = 0
  | best_pth => improves b acc = true
  | last_pth => True
  end.

(** The trainer returned the metrics the loop reads, with validation
    accuracy [acc]. *)
Definition reports (r : epoch_result) (acc : Q) : Prop :=
  is_Some (train_metrics r !! "sign_acc"%string) ∧ total_acc r = Some acc.

#[global] Instance file_eq_dec : EqDecision file.
Proof. solve_decision. Defined.

(** The epoch of the model that the file [f] holds after the writes [l]:
    [torch.save] overwrites, the last write to [f] counts. *)
Definition holds (f : file) (l : list (file * Z)) : option Z :=
  fold_left (λ o fe, if decide (fe.1 = f) then Some fe.2 else o) l None.

End Experiment.

Module ExperimentExample.
Import Experiment.

Definition epoch (sign_acc total : Q) : epoch_result :=
  {| train_metrics := {[ "sign_acc"%string := sign_acc ]};
     valid_metrics := {[ "total_acc"%string := total ]};
     wm_metrics := ∅ |}.

(** Three epochs; the second reaches the best accuracy, the third equals
    it. *)
Definition accs : list Q := [1 # 2; 3 # 4; 3 # 4]%Q.
Definition results : list epoch_result := epoch 1 <$> accs.

End ExperimentExample.

(** ** Facts on the tensor primitives *)

Section TensorFacts.
Import Tensor.

Lemma sign_values (x : Q) : sign x = 0%Q ∨ sign x = 1%Q ∨ sign x = (-1)%Q.
Proof. unfold sign. destruct (Qnum x); auto. Qed.

Lemma sign_idem (x : Q) : sign (sign x) = sign x.
Proof. unfold sign. by destruct (Qnum x). Qed.

Lemma sign_neg_neg (x : Q) : sign (sign (sign x * -1) * -1) = sign x.
Proof. unfold sign. by destruct (Qnum x). Qed.

Lemma length_signs (t : list Q) : length (signs t) = length t.
Proof. unfold signs. by rewrite length_fmap. Qed.

Lemma norm_index_nonneg (size : nat) (idx : Z) :
  0 ≤ idx < Z.of_nat size → norm_index size idx = Ok (Z.to_nat idx).
Proof. intros H. unfold norm_index. by rewrite bool_decide_eq_true_2. Qed.

Lemma norm_indices_nonneg (size : nat) (idxs : list Z) :
  Forall (λ idx, 0 ≤ idx < Z.of_nat size) idxs →
  norm_indices size idxs = Ok (Z.to_nat <$> idxs).
Proof.
  induction 1 as [|i rest Hi _ IH]; [done|].
  cbn. rewrite norm_index_nonneg by done. cbn. by rewrite IH.
Qed.

Lemma length_scatter (t : list Q) (ps : list nat) (vals : list Q) :
  length (scatter t ps vals) = length t.
Proof.
  revert t vals. induction ps as [|p ps IH]; intros t [|v vals]; cbn; try done.
  by rewrite IH, length_insert.
Qed.

(** Writing back values computed from the positions themselves: a
    position listed several times is written the same value each time. *)
Lemma lookup_scatter (g : nat → Q) (ps : list nat) (t : list Q) (i : nat) :
  (i < length t)%nat →
  scatter t ps (g <$> ps) !! i
  = if decide (i ∈ ps) then Some (g i) else t !! i.
Proof.
  revert t. induction ps as [|p ps IH]; intros t Hi; cbn.
  - by rewrite decide_False by apply not_elem_of_nil.
  - rewrite IH by (by rewrite length_insert).
    destruct (decide (i ∈ ps)) as [Hin|Hin].
    + by rewrite decide_True by (by right).
    + destruct (decide (i = p)) as [->|Hne].
      * rewrite decide_True by left. by rewrite list_lookup_insert_eq.
      * rewrite decide_False by (rewrite elem_of_cons; tauto).
        by rewrite list_lookup_insert_ne.
Qed.

Lemma copy__same (dst src : list Q) :
  length src = length dst → copy_ dst src = Ok src.
Proof. intros H. unfold copy_. by rewrite bool_decide_eq_true_2. Qed.

Lemma imul_at_nonneg (t : list Q) (idxs : list Z) (c : Q) :
  Forall (λ idx, 0 ≤ idx < Z.of_nat (length t)) idxs →
  imul_at t idxs c
  = Ok (scatter t (Z.to_nat <$> idxs)
          ((λ p, default 0 (t !! p) * c)%Q <$> (Z.to_nat <$> idxs))).
Proof.
  intros H. unfold imul_at. rewrite norm_indices_nonneg by done. cbn.
  unfold gather. by rewrite <- list_fmap_compose.
Qed.

End TensorFacts.

(** ** The per-layer flip *)

Section FlipFacts.
Import Tensor Flip Spec.

Lemma elem_of_below (size : nat) (idxs : list Z) (j : Z) :
  j ∈ below size idxs ↔ j ∈ idxs ∧ j < Z.of_nat size.
Proof.
  unfold below. rewrite list_elem_of_filter.
  split; intros [? ?]; split; try done; lia.
Qed.

Lemma elem_of_rest (size : nat) (idxs : list Z) (j : Z) :
  j ∈ rest size idxs ↔ j + Z.of_nat size ∈ idxs ∧ 0 ≤ j.
Proof.
  unfold rest. rewrite list_elem_of_fmap. split.
  - intros (g & -> & Hg). apply list_elem_of_filter in Hg as [Hge Hg].
    split; [|lia]. by replace (g - Z.of_nat size + Z.of_nat size) with g by lia.
  - intros [Hin Hj]. exists (j + Z.of_nat size). split; [lia|].
    apply list_elem_of_filter. split; [lia|done].
Qed.

Lemma below_nonneg (size : nat) (idxs : list Z) :
  Forall (λ idx, 0 ≤ idx) idxs →
  Forall (λ idx, 0 ≤ idx < Z.of_nat size) (below size idxs).
Proof.
  rewrite !Forall_forall. intros H j Hj.
  apply elem_of_below in Hj as [Hj ?]. split; [by apply H|done].
Qed.

Lemma rest_nonneg (size : nat) (idxs : list Z) :
  Forall (λ idx, 0 ≤ idx) (rest size idxs).
Proof.
  rewrite Forall_forall. intros j Hj. by apply elem_of_rest in Hj as [_ ?].
Qed.

Lemma length_flipped (w : list Q) (idxs : list Z) :
  length (flipped w idxs) = length w.
Proof. unfold flipped. by rewrite length_imap. Qed.

Lemma lookup_flipped (w : list Q) (idxs : list Z) (i : nat) :
  flipped w idxs !! i
  = (λ x, if bool_decide (Z.of_nat i ∈ idxs) then (sign x * -1)%Q else sign x) <$> w !! i.
Proof. unfold flipped. by rewrite list_lookup_imap. Qed.

(** What the loop body computes when the pool holds no negative index. *)
Lemma flip_layer_nonneg (w : list Q) (idxs : list Z) :
  Forall (λ idx, 0 ≤ idx) idxs →
  flip_layer w idxs
  = Ok {| new_w := flipped w idxs;
          widxs := below (length w) idxs;
          sim_term := mean_mask (eq_mask (signs (flipped w idxs)) (signs w));
          new_idxs := rest (length w) idxs |}.
Proof.
  intros Hnn. unfold flip_layer.
  pose proof (below_nonneg (length w) idxs Hnn) as Hb.
  rewrite imul_at_nonneg by (by rewrite length_signs).
  cbn. rewrite copy__same by (by rewrite length_scatter, length_signs).
  cbn.
  assert (scatter (signs w) (Z.to_nat <$> below (length w) idxs)
            ((λ p, default 0 (signs w !! p) * -1)%Q
               <$> (Z.to_nat <$> below (length w) idxs))
          = flipped w idxs) as ->; [|done].
  apply list_eq. intros i. rewrite lookup_flipped.
  destruct (decide (i < length w)%nat) as [Hi|Hi].
  - rewrite lookup_scatter by (by rewrite length_signs).
    unfold signs. rewrite list_lookup_fmap.
    destruct (w !! i) as [x|] eqn:Hx; cbn;
      [|apply lookup_ge_None in Hx; lia].
    destruct (decide (i ∈ Z.to_nat <$> below (length w) idxs)) as [Hin|Hin].
    + apply list_elem_of_fmap in Hin as (j & -> & Hj).
      rewrite Forall_forall in Hb. pose proof (Hb _ Hj) as Hr.
      apply elem_of_below in Hj as [Hj _].
      rewrite Z2Nat.id by lia. by rewrite bool_decide_eq_true_2.
    + rewrite bool_decide_eq_false_2; [done|].
      intros Hj. apply Hin. apply list_elem_of_fmap. exists (Z.of_nat i).
      split; [lia|]. apply elem_of_below. split; [done|lia].
  - rewrite (lookup_ge_None_2 w) by lia. cbn.
    apply lookup_ge_None_2. rewrite length_scatter, length_signs. lia.
Qed.

End FlipFacts.

Section FlipTheorems.
Import Tensor Flip Spec.

Lemma sign_zero (x : Q) : (x == 0)%Q → sign x = 0%Q.
Proof.
  unfold Qeq, sign. cbn. intros H.
  replace (Qnum x) with 0 by lia. done.
Qed.




(** C7: flipping every channel of a layer and flipping every channel
    again gives back the sign pattern of the scale vector. *)
Theorem full_flip_twice (w : list Q) (idxs : list Z) :
  idxs ≡ₚ (Z.of_nat <$> seq 0 (length w)) →
  ∃ out1 out2,
    flip_layer w idxs = Ok out1
    ∧ flip_layer (new_w out1) idxs = Ok out2
    ∧ signs (new_w out2) = signs w.
Proof.
  intros Hp.
  assert (Hmem : ∀ j, j ∈ idxs ↔ ∃ i : nat, j = Z.of_nat i ∧ (i < length w)%nat).
  { intros j. rewrite Hp, list_elem_of_fmap. split.
    - intros (i & -> & Hi). exists i. split; [done|].
      apply elem_of_seq in Hi. lia.
    - intros (i & -> & Hi). exists i. split; [done|].
      apply elem_of_seq. lia. }
  assert (Hnn : Forall (λ idx, 0 ≤ idx) idxs).
  { rewrite Forall_forall. intros j Hj. apply Hmem in Hj as (i & -> & _). lia. }
  do 2 eexists. split; [by apply flip_layer_nonneg|].
  split; [by apply flip_layer_nonneg|]. cbn [new_w].
  apply list_eq. intros i. unfold signs.
  rewrite !list_lookup_fmap, !lookup_flipped.
  destruct (w !! i) as [x|] eqn:Hx; [|done]. cbn.
  apply lookup_lt_Some in Hx.
  rewrite bool_decide_eq_true_2 by (apply Hmem; eauto).
  by rewrite sign_neg_neg.
Qed.

Lemma full_flip_twice_witness :
  ∃ out1 out2,
    flip_layer [5 # 2; -3; 0]%Q [2; 0; 1] = Ok out1
    ∧ flip_layer (new_w out1) [2; 0; 1] = Ok out2
    ∧ signs (new_w out2) = signs [5 # 2; -3; 0]%Q.
Proof.
  apply (full_flip_twice [5 # 2; -3; 0]%Q [2; 0; 1]).
  cbn. rewrite (Permutation_swap 0 2 [1]). apply perm_skip, Permutation_swap.
Defined.

(** C9, as stated, fails: the sign recorded for a zero scale entry is 0,
    not +1. *)
Lemma zero_scale_sign_is_not_positive :
  ¬ (∀ (w : list Q) (i : nat) (x : Q),
       w !! i = Some x → (x == 0)%Q →
       ∃ s, signs w !! i = Some s ∧ (s == 1)%Q).
Proof.
  intros H.
  destruct (H [0%Q] 0%nat 0%Q eq_refl (Qeq_refl 0)) as (s & Hs & Heq).
  cbn in Hs. injection Hs as <-. discriminate Heq.
Qed.

(** C9 (amended): a scale entry that is exactly zero has sign 0 in the
    recorded pattern, stays 0 through the flip whether its channel is
    selected or not, and counts as an unchanged channel in the
    similarity. *)
Theorem zero_scale_sign_is_zero (w : list Q) (idxs : list Z) (i : nat) (x : Q) :
  Forall (λ idx, 0 ≤ idx) idxs →
  w !! i = Some x → (x == 0)%Q →
  ∃ out, flip_layer w idxs = Ok out
    ∧ signs w !! i = Some 0%Q
    ∧ new_w out !! i = Some 0%Q
    ∧ signs (new_w out) !! i = Some 0%Q
    ∧ eq_mask (signs (new_w out)) (signs w) !! i = Some true.
Proof.
  intros Hnn Hx H0. eexists. split; [by apply flip_layer_nonneg|]. cbn [new_w].
  assert (Hs : signs w !! i = Some 0%Q).
  { unfold signs. by rewrite list_lookup_fmap, Hx, <- (sign_zero x H0). }
  assert (Hf : flipped w idxs !! i = Some 0%Q).
  { rewrite lookup_flipped, Hx. cbn. rewrite (sign_zero x H0).
    by destruct (bool_decide _). }
  assert (Hsf : signs (flipped w idxs) !! i = Some 0%Q).
  { unfold signs. by rewrite list_lookup_fmap, Hf. }
  repeat split; try done.
  unfold eq_mask. by rewrite lookup_zip_with, Hsf, Hs.
Qed.

Lemma zero_scale_sign_is_zero_witness :
  ∃ out, flip_layer [3; 0 # 7; -2]%Q [1; 4] = Ok out
    ∧ signs [3; 0 # 7; -2]%Q !! 1%nat = Some 0%Q
    ∧ new_w out !! 1%nat = Some 0%Q
    ∧ signs (new_w out) !! 1%nat = Some 0%Q
    ∧ eq_mask (signs (new_w out)) (signs [3; 0 # 7; -2]%Q) !! 1%nat = Some true.
Proof.
  apply (zero_scale_sign_is_zero [3; 0 # 7; -2]%Q [1; 4] 1%nat (0 # 7)%Q).
  - repeat constructor; lia.
  - reflexivity.
  - reflexivity.
Defined.

End FlipTheorems.

(** ** The partition of the index pool over the layers *)

Section Partition.
Import Tensor Flip Spec.

Lemma rest_cons (c : nat) (g : Z) (idxs : list Z) :
  rest c (g :: idxs)
  = if decide (Z.of_nat c ≤ g) then (g - Z.of_nat c) :: rest c idxs else rest c idxs.
Proof.
  unfold rest. rewrite filter_cons.
  destruct (decide (Z.of_nat c ≤ g)); case_decide; try lia; done.
Qed.

Lemma rest_rest (c1 c2 : nat) (idxs : list Z) :
  rest c2 (rest c1 idxs) = rest (c1 + c2) idxs.
Proof.
  induction idxs as [|g idxs IH]; [done|].
  rewrite !rest_cons.
  destruct (decide (Z.of_nat c1 ≤ g)) as [H1|H1].
  - rewrite rest_cons.
    destruct (decide (Z.of_nat c2 ≤ g - Z.of_nat c1));
      destruct (decide (Z.of_nat (c1 + c2) ≤ g)); try lia; rewrite IH; [|done].
    f_equal. lia.
  - destruct (decide (Z.of_nat (c1 + c2) ≤ g)); [lia|done].
Qed.

Lemma rest_0 (idxs : list Z) :
  Forall (λ idx, 0 ≤ idx) idxs → rest 0 idxs = idxs.
Proof.
  unfold rest. induction 1 as [|g idxs Hg _ IH]; [done|].
  rewrite filter_cons. case_decide; [|lia]. cbn. rewrite IH. f_equal. lia.
Qed.

Lemma length_below_rest (c : nat) (idxs : list Z) :
  (length (below c idxs) + length (rest c idxs) = length idxs)%nat.
Proof.
  unfold below, rest. rewrite length_fmap.
  induction idxs as [|g idxs IH]; [done|].
  rewrite !filter_cons. repeat case_decide; cbn; lia.
Qed.

Lemma NoDup_below (c : nat) (idxs : list Z) : NoDup idxs → NoDup (below c idxs).
Proof. apply NoDup_filter. Qed.

Lemma NoDup_rest (c : nat) (idxs : list Z) : NoDup idxs → NoDup (rest c idxs).
Proof.
  intros H. unfold rest. apply NoDup_fmap_2; [|by apply NoDup_filter].
  intros x y. lia.
Qed.

Lemma length_consume (sizes : list nat) (idxs : list Z) :
  length (consume sizes idxs).1 = length sizes.
Proof.
  revert idxs. induction sizes as [|c cs IH]; intros idxs; cbn; [done|].
  by rewrite IH.
Qed.

Lemma consume_left (sizes : list nat) (idxs : list Z) :
  Forall (λ idx, 0 ≤ idx) idxs →
  (consume sizes idxs).2 = rest (sum_list sizes) idxs.
Proof.
  revert idxs. induction sizes as [|c cs IH]; intros idxs Hnn; cbn.
  - by rewrite rest_0.
  - rewrite IH by apply rest_nonneg. apply rest_rest.
Qed.

Lemma consume_count (sizes : list nat) (idxs : list Z) :
  (sum_list (length <$> (consume sizes idxs).1) + length (consume sizes idxs).2
   = length idxs)%nat.
Proof.
  revert idxs. induction sizes as [|c cs IH]; intros idxs; cbn; [done|].
  pose proof (IH (rest c idxs)). pose proof (length_below_rest c idxs). lia.
Qed.

Lemma consume_NoDup (sizes : list nat) (idxs : list Z) :
  NoDup idxs → Forall NoDup (consume sizes idxs).1.
Proof.
  revert idxs. induction sizes as [|c cs IH]; intros idxs Hnd; cbn.
  - constructor.
  - constructor; [by apply NoDup_below|]. by apply IH, NoDup_rest.
Qed.

(** The local indices of layer [l] are the indices of the pool that lie
    in the range of the layer, counted from its first global index. *)
Lemma consume_elem_of (sizes : list nat) (idxs : list Z) (l c : nat)
    (loc : list Z) (j : Z) :
  Forall (λ idx, 0 ≤ idx) idxs →
  (consume sizes idxs).1 !! l = Some loc → sizes !! l = Some c →
  j ∈ loc ↔ (0 ≤ j < Z.of_nat c ∧ offset sizes l + j ∈ idxs).
Proof.
  revert idxs l. induction sizes as [|c0 cs IH]; intros idxs l Hnn Hloc Hc;
    [done|].
  destruct l as [|l]; cbn in Hloc, Hc.
  - injection Hloc as <-. injection Hc as ->.
    unfold offset. cbn. rewrite elem_of_below. rewrite Forall_forall in Hnn.
    split.
    + intros [Hin Hlt]. pose proof (Hnn _ Hin). by repeat split; try lia.
    + intros [[? ?] Hin]. by split.
  - rewrite (IH (rest c0 idxs) l (rest_nonneg _ _) Hloc Hc).
    rewrite elem_of_rest. unfold offset. cbn.
    replace (Z.of_nat (c0 + sum_list (take l cs)) + j)
      with (Z.of_nat (sum_list (take l cs)) + j + Z.of_nat c0) by lia.
    split; [intros (? & ? & ?)|intros (? & ?)]; repeat split; try done; lia.
Qed.

Lemma offset_S (sizes : list nat) (l c : nat) :
  sizes !! l = Some c → offset sizes (S l) = offset sizes l + Z.of_nat c.
Proof.
  intros H. unfold offset. rewrite (take_S_r _ _ _ H), sum_list_with_app. cbn. lia.
Qed.

Lemma offset_mono (sizes : list nat) (l l' c : nat) :
  sizes !! l = Some c → (l < l')%nat →
  offset sizes l + Z.of_nat c ≤ offset sizes l'.
Proof.
  intros Hc Hlt. induction Hlt as [|l' Hlt IH].
  - by rewrite (offset_S _ _ _ Hc).
  - etrans; [exact IH|]. unfold offset.
    destruct (sizes !! l') as [c'|] eqn:Hc'.
    + rewrite (take_S_r _ _ _ Hc'), sum_list_with_app. lia.
    + apply lookup_ge_None in Hc'. rewrite !take_ge by lia. lia.
Qed.

Lemma offset_total (sizes : list nat) (l c : nat) :
  sizes !! l = Some c →
  offset sizes l + Z.of_nat c ≤ Z.of_nat (sum_list sizes).
Proof.
  intros Hc. rewrite <- (offset_S _ _ _ Hc). unfold offset.
  rewrite <- (take_drop (S l) sizes) at 2. rewrite sum_list_with_app. lia.
Qed.

(** Every index of the pool below the total lies in the range of a layer. *)
Lemma offset_find (sizes : list nat) (g : Z) :
  0 ≤ g < Z.of_nat (sum_list sizes) →
  ∃ l c, sizes !! l = Some c ∧ offset sizes l ≤ g < offset sizes l + Z.of_nat c.
Proof.
  induction sizes as [|c cs IH] using rev_ind; [cbn; lia|].
  rewrite sum_list_with_app. cbn. intros Hg.
  destruct (decide (g < Z.of_nat (sum_list cs))) as [Hlt|Hge].
  - destruct IH as (l & c' & Hl & Hr); [lia|].
    exists l, c'. split; [by apply lookup_app_l_Some|].
    unfold offset in *. pose proof (lookup_lt_Some _ _ _ Hl).
    by rewrite take_app_le by lia.
  - exists (length cs), c. split.
    + rewrite lookup_app_r by lia. by rewrite Nat.sub_diag.
    + unfold offset. rewrite take_app_length. lia.
Qed.

End Partition.

(** ** The flip loop over the model *)

Section FlipLoop.
Import Tensor Flip Attack Spec.

(** Loop invariants: [I done s] holds of the state after the elements
    [done] have been processed. *)
Lemma for_each_inv {A S : Type} (body : S → A → result S)
    (I : list A → S → Prop) (xs : list A) (s : S) :
  I [] s →
  (∀ done x todo s, xs = done ++ x :: todo → I done s →
     ∃ s', body s x = Ok s' ∧ I (done ++ [x]) s') →
  ∃ s', for_each body xs s = Ok s' ∧ I xs s'.
Proof.
  intros H0 Hstep.
  assert (Hgen : ∀ todo done s, xs = done ++ todo → I done s →
            ∃ s', for_each body todo s = Ok s' ∧ I xs s').
  { induction todo as [|x todo IH]; intros done s0 Hxs Hi.
    - exists s0. split; [done|]. by rewrite Hxs, app_nil_r.
    - destruct (Hstep done x todo s0 Hxs Hi) as (s1 & Hb & Hi1).
      cbn. rewrite Hb. cbn. apply (IH (done ++ [x])); [|done].
      by rewrite <- app_assoc. }
  by apply (Hgen xs []).
Qed.

Lemma consume_snoc (sizes : list nat) (c : nat) (idxs : list Z) :
  consume (sizes ++ [c]) idxs
  = ((consume sizes idxs).1 ++ [below c (consume sizes idxs).2],
     rest c (consume sizes idxs).2).
Proof.
  revert idxs. induction sizes as [|c0 cs IH]; intros idxs; cbn; [done|].
  by rewrite IH.
Qed.

Lemma consume_nonneg (sizes : list nat) (idxs : list Z) :
  Forall (λ idx, 0 ≤ idx) idxs → Forall (λ idx, 0 ≤ idx) (consume sizes idxs).2.
Proof.
  revert idxs. induction sizes as [|c cs IH]; intros idxs H; cbn; [done|].
  apply IH, rest_nonneg.
Qed.

Lemma flip_body_nonneg (st : loop_state) (w : pkey) (p : Param) :
  st_model st !! w = Some p →
  Forall (λ idx, 0 ≤ idx) (st_idxs st) →
  flip_body st w
  = Ok {| st_model := <[w := set_data p (flipped (data p) (st_idxs st))]> (st_model st);
          st_idxs := rest (length (data p)) (st_idxs st);
          st_sim := scalar_add (st_sim st)
                      (mean_mask (eq_mask (signs (flipped (data p) (st_idxs st)))
                                    (signs (data p))));
          st_log := st_log st ++ [below (length (data p)) (st_idxs st)] |}.
Proof.
  intros Hp Hnn. unfold flip_body, param. rewrite Hp. cbn.
  by rewrite flip_layer_nonneg.
Qed.

Lemma reshaped_size_of (touched : pkey → Prop) (m0 m : Model) (k : pkey) :
  reshaped touched m0 m → size_of m k = size_of m0 k.
Proof.
  intros H. specialize (H k). unfold size_of.
  destruct (m0 !! k), (m !! k); try done.
  by destruct H as [(d & -> & ?) _].
Qed.

Lemma reshaped_lookup (touched : pkey → Prop) (m0 m : Model) (k : pkey) :
  reshaped touched m0 m → ¬ touched k → m !! k = m0 !! k.
Proof.
  intros H Hk. specialize (H k).
  destruct (m0 !! k), (m !! k); try done.
  destruct H as [_ H]. by rewrite (H Hk).
Qed.

(** The loop over a pool of non-negative indices returns; it hands each
    layer its share of the pool as [consume] describes, and changes the
    data of the referenced weights only. *)
Lemma flip_loop_run (ws : list pkey) (m : Model) (idxs : list Z) :
  Forall (λ w, is_Some (m !! w)) ws →
  Forall (λ idx, 0 ≤ idx) idxs →
  ∃ st, flip_loop ws m idxs = Ok st
    ∧ st_log st = (consume (size_of m <$> ws) idxs).1
    ∧ st_idxs st = (consume (size_of m <$> ws) idxs).2
    ∧ reshaped (λ k, k ∈ ws) m (st_model st).
Proof.
  intros Hws Hnn. unfold flip_loop.
  apply (for_each_inv flip_body
    (λ done st, st_log st = (consume (size_of m <$> done) idxs).1
                ∧ st_idxs st = (consume (size_of m <$> done) idxs).2
                ∧ reshaped (λ k, k ∈ done) m (st_model st))).
  - cbn. repeat split; try done. intros k. destruct (m !! k) as [p|]; [|done].
    split; [|done]. exists (data p). by destruct p.
  - intros done x todo st Hxs (Hlog & Hidx & Hre).
    assert (is_Some (m !! x)) as [p0 Hp0].
    { rewrite Forall_forall in Hws. apply Hws. rewrite Hxs.
      apply elem_of_app. right. left. }
    pose proof (Hre x) as Hx. rewrite Hp0 in Hx.
    destruct (st_model st !! x) as [p|] eqn:Hp; [|done].
    destruct Hx as [(d & Hpd & Hd) _].
    assert (Hsz : length (data p) = size_of m x).
    { unfold size_of. rewrite Hp0, Hpd. done. }
    eexists. split.
    { apply flip_body_nonneg; [done|]. rewrite Hidx. by apply consume_nonneg. }
    cbn [st_log st_idxs st_model]. rewrite fmap_app. cbn [fmap list_fmap].
    rewrite consume_snoc. cbn [fst snd]. rewrite Hsz, Hlog, Hidx.
    repeat split; try done.
    intros k. destruct (decide (k = x)) as [->|Hne].
    + rewrite Hp0, lookup_insert_eq. split.
      * eexists. split; [by rewrite Hpd at 1|]. rewrite length_flipped. by subst p.
      * intros Hn. exfalso. apply Hn. apply elem_of_app. right. left.
    + rewrite lookup_insert_ne by done. specialize (Hre k).
      destruct (m !! k), (st_model st !! k); try done.
      destruct Hre as [? Hun]. split; [done|].
      intros Hn. apply Hun. intros Hk. apply Hn, elem_of_app. by left.
Qed.

End FlipLoop.

(** ** Rounding to the nearest double *)

Section FloatFacts.
Import Float.

Lemma rne_floor (x : Q) : Qfloor x ≤ rne x ≤ Qfloor x + 1.
Proof.
  unfold rne. destruct (x - inject_Z (Qfloor x) ?= 1 # 2)%Q; [|lia..].
  destruct (Z.even (Qfloor x)); lia.
Qed.

(** Rounding to the nearest integer does not cross an integer. *)
Lemma rne_ge (n : Z) (x : Q) : (inject_Z n <= x)%Q → n ≤ rne x.
Proof.
  intros H. apply Qfloor_resp_le in H. rewrite Qfloor_Z in H.
  pose proof (rne_floor x). lia.
Qed.

Lemma rne_le (n : Z) (x : Q) : (x <= inject_Z n)%Q → rne x ≤ n.
Proof.
  intros H. pose proof (Qfloor_resp_le _ _ H) as Hf. rewrite Qfloor_Z in Hf.
  destruct (decide (Qfloor x = n)) as [Heq|Hne].
  - unfold rne. rewrite Heq.
    assert (Hlt : (x - inject_Z n < 1 # 2)%Q).
    { apply Qle_lt_trans with 0%Q; [|done].
      apply (Qplus_le_l _ _ (inject_Z n)). ring_simplify. done. }
    destruct (Qcompare_spec (x - inject_Z n) (1 # 2)) as [He|_|Hgt]; [|lia|].
    + rewrite He in Hlt. by apply Qlt_irrefl in Hlt.
    + exfalso. apply (Qlt_irrefl (1 # 2)). by eapply Qlt_trans.
  - pose proof (rne_floor x). lia.
Qed.

Lemma pow2_pos (e : Z) : (0 < 2 ^ e)%Q.
Proof. by apply Qpower_0_lt. Qed.

Lemma pow2_inject (e : Z) : 0 ≤ e → (2 ^ e == inject_Z (2 ^ e))%Q.
Proof. intros H. by rewrite Zpower_Qpower. Qed.

Lemma pow2_cancel (e : Z) : (2 ^ (- e) * 2 ^ e == 1)%Q.
Proof.
  rewrite <- Qpower_plus by done. by replace (- e + e) with 0 by lia.
Qed.

Lemma Qdiv_le_cross (p q r s : Z) :
  0 < q → 0 < s → p * s ≤ r * q →
  (inject_Z p / inject_Z q <= inject_Z r / inject_Z s)%Q.
Proof.
  intros Hq Hs H. destruct q as [|q|q]; [lia| |lia]. destruct s as [|s|s]; [lia| |lia].
  unfold Qle, Qdiv, Qinv, Qmult, inject_Z. cbn. lia.
Qed.

Lemma Qdiv_lt_cross (p q r s : Z) :
  0 < q → 0 < s → p * s < r * q →
  (inject_Z p / inject_Z q < inject_Z r / inject_Z s)%Q.
Proof.
  intros Hq Hs H. destruct q as [|q|q]; [lia| |lia]. destruct s as [|s|s]; [lia| |lia].
  unfold Qlt, Qdiv, Qinv, Qmult, inject_Z. cbn. lia.
Qed.

(** [ilog2 x] is the integer part of the binary logarithm. *)
Lemma ilog2_spec (x : Q) :
  (0 < x)%Q → (2 ^ ilog2 x <= x)%Q ∧ (x < 2 ^ (ilog2 x + 1))%Q.
Proof.
  intros Hx. unfold ilog2.
  destruct x as [n d]. cbn [Qnum Qden].
  assert (Hn : 0 < n) by (unfold Qlt in Hx; cbn in Hx; lia).
  pose proof (Z.log2_spec n Hn) as [Hn1 Hn2].
  pose proof (Z.log2_spec (Z.pos d) eq_refl) as [Hd1 Hd2].
  pose proof (Z.log2_nonneg n) as Ha. pose proof (Z.log2_nonneg (Z.pos d)) as Hb.
  set (a := Z.log2 n) in *. set (b := Z.log2 (Z.pos d)) in *.
  assert (Hq : (n # d == inject_Z n / inject_Z (Z.pos d))%Q) by apply Qmake_Qdiv.
  assert (Hpa : 0 < 2 ^ a) by (apply Z.pow_pos_nonneg; lia).
  assert (Hpb : 0 < 2 ^ b) by (apply Z.pow_pos_nonneg; lia).
  assert (Hsa : 2 ^ (a + 1) = 2 * 2 ^ a) by (rewrite Z.pow_add_r; lia).
  assert (Hsb : 2 ^ (b + 1) = 2 * 2 ^ b) by (rewrite Z.pow_add_r; lia).
  destruct (Qle_bool (2 ^ (a - b)) (n # d)) eqn:Hle.
  - apply Qle_bool_iff in Hle. split; [done|].
    replace (a - b + 1) with (a + 1 - b) by lia.
    rewrite Qpower_minus, !pow2_inject, Hq by (done || lia).
    apply Qdiv_lt_cross; [lia..|nia].
  - assert (Hlt : (n # d < 2 ^ (a - b))%Q).
    { apply Qnot_le_lt. intros H. apply Qle_bool_iff in H. congruence. }
    split; [|by replace (a - b - 1 + 1) with (a - b) by lia].
    replace (a - b - 1) with (a - (b + 1)) by lia.
    rewrite Qpower_minus, !pow2_inject, Hq by (done || lia).
    apply Qdiv_le_cross; [lia..|nia].
Qed.

Lemma round_nonneg (x : Q) : (0 <= x)%Q → (0 <= round x)%Q.
Proof.
  intros Hx. unfold round. destruct (Qeq_bool x 0); [done|].
  apply Qmult_le_0_compat; [|apply Qlt_le_weak, pow2_pos].
  change 0%Q with (inject_Z 0). rewrite <- Zle_Qle. apply rne_ge.
  apply Qmult_le_0_compat; [done|apply Qlt_le_weak, pow2_pos].
Qed.

Lemma round_nonpos (x : Q) : (x <= 0)%Q → (round x <= 0)%Q.
Proof.
  intros Hx. unfold round. destruct (Qeq_bool x 0); [done|].
  set (e := cexp x).
  assert (Hr : rne (x * 2 ^ (- e)) ≤ 0).
  { apply rne_le. apply Qle_trans with (0 * 2 ^ (- e))%Q; [|rewrite Qmult_0_l; apply Qle_refl].
    apply Qmult_le_compat_r; [done|apply Qlt_le_weak, pow2_pos]. }
  rewrite Zle_Qle in Hr.
  apply Qle_trans with (inject_Z 0 * 2 ^ e)%Q; [|rewrite Qmult_0_l; apply Qle_refl].
  apply Qmult_le_compat_r; [done|apply Qlt_le_weak, pow2_pos].
Qed.

Lemma Qabs_of_pos (x : Q) : (0 < x)%Q → Qabs x = x.
Proof.
  destruct x as [n d]. unfold Qlt. cbn. intros H. f_equal. lia.
Qed.

Lemma scale_int (n e : Z) :
  e ≤ 0 → (inject_Z n * 2 ^ (- e) == inject_Z (n * 2 ^ (- e)))%Q.
Proof. intros He. by rewrite inject_Z_mult, <- pow2_inject by lia. Qed.

Lemma unscale_int (n e : Z) :
  e ≤ 0 → (inject_Z (n * 2 ^ (- e)) * 2 ^ e == inject_Z n)%Q.
Proof.
  intros He. rewrite <- scale_int, <- Qmult_assoc, pow2_cancel by done. ring.
Qed.

(** A number with a positive exponent of the last place is at least
    [2 ^ 53]. *)
Lemma cexp_pos (x : Q) :
  (0 < x)%Q → 0 < cexp x → (2 ^ (52 + cexp x) <= x)%Q.
Proof.
  intros Hx He. unfold cexp, prec, emin in *. rewrite Qabs_of_pos in * by done.
  destruct (ilog2_spec x Hx) as [Hlo _].
  by replace (52 + Z.max (ilog2 x - (53 - 1)) (-1074)) with (ilog2 x) by lia.
Qed.

(** Rounding to the nearest double does not cross an integer of at most
    53 bits: such an integer is a double. *)
Lemma round_ge_int (n : Z) (x : Q) :
  0 ≤ n ≤ 2 ^ 53 → (inject_Z n <= x)%Q → (inject_Z n <= round x)%Q.
Proof.
  intros Hn Hx. unfold round. destruct (Qeq_bool x 0) eqn:E.
  { apply Qeq_bool_iff in E. by rewrite <- E. }
  assert (Hpos : (0 < x)%Q).
  { apply Qeq_bool_neq in E. apply Qle_lteq in Hx as [Hx|Hx].
    - apply Qle_lt_trans with (inject_Z n); [|done].
      change 0%Q with (inject_Z 0). rewrite <- Zle_Qle. lia.
    - apply Qnot_le_lt. intros Hle. apply E. apply Qle_antisym; [done|].
      rewrite <- Hx. change 0%Q with (inject_Z 0). rewrite <- Zle_Qle. lia. }
  set (e := cexp x). destruct (decide (e ≤ 0)) as [He|He].
  - rewrite <- (unscale_int n e He).
    apply Qmult_le_compat_r; [|apply Qlt_le_weak, pow2_pos].
    rewrite <- Zle_Qle. apply rne_ge. rewrite <- scale_int by done.
    apply Qmult_le_compat_r; [done|apply Qlt_le_weak, pow2_pos].
  - pose proof (cexp_pos x Hpos ltac:(fold e; lia)) as Hlo. fold e in Hlo.
    assert (Hm : 2 ^ 52 ≤ rne (x * 2 ^ (- e))).
    { apply rne_ge. rewrite <- pow2_inject by lia.
      apply Qle_trans with (2 ^ (52 + e) * 2 ^ (- e))%Q.
      - rewrite <- Qpower_plus by done.
        replace (52 + e + - e) with 52 by lia. apply Qle_refl.
      - apply Qmult_le_compat_r; [done|apply Qlt_le_weak, pow2_pos]. }
    rewrite Zle_Qle in Hm.
    apply Qle_trans with (inject_Z (2 ^ 52) * 2 ^ 1)%Q.
    + change (inject_Z (2 ^ 52) * 2 ^ 1)%Q with (inject_Z (2 ^ 53)).
      rewrite <- Zle_Qle. lia.
    + apply Qle_trans with (inject_Z (2 ^ 52) * 2 ^ e)%Q.
      * apply Qmult_le_l; [done|]. apply Qpower_le_compat_l; [lia|done].
      * apply Qmult_le_compat_r; [done|apply Qlt_le_weak, pow2_pos].
Qed.

Lemma round_le_int (n : Z) (x : Q) :
  0 ≤ n ≤ 2 ^ 53 → (0 <= x)%Q → (x <= inject_Z n)%Q → (round x <= inject_Z n)%Q.
Proof.
  intros Hn H0 Hx. unfold round. destruct (Qeq_bool x 0) eqn:E.
  { change 0%Q with (inject_Z 0). rewrite <- Zle_Qle. lia. }
  assert (Hpos : (0 < x)%Q).
  { apply Qeq_bool_neq in E. apply Qnot_le_lt. intros Hle. apply E.
    by apply Qle_antisym. }
  set (e := cexp x). destruct (decide (e ≤ 0)) as [He|He].
  - rewrite <- (unscale_int n e He).
    apply Qmult_le_compat_r; [|apply Qlt_le_weak, pow2_pos].
    rewrite <- Zle_Qle. apply rne_le. rewrite <- scale_int by done.
    apply Qmult_le_compat_r; [done|apply Qlt_le_weak, pow2_pos].
  - pose proof (cexp_pos x Hpos ltac:(fold e; lia)) as Hlo. fold e in Hlo.
    assert (Hn53 : (inject_Z n <= 2 ^ 53)%Q).
    { rewrite pow2_inject by lia. rewrite <- Zle_Qle. lia. }
    assert (He1 : e = 1).
    { assert (52 + e ≤ 53); [|lia].
      apply (Qpower_le_compat_l_inv 2); [|done].
      eapply Qle_trans; [exact Hlo|]. by eapply Qle_trans. }
    rewrite He1 in *.
    assert (n = 2 ^ 53) as ->.
    { assert (2 ^ 53 ≤ n); [|lia]. rewrite Zle_Qle.
      rewrite <- pow2_inject by lia. by eapply Qle_trans. }
    assert (Hm : rne (x * 2 ^ (- (1))) ≤ 2 ^ 52).
    { apply rne_le.
      apply Qle_trans with (inject_Z (2 ^ 53) * 2 ^ (- (1)))%Q; [|done].
      apply Qmult_le_compat_r; [done|apply Qlt_le_weak, pow2_pos]. }
    rewrite Zle_Qle in Hm.
    apply Qle_trans with (inject_Z (2 ^ 52) * 2 ^ 1)%Q; [|done].
    apply Qmult_le_compat_r; [done|apply Qlt_le_weak, pow2_pos].
Qed.

(** An integer of at most 53 bits is a double. *)
Lemma round_int (n : Z) : 0 ≤ n ≤ 2 ^ 53 → (of_int n == inject_Z n)%Q.
Proof.
  intros Hn. unfold of_int. apply Qle_antisym.
  - apply round_le_int; [done| |apply Qle_refl].
    change 0%Q with (inject_Z 0). rewrite <- Zle_Qle. lia.
  - apply round_ge_int; [done|apply Qle_refl].
Qed.

End FloatFacts.

(** ** The index selection *)

Section Select.
Import Tensor Flip Attack Spec.

Lemma py_int_floor (x : Q) : (0 <= x)%Q → py_int x = Qfloor x.
Proof.
  destruct x as [n d]. unfold Qle, py_int. cbn. intros H.
  apply Z.quot_div_nonneg; lia.
Qed.

Lemma scaled_fraction_nonneg (total : nat) (f : Q) :
  (0 <= f)%Q → (0 <= inject_Z (Z.of_nat total) * f)%Q.
Proof.
  destruct f as [n d]. unfold Qle. cbn. intros H. nia.
Qed.

Lemma floor_scaled_fraction (total : nat) (f : Q) :
  (0 <= f <= 1)%Q →
  0 ≤ Qfloor (inject_Z (Z.of_nat total) * f) ≤ Z.of_nat total.
Proof.
  destruct f as [n d]. unfold Qle. cbn. intros [H0 H1]. split.
  - apply Z.div_pos; nia.
  - apply Z.div_le_upper_bound; nia.
Qed.

Lemma randperm_length (n : nat) (randidxs : list Z) :
  randperm n randidxs → length randidxs = n.
Proof.
  unfold randperm. intros H. by rewrite H, length_fmap, length_seq.
Qed.

Lemma randperm_NoDup (n : nat) (randidxs : list Z) :
  randperm n randidxs → NoDup randidxs.
Proof.
  unfold randperm. intros H. rewrite H.
  apply NoDup_fmap_2; [intros x y; lia|]. apply NoDup_seq.
Qed.

Lemma randperm_range (n : nat) (randidxs : list Z) :
  randperm n randidxs → Forall (λ g, 0 ≤ g < Z.of_nat n) randidxs.
Proof.
  unfold randperm. intros H. rewrite Forall_forall. intros g Hg.
  rewrite H in Hg. apply list_elem_of_fmap in Hg as (i & -> & Hi).
  apply elem_of_seq in Hi. lia.
Qed.

Lemma round_unit (f : Q) :
  (0 <= f <= 1)%Q → (0 <= Float.round f <= 1)%Q.
Proof.
  intros [H0 H1]. split; [by apply round_nonneg|].
  by apply (round_le_int 1).
Qed.

Lemma flip_product_nonneg (total : nat) (f : Q) :
  (0 <= f)%Q → (0 <= flip_product total f)%Q.
Proof.
  intros Hf. unfold flip_product, Float.mul, Float.of_int.
  apply round_nonneg, Qmult_le_0_compat; apply round_nonneg; [|done].
  change 0%Q with (inject_Z 0). rewrite <- Zle_Qle. lia.
Qed.

Lemma flip_product_nonpos (total : nat) (f : Q) :
  (f <= 0)%Q → (flip_product total f <= 0)%Q.
Proof.
  intros Hf. unfold flip_product, Float.mul, Float.of_int.
  apply round_nonpos.
  assert (Ht : (0 <= Float.round (inject_Z (Z.of_nat total)))%Q).
  { apply round_nonneg. change 0%Q with (inject_Z 0). rewrite <- Zle_Qle. lia. }
  pose proof (round_nonpos f Hf) as Hr.
  rewrite Qmult_comm.
  apply Qle_trans with (0 * Float.round (inject_Z (Z.of_nat total)))%Q;
    [|rewrite Qmult_0_l; apply Qle_refl].
  by apply Qmult_le_compat_r.
Qed.

(** For a fraction between 0 and 1 the rounded product lies between 0
    and the channel count. *)
Lemma flip_product_range (total : nat) (f : Q) :
  Z.of_nat total ≤ 2 ^ 53 → (0 <= f <= 1)%Q →
  (0 <= flip_product total f <= inject_Z (Z.of_nat total))%Q.
Proof.
  intros Ht Hf. split; [by apply flip_product_nonneg, Hf|].
  destruct (round_unit f Hf) as [Hr0 Hr1].
  pose proof (round_int (Z.of_nat total) ltac:(lia)) as Hint.
  unfold flip_product, Float.mul. apply round_le_int; [lia| |].
  - apply Qmult_le_0_compat; [|done]. rewrite Hint.
    change 0%Q with (inject_Z 0). rewrite <- Zle_Qle. lia.
  - rewrite Hint.
    apply Qle_trans with (inject_Z (Z.of_nat total) * 1)%Q;
      [|rewrite Qmult_1_r; apply Qle_refl].
    rewrite !(Qmult_comm (inject_Z _)). apply Qmult_le_compat_r; [done|].
    change 0%Q with (inject_Z 0). rewrite <- Zle_Qle. lia.
Qed.

(** For a fraction of 1 or more it is at least the channel count. *)
Lemma flip_product_ge (total : nat) (f : Q) :
  Z.of_nat total ≤ 2 ^ 53 → (1 <= f)%Q →
  (inject_Z (Z.of_nat total) <= flip_product total f)%Q.
Proof.
  intros Ht Hf.
  pose proof (round_ge_int 1 f ltac:(lia) Hf) as Hr1.
  pose proof (round_int (Z.of_nat total) ltac:(lia)) as Hint.
  unfold flip_product, Float.mul. apply round_ge_int; [lia|].
  rewrite Hint.
  apply Qle_trans with (inject_Z (Z.of_nat total) * 1)%Q;
    [rewrite Qmult_1_r; apply Qle_refl|].
  rewrite !(Qmult_comm (inject_Z _)). apply Qmult_le_compat_r; [done|].
  change 0%Q with (inject_Z 0). rewrite <- Zle_Qle. lia.
Qed.

Lemma py_int_flip_product (total : nat) (f : Q) :
  Z.of_nat total ≤ 2 ^ 53 → (0 <= f <= 1)%Q →
  0 ≤ py_int (flip_product total f) ≤ Z.of_nat total.
Proof.
  intros Ht Hf. destruct (flip_product_range total f Ht Hf) as [H0 H1].
  rewrite py_int_floor by done.
  apply Qfloor_resp_le in H0, H1. rewrite Qfloor_Z in H1. by split.
Qed.

Lemma select_take (total : nat) (f : Q) (randidxs : list Z) :
  (0 <= f)%Q →
  select total f randidxs
  = take (Z.to_nat (py_int (flip_product total f))) randidxs.
Proof.
  intros Hf. unfold select, slice_to.
  pose proof (flip_product_nonneg total f Hf) as H0.
  rewrite py_int_floor by done. apply Qfloor_resp_le in H0.
  change (Qfloor 0) with 0 in H0.
  by rewrite bool_decide_eq_false_2 by lia.
Qed.

Lemma length_select (total_size : nat) (fraction : Q) (randidxs : list Z) :
  randperm total_size randidxs →
  (0 <= fraction <= 1)%Q →
  Z.of_nat total_size ≤ 2 ^ 53 →
  Z.of_nat (length (select total_size fraction randidxs))
  = py_int (flip_product total_size fraction).
Proof.
  intros Hp Hf Ht. rewrite select_take by apply Hf.
  pose proof (py_int_flip_product total_size fraction Ht Hf) as Hfl.
  rewrite length_take, (randperm_length _ _ Hp). lia.
Qed.

(** C4, as stated, fails: the selection takes no seed, and two runs with
    the same total size and fraction select different index sets when
    the generator hands out different permutations. *)
Lemma selection_is_not_reproducible :
  ¬ (∀ (total_size : nat) (fraction : Q) (randidxs1 randidxs2 : list Z),
       randperm total_size randidxs1 → randperm total_size randidxs2 →
       ∀ g, g ∈ select total_size fraction randidxs1
          ↔ g ∈ select total_size fraction randidxs2).
Proof.
  intros H.
  assert (Hp1 : randperm 2 [0; 1]) by (unfold randperm; done).
  assert (Hp2 : randperm 2 [1; 0]) by (unfold randperm; cbn; apply Permutation_swap).
  pose proof (proj1 (H 2%nat (1 # 2)%Q [0; 1] [1; 0] Hp1 Hp2 0)) as H0.
  assert (Hin : 0 ∈ select 2 (1 # 2) [0; 1]) by (vm_compute; left).
  specialize (H0 Hin). vm_compute in H0.
  apply list_elem_of_singleton in H0. discriminate H0.
Qed.

(** The size of the selection is the integer part of the product as the
    doubles give it, which is not always that of the exact product: of
    100 channels a fraction of 0.29 selects 28, and of 10 channels a
    fraction of 0.7 selects 7 although the double it is parsed to lies
    below 7/10. *)
Lemma selection_size_rounds (randidxs100 randidxs10 : list Z) :
  randperm 100 randidxs100 → randperm 10 randidxs10 →
  length (select 100 (29 # 100) randidxs100) = 28%nat
  ∧ Qfloor (inject_Z 100 * (29 # 100)) = 29
  ∧ length (select 10 (7 # 10) randidxs10) = 7%nat
  ∧ Qfloor (inject_Z 10 * Float.round (7 # 10)) = 6.
Proof.
  intros H100 H10. apply randperm_length in H100, H10.
  split; [|split; [by vm_compute|split; [|by vm_compute]]].
  - unfold select.
    replace (py_int (flip_product 100 (29 # 100))) with 28 by (by vm_compute).
    unfold slice_to. rewrite bool_decide_eq_false_2, length_take by lia. lia.
  - unfold select.
    replace (py_int (flip_product 10 (7 # 10))) with 7 by (by vm_compute).
    unfold slice_to. rewrite bool_decide_eq_false_2, length_take by lia. lia.
Qed.

(** C4 (amended): the selection is the first [int(total × fraction)]
    entries of the permutation [torch.randperm] hands out, the product
    being the double-precision one; for a fraction in [0, 1] it is a
    subset of [0, total) without repetition, of that size, which is at
    most the total, determined by the total size, the fraction and that
    permutation. *)
Theorem select_prefix_of_permutation (total_size : nat) (fraction : Q)
    (randidxs : list Z) :
  randperm total_size randidxs →
  (0 <= fraction <= 1)%Q →
  Z.of_nat total_size ≤ 2 ^ 53 →
  0 ≤ py_int (flip_product total_size fraction) ≤ Z.of_nat total_size
  ∧ select total_size fraction randidxs
    = take (Z.to_nat (py_int (flip_product total_size fraction))) randidxs
  ∧ Z.of_nat (length (select total_size fraction randidxs))
    = py_int (flip_product total_size fraction)
  ∧ NoDup (select total_size fraction randidxs)
  ∧ Forall (λ g, 0 ≤ g < Z.of_nat total_size) (select total_size fraction randidxs).
Proof.
  intros Hp Hf Ht. split; [by apply py_int_flip_product|].
  split; [by apply select_take, Hf|].
  split; [by apply length_select|].
  rewrite select_take by apply Hf. split.
  - eapply sublist_NoDup; [|apply sublist_take].
    by apply (randperm_NoDup total_size).
  - apply Forall_take. by apply randperm_range.
Qed.

Lemma select_prefix_of_permutation_witness :
  0 ≤ py_int (flip_product 5 (1 # 2)) ≤ Z.of_nat 5
  ∧ select 5 (1 # 2) [3; 0; 4; 1; 2]
    = take (Z.to_nat (py_int (flip_product 5 (1 # 2)))) [3; 0; 4; 1; 2]
  ∧ Z.of_nat (length (select 5 (1 # 2) [3; 0; 4; 1; 2]))
    = py_int (flip_product 5 (1 # 2))
  ∧ NoDup (select 5 (1 # 2) [3; 0; 4; 1; 2])
  ∧ Forall (λ g, 0 ≤ g < Z.of_nat 5) (select 5 (1 # 2) [3; 0; 4; 1; 2]).
Proof.
  apply (select_prefix_of_permutation 5 (1 # 2) [3; 0; 4; 1; 2]).
  - unfold randperm. apply (bool_decide_unpack _). by vm_compute.
  - split; unfold Qle; cbn; lia.
  - by vm_compute.
Defined.

End Select.

(** ** The partition claims *)

Section PartitionTheorems.
Import Tensor Flip Attack Spec.

Lemma rest_empty (c : nat) (idxs : list Z) :
  Forall (λ g, g < Z.of_nat c) idxs ↔ rest c idxs = [].
Proof.
  induction idxs as [|g idxs IH]; [done|].
  rewrite rest_cons, Forall_cons. destruct (decide (Z.of_nat c ≤ g)).
  - split; [lia|done].
  - rewrite <- IH. split; [by intros [_ ?]|]. split; [lia|done].
Qed.

(** C2: over a pool of distinct global indices below the total channel
    count the loop returns; every layer receives distinct local indices
    of its own range, every global index of the pool goes to exactly one
    layer, nothing else is consumed, and the consumed counts add up to
    the size of the pool, which is [floor(total × fraction)] for a pool
    that is the first [floor(total × fraction)] entries of a
    permutation. *)
Theorem consumption_partitions (ws : list pkey) (m : Model) (idxs : list Z) :
  Forall (λ w, is_Some (m !! w)) ws →
  NoDup idxs →
  Forall (λ g, 0 ≤ g < Z.of_nat (sum_list (layer_sizes m ws))) idxs →
  ∃ st, flip_loop ws m idxs = Ok st
    ∧ length (st_log st) = length ws
    ∧ (∀ l loc c, st_log st !! l = Some loc → layer_sizes m ws !! l = Some c →
         NoDup loc ∧ Forall (λ j, 0 ≤ j < Z.of_nat c) loc)
    ∧ (∀ g, g ∈ idxs →
         ∃ l loc, st_log st !! l = Some loc
           ∧ g - offset (layer_sizes m ws) l ∈ loc
           ∧ ∀ l' loc' j', st_log st !! l' = Some loc' → j' ∈ loc' →
               g = offset (layer_sizes m ws) l' + j' → l' = l)
    ∧ (∀ l loc j, st_log st !! l = Some loc → j ∈ loc →
         offset (layer_sizes m ws) l + j ∈ idxs)
    ∧ sum_list (length <$> st_log st) = length idxs
    ∧ (∀ fraction randidxs,
         (0 <= fraction <= 1)%Q →
         randperm (sum_list (layer_sizes m ws)) randidxs →
         idxs = take (Z.to_nat (Qfloor (inject_Z (Z.of_nat (sum_list (layer_sizes m ws)))
                                        * fraction))) randidxs →
         Z.of_nat (sum_list (length <$> st_log st))
         = Qfloor (inject_Z (Z.of_nat (sum_list (layer_sizes m ws))) * fraction)).
Proof.
  intros Hws Hnd Hrange.
  assert (Hnn : Forall (λ idx, 0 ≤ idx) idxs).
  { eapply Forall_impl; [exact Hrange|]. cbn. lia. }
  destruct (flip_loop_run ws m idxs Hws Hnn) as (st & Hrun & Hlog & Hleft & _).
  fold (layer_sizes m ws) in Hlog, Hleft.
  set (sizes := layer_sizes m ws) in *.
  assert (Hlen : length (st_log st) = length sizes)
    by (by rewrite Hlog, length_consume).
  assert (Hsize : ∀ l loc, st_log st !! l = Some loc → ∃ c, sizes !! l = Some c).
  { intros l loc Hl. apply lookup_lt_Some in Hl.
    apply lookup_lt_is_Some. lia. }
  assert (Hchar : ∀ l loc c j, st_log st !! l = Some loc → sizes !! l = Some c →
            j ∈ loc ↔ 0 ≤ j < Z.of_nat c ∧ offset sizes l + j ∈ idxs).
  { intros l loc c j Hl Hc. rewrite Hlog in Hl.
    by apply (consume_elem_of sizes idxs l c loc j). }
  assert (Hcount : sum_list (length <$> st_log st) = length idxs).
  { pose proof (consume_count sizes idxs) as Hc.
    rewrite <- Hlog, <- Hleft in Hc.
    assert (st_idxs st = []) as Hnil.
    { rewrite Hleft, consume_left by done. apply rest_empty.
      eapply Forall_impl; [exact Hrange|]. cbn. lia. }
    rewrite Hnil in Hc. cbn in Hc. lia. }
  exists st. split; [done|].
  split. { rewrite Hlen. unfold sizes, layer_sizes. by rewrite length_fmap. }
  split.
  { intros l loc c Hl Hc. split.
    - pose proof (consume_NoDup sizes idxs Hnd) as Hall.
      rewrite <- Hlog in Hall. rewrite Forall_lookup in Hall. by eapply Hall.
    - rewrite Forall_forall. intros j Hj. by apply (Hchar l loc c j Hl Hc). }
  split.
  { intros g Hg. rewrite Forall_forall in Hrange.
    destruct (offset_find sizes g (Hrange _ Hg)) as (l & c & Hc & Hr).
    assert (is_Some (st_log st !! l)) as [loc Hl].
    { apply lookup_lt_is_Some. apply lookup_lt_Some in Hc. lia. }
    exists l, loc. split; [done|]. split.
    - apply (Hchar l loc c _ Hl Hc). split; [lia|].
      by replace (offset sizes l + (g - offset sizes l)) with g by lia.
    - intros l' loc' j' Hl' Hj' Heq.
      destruct (Hsize _ _ Hl') as [c' Hc'].
      apply (Hchar l' loc' c' j' Hl' Hc') in Hj' as [Hj' _].
      destruct (Nat.lt_trichotomy l l') as [Hlt|[Heq'|Hlt]]; [|done|].
      + pose proof (offset_mono sizes l l' c Hc Hlt). lia.
      + pose proof (offset_mono sizes l' l c' Hc' Hlt). lia. }
  split.
  { intros l loc j Hl Hj. destruct (Hsize _ _ Hl) as [c Hc].
    by apply (Hchar l loc c j Hl Hc). }
  split; [done|].
  intros fraction randidxs Hf Hp Hsel. rewrite Hcount, Hsel.
  pose proof (floor_scaled_fraction (sum_list sizes) fraction Hf) as Hfl.
  rewrite length_take, (randperm_length _ _ Hp). lia.
Qed.

Lemma consumption_partitions_witness :
  ∃ st, flip_loop [bn_weight "0"; bn_weight "2"] Example.model [3; 0] = Ok st
    ∧ length (st_log st) = 2%nat
    ∧ sum_list (length <$> st_log st) = 2%nat.
Proof.
  destruct (consumption_partitions [bn_weight "0"; bn_weight "2"] Example.model [3; 0])
    as (st & Hrun & Hlen & _ & _ & _ & Hcount & _).
  - repeat constructor; by eexists.
  - apply (bool_decide_unpack _). by vm_compute.
  - repeat constructor; vm_compute; congruence.
  - by exists st.
Defined.

(** The loop itself checks nothing: handed a pool with an index beyond
    the total channel count, which [run_attack_2] never does, it returns
    normally with that index left over. *)
Lemma leftover_is_not_fatal :
  ∃ st, flip_loop [bn_weight "0"; bn_weight "2"] Example.model [7; 0] = Ok st
    ∧ st_idxs st = [2]
    ∧ ∃ q, report (st_sim st) 2 = Ok (Num q) ∧ (q == 3 # 4)%Q.
Proof.
  eexists. split; [by vm_compute|]. split; [by vm_compute|].
  eexists. split; [by vm_compute|]. by vm_compute.
Qed.

(** Over a pool of non-negative indices the pool left after the last
    layer holds the indices at or beyond the total channel count, lowered
    by it, and is empty exactly when every index of the pool is below the
    total. *)
Theorem leftover_pool (ws : list pkey) (m : Model) (idxs : list Z) :
  Forall (λ w, is_Some (m !! w)) ws →
  Forall (λ idx, 0 ≤ idx) idxs →
  ∃ st, flip_loop ws m idxs = Ok st
    ∧ st_idxs st = rest (sum_list (layer_sizes m ws)) idxs
    ∧ (st_idxs st = []
       ↔ Forall (λ g, g < Z.of_nat (sum_list (layer_sizes m ws))) idxs).
Proof.
  intros Hws Hnn.
  destruct (flip_loop_run ws m idxs Hws Hnn) as (st & Hrun & _ & Hleft & _).
  exists st. split; [done|].
  rewrite Hleft, consume_left by done. split; [done|].
  symmetry. apply rest_empty.
Qed.

Lemma leftover_pool_witness :
  ∃ st, flip_loop [bn_weight "0"; bn_weight "2"] Example.model [3; 0; 9] = Ok st
    ∧ st_idxs st = rest 5 [3; 0; 9].
Proof.
  destruct (leftover_pool [bn_weight "0"; bn_weight "2"] Example.model [3; 0; 9])
    as (st & Hrun & Hleft & _).
  - repeat constructor; by eexists.
  - repeat constructor; lia.
  - by exists st.
Defined.

End PartitionTheorems.

(** ** The set-up loops of [run_attack_2] *)

Section Setup.
Import Tensor Flip Attack Spec.

Lemma bn_weight_ne_bias (f g : string) : bn_weight f ≠ bn_bias g.
Proof. unfold bn_weight, bn_bias. intros [= _ H]. Qed.

Lemma affine_of_snoc (done : list string) (f : string) (k : pkey) :
  k ≠ bn_weight f → k ≠ bn_bias f →
  affine_of (done ++ [f]) k ↔ affine_of done k.
Proof.
  destruct k as [g a]. unfold affine_of, bn_weight, bn_bias. cbn.
  intros Hw Hb. rewrite elem_of_app, list_elem_of_singleton.
  split; [|tauto]. intros [[Hd| ->] Ha]; [tauto|].
  destruct Ha as [-> | ->]; done.
Qed.

Lemma bias_of_snoc (done : list string) (f : string) (k : pkey) :
  k ≠ bn_bias f → bias_of (done ++ [f]) k ↔ bias_of done k.
Proof.
  destruct k as [g a]. unfold bias_of, bn_bias. cbn.
  intros Hb. rewrite elem_of_app, list_elem_of_singleton.
  split; [|tauto]. intros [[Hd| ->] ->]; [tauto|done].
Qed.

Lemma affine_of_weight (done : list string) (f : string) :
  affine_of (done ++ [f]) (bn_weight f).
Proof. split; [apply elem_of_app; right; left|by left]. Qed.

Lemma affine_of_bias (done : list string) (f : string) :
  affine_of (done ++ [f]) (bn_bias f).
Proof. split; [apply elem_of_app; right; left|by right]. Qed.

Lemma bias_of_bias (done : list string) (f : string) :
  bias_of (done ++ [f]) (bn_bias f).
Proof. split; [apply elem_of_app; right; left|done]. Qed.

Lemma not_bias_of_weight (done : list string) (f : string) :
  ¬ bias_of done (bn_weight f).
Proof. by intros [_ H]. Qed.

Lemma load_affine_run (pm : Passport) (m : Model) (f : string)
    (w b : Param) (s t : list Q) :
  m !! bn_weight f = Some w → m !! bn_bias f = Some b →
  get_scale pm f = Ok s → length s = length (data w) →
  get_bias pm f = Ok t → length t = length (data b) →
  load_affine pm m f
  = Ok (<[bn_bias f := set_requires_grad (set_data b t) true]>
          (<[bn_weight f := set_requires_grad (set_data w s) true]> m)).
Proof.
  intros Hw Hb Hs Hls Ht Hlt.
  pose proof (bn_weight_ne_bias f f) as Hne.
  unfold load_affine, param. rewrite Hw. cbn. rewrite Hs. cbn.
  rewrite copy__same by done. cbn.
  rewrite lookup_insert_ne, Hb by done. cbn. rewrite Ht. cbn.
  rewrite copy__same by done. cbn.
  rewrite lookup_insert_ne, lookup_insert_eq by done. cbn.
  rewrite lookup_insert_ne, lookup_insert_eq by done. cbn.
  f_equal. apply map_eq. intros k. rewrite !lookup_insert.
  repeat case_decide; congruence.
Qed.

Lemma collect_run (st : prep_state) (f : string) (w b : Param) :
  pr_model st !! bn_weight f = Some w → pr_model st !! bn_bias f = Some b →
  collect st f
  = Ok {| pr_model :=
            <[bn_bias f := set_requires_grad (set_data b (zero_ (data b))) true]>
              (<[bn_weight f := set_requires_grad w true]> (pr_model st));
          conv_weights_to_reset := conv_weights_to_reset st ++ [bn_weight f];
          total_weight_size := total_weight_size st + length (data w) |}.
Proof.
  intros Hw Hb.
  pose proof (bn_weight_ne_bias f f) as Hne.
  unfold collect, param. rewrite Hw. cbn. rewrite Hb. cbn.
  rewrite lookup_insert_ne, Hw by done. cbn.
  rewrite lookup_insert_ne, lookup_insert_eq by done. cbn.
  f_equal. f_equal. apply map_eq. intros k. rewrite !lookup_insert.
  repeat case_decide; congruence.
Qed.

Lemma not_affine_of_nil (k : pkey) : ¬ affine_of [] k.
Proof. intros [H _]. by apply not_elem_of_nil in H. Qed.

Lemma not_bias_of_nil (k : pkey) : ¬ bias_of [] k.
Proof. intros [H _]. by apply not_elem_of_nil in H. Qed.

Lemma length_zero_ (t : list Q) : length (zero_ t) = length t.
Proof. unfold zero_. by rewrite length_replicate. Qed.

Lemma zero__length (t u : list Q) : length t = length u → zero_ t = zero_ u.
Proof. unfold zero_. by intros ->. Qed.

(** The loop that loads the affine parameters returns on an attackable
    model. *)
Lemma load_loop_run (pm : Passport) (plkeys : list string) (m0 : Model) :
  attackable pm plkeys m0 →
  ∃ m, for_each (load_affine pm) plkeys m0 = Ok m ∧ loaded plkeys m0 m.
Proof.
  intros Hatt.
  apply (for_each_inv (load_affine pm) (λ done m, loaded done m0 m)).
  - intros k. destruct (m0 !! k) as [p|]; [|done].
    rewrite decide_False by apply not_affine_of_nil. done.
  - intros done f todo m Hxs Hinv.
    destruct (Hatt f) as (w0 & b0 & s & t & Hw0 & Hb0 & Hs & Hls & Ht & Hlt).
    { rewrite Hxs. apply elem_of_app. right. left. }
    pose proof (Hinv (bn_weight f)) as Hw. rewrite Hw0 in Hw.
    destruct (m !! bn_weight f) as [w|] eqn:Hmw; [|done].
    pose proof (Hinv (bn_bias f)) as Hb. rewrite Hb0 in Hb.
    destruct (m !! bn_bias f) as [b|] eqn:Hmb; [|done].
    destruct Hw as (Hwg & Hwm & Hwl & _), Hb as (Hbg & Hbm & Hbl & _).
    eexists. split.
    { apply (load_affine_run pm m f w b s t); try done; congruence. }
    intros k. rewrite !lookup_insert.
    destruct (decide (bn_bias f = k)) as [<-|Hkb].
    { rewrite Hb0. cbn. rewrite decide_True by apply affine_of_bias.
      repeat split; try done. intros Hn. destruct Hn. apply affine_of_bias. }
    destruct (decide (bn_weight f = k)) as [<-|Hkw].
    { rewrite Hw0. cbn. rewrite decide_True by apply affine_of_weight.
      repeat split; try done. intros Hn. destruct Hn. apply affine_of_weight. }
    specialize (Hinv k). destruct (m0 !! k) as [p|], (m !! k) as [p'|]; try done.
    destruct Hinv as (? & ? & ? & Hrg & Hd).
    assert (Hiff : affine_of (done ++ [f]) k ↔ affine_of done k)
      by (apply affine_of_snoc; congruence).
    repeat split; try done.
    + rewrite Hrg.
      destruct (decide (affine_of done k)), (decide (affine_of (done ++ [f]) k));
        try done; tauto.
    + intros Hn. apply Hd. tauto.
Qed.

(** The loop that collects the weights and zeroes the biases returns when
    the layers have their affine parameters. *)
Lemma collect_loop_run (plkeys : list string) (m0 : Model) :
  (∀ f, f ∈ plkeys → is_Some (m0 !! bn_weight f) ∧ is_Some (m0 !! bn_bias f)) →
  ∃ pr, for_each collect plkeys
          {| pr_model := m0; conv_weights_to_reset := []; total_weight_size := 0 |}
        = Ok pr
    ∧ collected plkeys m0 (pr_model pr)
    ∧ conv_weights_to_reset pr = bn_weight <$> plkeys
    ∧ total_weight_size pr = sum_list (layer_sizes m0 (bn_weight <$> plkeys)).
Proof.
  intros Hpres.
  apply (for_each_inv collect
    (λ done pr, collected done m0 (pr_model pr)
                ∧ conv_weights_to_reset pr = bn_weight <$> done
                ∧ total_weight_size pr
                  = sum_list (layer_sizes m0 (bn_weight <$> done)))).
  - cbn. repeat split; try done.
    intros k. destruct (m0 !! k) as [p|]; [|done].
    rewrite decide_False by apply not_affine_of_nil.
    rewrite decide_False by apply not_bias_of_nil. done.
  - intros done f todo pr Hxs (Hinv & Hrefs & Htot).
    destruct (Hpres f) as [[w0 Hw0] [b0 Hb0]].
    { rewrite Hxs. apply elem_of_app. right. left. }
    pose proof (Hinv (bn_weight f)) as Hw. rewrite Hw0 in Hw.
    destruct (pr_model pr !! bn_weight f) as [w|] eqn:Hmw; [|done].
    pose proof (Hinv (bn_bias f)) as Hb. rewrite Hb0 in Hb.
    destruct (pr_model pr !! bn_bias f) as [b|] eqn:Hmb; [|done].
    destruct Hw as (Hwg & Hwm & _ & Hwd), Hb as (Hbg & Hbm & _ & Hbd).
    rewrite decide_False in Hwd by apply not_bias_of_weight.
    eexists. split; [by apply (collect_run pr f w b)|].
    cbn [pr_model conv_weights_to_reset total_weight_size].
    split; [|split].
    + intros k. rewrite !lookup_insert.
      destruct (decide (bn_bias f = k)) as [<-|Hkb].
      { rewrite Hb0. cbn. rewrite decide_True by apply affine_of_bias.
        rewrite decide_True by apply bias_of_bias.
        repeat split; try done. apply zero__length. rewrite Hbd.
        destruct (decide _); [apply length_zero_|done]. }
      destruct (decide (bn_weight f = k)) as [<-|Hkw].
      { rewrite Hw0. cbn. rewrite decide_True by apply affine_of_weight.
        rewrite decide_False by apply not_bias_of_weight. done. }
      specialize (Hinv k).
      destruct (m0 !! k) as [p|], (pr_model pr !! k) as [p'|]; try done.
      destruct Hinv as (? & ? & Hrg & Hd).
      assert (Hiff : affine_of (done ++ [f]) k ↔ affine_of done k)
      by (apply affine_of_snoc; congruence).
      assert (Hiffb : bias_of (done ++ [f]) k ↔ bias_of done k)
      by (apply bias_of_snoc; congruence).
      repeat split; try done.
      * rewrite Hrg.
        destruct (decide (affine_of done k)), (decide (affine_of (done ++ [f]) k));
          try done; tauto.
      * rewrite Hd.
        destruct (decide (bias_of done k)), (decide (bias_of (done ++ [f]) k));
          try done; tauto.
    + by rewrite Hrefs, fmap_app.
    + rewrite Htot. unfold layer_sizes. rewrite !fmap_app, sum_list_with_app.
      cbn. rewrite Hwd.
      assert (size_of m0 (bn_weight f) = length (data w0)) as ->
        by (unfold size_of; by rewrite Hw0).
      lia.
Qed.

End Setup.

(** ** [run_attack_2] as a whole *)

Section Run.
Import Tensor Flip Attack Spec.

Lemma select_Forall (P : Z → Prop) (total : nat) (f : Q) (randidxs : list Z) :
  Forall P randidxs → Forall P (select total f randidxs).
Proof.
  intros H. unfold select, slice_to. case_bool_decide; by apply Forall_take.
Qed.

Lemma attackable_freeze (pm : Passport) (plkeys : list string) (m : Model) :
  attackable pm plkeys m → attackable pm plkeys (freeze m).
Proof.
  intros H f Hf. destruct (H f Hf) as (w & b & s & t & Hw & Hb & Hrest).
  exists (set_requires_grad w false), (set_requires_grad b false), s, t.
  unfold freeze. rewrite !lookup_fmap, Hw, Hb. done.
Qed.

Lemma weight_refs_affine (plkeys : list string) (k : pkey) :
  k ∈ bn_weight <$> plkeys → affine_of plkeys k ∧ ¬ bias_of plkeys k.
Proof.
  intros (f & -> & Hf)%list_elem_of_fmap. split.
  - split; [done|by left].
  - apply not_bias_of_weight.
Qed.

(** On an attackable model, with at least one layer and the non-negative
    indices of a permutation, [run_attack_2] reaches the printed
    similarity, and its effect on the model is [attack_effect]. *)
Lemma run_attack_2_run (pm : Passport) (plkeys : list string) (fraction : Q)
    (randidxs : list Z) (model : Model) :
  attackable pm plkeys model → plkeys ≠ [] →
  Forall (λ idx, 0 ≤ idx) randidxs →
  ∃ out, run_attack_2 pm plkeys fraction randidxs model = Ok out
    ∧ attack_effect plkeys model (out_model out).
Proof.
  intros Hatt Hne Hnn.
  destruct (load_loop_run pm plkeys (freeze model) (attackable_freeze _ _ _ Hatt))
    as (m2 & Hload & Hl).
  assert (Hpres2 : ∀ f, f ∈ plkeys →
            is_Some (m2 !! bn_weight f) ∧ is_Some (m2 !! bn_bias f)).
  { intros f Hf.
    destruct (attackable_freeze _ _ _ Hatt f Hf) as (w & b & _ & _ & Hw & Hb & _).
    pose proof (Hl (bn_weight f)) as H1. pose proof (Hl (bn_bias f)) as H2.
    rewrite Hw in H1. rewrite Hb in H2.
    destruct (m2 !! bn_weight f), (m2 !! bn_bias f); done. }
  destruct (collect_loop_run plkeys m2 Hpres2) as (pr & Hcol & Hc & Hrefs & Htot).
  assert (Hpres3 : Forall (λ w, is_Some (pr_model pr !! w)) (conv_weights_to_reset pr)).
  { rewrite Hrefs, Forall_forall. intros k (f & -> & Hf)%list_elem_of_fmap.
    destruct (Hpres2 f Hf) as [[w Hw] _]. pose proof (Hc (bn_weight f)) as H1.
    rewrite Hw in H1. destruct (pr_model pr !! bn_weight f); [eauto|done]. }
  destruct (flip_loop_run (conv_weights_to_reset pr) (pr_model pr)
              (select (total_weight_size pr) fraction randidxs) Hpres3
              (select_Forall _ _ _ _ Hnn))
    as (st & Hflip & _ & _ & Hre).
  assert (∃ sim, report (st_sim st) (length (conv_weights_to_reset pr)) = Ok sim)
    as [sim Hrep].
  { rewrite Hrefs, length_fmap. destruct plkeys; [done|]. cbn. eauto. }
  eexists. split.
  { unfold run_attack_2. rewrite Hload. cbn. rewrite Hcol. cbn.
    rewrite Hflip. cbn. rewrite Hrep. cbn. reflexivity. }
  cbn [out_model]. intros k.
  specialize (Hl k). specialize (Hc k). specialize (Hre k).
  unfold freeze in Hl. rewrite lookup_fmap in Hl.
  destruct (model !! k) as [p|]; cbn in Hl;
    destruct (m2 !! k) as [p2|]; try done;
    destruct (pr_model pr !! k) as [p3|]; try done;
    destruct (st_model st !! k) as [p4|]; try done.
  destruct Hl as (Hg2 & Hm2 & Hlen2 & Hrg2 & Hd2).
  destruct Hc as (Hg3 & Hm3 & Hrg3 & Hd3).
  destruct Hre as [(d & -> & Hlen4) Hun].
  assert (Hlen3 : length (data p3) = length (data p2)).
  { rewrite Hd3. destruct (decide (bias_of plkeys k)); [apply length_zero_|done]. }
  cbn in *.
  split; [congruence|]. split; [congruence|]. split; [congruence|].
  split; [|split].
  - rewrite Hrg3. destruct (decide (affine_of plkeys k)).
    + by rewrite bool_decide_eq_true_2.
    + rewrite bool_decide_eq_false_2 by done. by rewrite Hrg2.
  - intros Hb.
    assert (Hk : k ∉ conv_weights_to_reset pr).
    { rewrite Hrefs. intros Hin. by apply weight_refs_affine in Hin as [_ ?]. }
    specialize (Hun Hk). destruct p3. cbn in *. injection Hun as <-.
    rewrite Hd3, decide_True by done. by apply zero__length.
  - intros Hna.
    assert (Hk : k ∉ conv_weights_to_reset pr).
    { rewrite Hrefs. intros Hin. by apply weight_refs_affine in Hin as [? _]. }
    specialize (Hun Hk). destruct p3. cbn in *. injection Hun as <-.
    rewrite Hd3, decide_False by (intros [? ?]; apply Hna; split; [done|by right]).
    by apply Hd2.
Qed.

End Run.

(** ** Bias zeroing and frozen parameters *)

Section Frame.
Import Tensor Flip Attack Train Spec.

Lemma example_attackable :
  attackable Example.passport Example.plkeys Example.model.
Proof.
  intros f Hf. unfold Example.plkeys in Hf.
  apply elem_of_cons in Hf as [->|Hf];
    [|apply elem_of_cons in Hf as [->|Hf]; [|by apply not_elem_of_nil in Hf]].
  - by exists (Example.fresh [1; 1]%Q), (Example.fresh [4; 5]%Q),
      [5 # 2; -3]%Q, [7; 8]%Q.
  - by exists (Example.fresh [1; 1; 1]%Q), (Example.fresh [6; 7; 8]%Q),
      [0; 1 # 2; -1 # 2]%Q, [9; 9; 9]%Q.
Qed.

Lemma example_fresh (k : pkey) (p : Param) :
  Example.model !! k = Some p → grad p = None.
Proof.
  unfold Example.model. rewrite !lookup_insert.
  repeat case_decide; try congruence; by intros [= <-].
Qed.

(** C5: on every run of the attack, whichever fraction and permutation
    select the indices, the bias of every layer of [plkeys] ends as the
    zero vector, and the parameters of every other layer keep their
    data. *)
Theorem bias_zeroed_unconditionally (pm : Passport) (plkeys : list string)
    (fraction : Q) (randidxs : list Z) (model : Model) :
  attackable pm plkeys model → plkeys ≠ [] →
  Forall (λ idx, 0 ≤ idx) randidxs →
  ∃ out, run_attack_2 pm plkeys fraction randidxs model = Ok out
    ∧ (∀ f b, f ∈ plkeys → model !! bn_bias f = Some b →
         ∃ b', out_model out !! bn_bias f = Some b'
           ∧ data b' = replicate (length (data b)) 0%Q)
    ∧ (∀ k p, k.1 ∉ plkeys → model !! k = Some p →
         ∃ p', out_model out !! k = Some p' ∧ data p' = data p).
Proof.
  intros Hatt Hne Hnn.
  destruct (run_attack_2_run pm plkeys fraction randidxs model Hatt Hne Hnn)
    as (out & Hrun & Heff).
  exists out. split; [done|]. split.
  - intros f b Hf Hb. specialize (Heff (bn_bias f)). rewrite Hb in Heff.
    destruct (out_model out !! bn_bias f) as [b'|]; [|done].
    exists b'. split; [done|].
    destruct Heff as (_ & _ & _ & _ & Hz & _). by apply Hz.
  - intros k p Hk Hp. specialize (Heff k). rewrite Hp in Heff.
    destruct (out_model out !! k) as [p'|]; [|done].
    exists p'. split; [done|].
    destruct Heff as (_ & _ & _ & _ & _ & Hd). apply Hd. by intros [? _].
Qed.

Lemma bias_zeroed_unconditionally_witness :
  ∃ out, run_attack_2 Example.passport Example.plkeys (1 # 2) [3; 0; 4; 1; 2]
           Example.model = Ok out
    ∧ (∃ b', out_model out !! bn_bias "2" = Some b' ∧ data b' = [0; 0; 0]%Q)
    ∧ (∃ p', out_model out !! bn_bias "1" = Some p' ∧ data p' = [3; 3]%Q).
Proof.
  destruct (bias_zeroed_unconditionally Example.passport Example.plkeys (1 # 2)
              [3; 0; 4; 1; 2] Example.model)
    as (out & Hrun & Hbias & Hother).
  - exact example_attackable.
  - done.
  - repeat constructor; lia.
  - exists out. split; [done|]. split.
    + apply (Hbias "2"%string (Example.fresh [6; 7; 8]%Q)).
      * unfold Example.plkeys. right. left.
      * done.
    + apply (Hother (bn_bias "1") (Example.fresh [3; 3]%Q)).
      * unfold Example.plkeys. cbn. intros H.
        apply elem_of_cons in H as [H|H]; [done|].
        apply elem_of_cons in H as [H|H]; [done|].
        by apply not_elem_of_nil in H.
      * done.
Defined.

(** A parameter that requires no gradient and has none is left alone by
    a training step. *)
Lemma train_batch_frozen {Batch : Type} (autograd : Model → Batch → pkey → list Q)
    (m : Model) (b : Batch) (k : pkey) (p : Param) :
  m !! k = Some p → requires_grad p = false → grad p = None →
  train_batch autograd m b !! k = Some p.
Proof.
  intros Hp Hrg Hg. unfold train_batch, step, backward, zero_grad.
  rewrite lookup_fmap, map_lookup_imap, lookup_fmap, Hp. cbn.
  rewrite Hrg, Hg. cbn. f_equal. destruct p. cbn in *. by subst.
Qed.

Lemma train_frozen {Batch : Type} (autograd : Model → Batch → pkey → list Q)
    (trainloader : list Batch) (m : Model) (k : pkey) (p : Param) :
  m !! k = Some p → requires_grad p = false → grad p = None →
  train autograd m trainloader !! k = Some p.
Proof.
  unfold train. revert m.
  induction trainloader as [|b bs IH]; intros m Hp Hrg Hg; [done|].
  cbn. apply IH; [|done..]. by apply train_batch_frozen.
Qed.

Lemma fine_tune_frozen {Batch : Type} (autograd : Model → Batch → pkey → list Q)
    (epochs : list (list Batch)) (m : Model) (k : pkey) (p : Param) :
  m !! k = Some p → requires_grad p = false → grad p = None →
  fine_tune autograd m epochs !! k = Some p.
Proof.
  unfold fine_tune. revert m.
  induction epochs as [|e es IH]; intros m Hp Hrg Hg; [done|].
  cbn. apply IH; [|done..]. by apply train_frozen.
Qed.

(** C10: when the set-up of [run_attack_2] is done, exactly the
    batch-norm weights and biases of the layers of [plkeys] require a
    gradient; through any number of fine-tuning epochs every other
    parameter of the freshly loaded model keeps its loaded data and stays
    frozen. *)
Theorem only_affine_parameters_train {Batch : Type}
    (autograd : Model → Batch → pkey → list Q) (pm : Passport)
    (plkeys : list string) (fraction : Q) (randidxs : list Z) (model : Model)
    (epochs : list (list Batch)) :
  attackable pm plkeys model → plkeys ≠ [] →
  Forall (λ idx, 0 ≤ idx) randidxs →
  (∀ k p, model !! k = Some p → grad p = None) →
  ∃ out, run_attack_2 pm plkeys fraction randidxs model = Ok out
    ∧ (∀ k p', out_model out !! k = Some p' →
         requires_grad p' = true ↔ affine_of plkeys k)
    ∧ (∀ k p, model !! k = Some p → ¬ affine_of plkeys k →
         ∃ p', fine_tune autograd (out_model out) epochs !! k = Some p'
           ∧ data p' = data p ∧ requires_grad p' = false).
Proof.
  intros Hatt Hne Hnn Hfresh.
  destruct (run_attack_2_run pm plkeys fraction randidxs model Hatt Hne Hnn)
    as (out & Hrun & Heff).
  exists out. split; [done|]. split.
  - intros k p' Hp'. specialize (Heff k). rewrite Hp' in Heff.
    destruct (model !! k) as [p|]; [|done].
    destruct Heff as (_ & _ & _ & Hrg & _). rewrite Hrg.
    apply bool_decide_eq_true.
  - intros k p Hp Hna. specialize (Heff k). rewrite Hp in Heff.
    destruct (out_model out !! k) as [p'|] eqn:Hp'; [|done].
    destruct Heff as (Hg & _ & _ & Hrg & _ & Hd).
    rewrite bool_decide_eq_false_2 in Hrg by done.
    exists p'. split; [|by split; [apply Hd|]].
    apply fine_tune_frozen; [done..|]. rewrite Hg. by apply (Hfresh k).
Qed.

Lemma only_affine_parameters_train_witness :
  ∃ out, run_attack_2 Example.passport Example.plkeys (1 # 2) [3; 0; 4; 1; 2]
           Example.model = Ok out
    ∧ ∃ p', fine_tune (λ _ (_ : unit) _, [1; 1; 1]%Q) (out_model out)
              [[tt; tt]; [tt]] !! ("0", "conv.weight")%string = Some p'
        ∧ data p' = [5; 6; 7]%Q ∧ requires_grad p' = false.
Proof.
  destruct (only_affine_parameters_train (λ _ (_ : unit) _, [1; 1; 1]%Q)
              Example.passport Example.plkeys (1 # 2) [3; 0; 4; 1; 2]
              Example.model [[tt; tt]; [tt]])
    as (out & Hrun & _ & Hkeep).
  - exact example_attackable.
  - done.
  - repeat constructor; lia.
  - exact example_fresh.
  - exists out. split; [done|].
    apply (Hkeep ("0", "conv.weight")%string (Example.fresh [5; 6; 7]%Q)); [done|].
    by intros [_ [H|H]].
Defined.

End Frame.

(** ** The reported similarity *)

Section Similarity.
Import Tensor Flip Attack Spec.

Lemma count_true_app (l k : list bool) :
  count_true (l ++ k) = (count_true l + count_true k)%nat.
Proof. unfold count_true. by rewrite List.filter_app, length_app. Qed.

(** The mask the code averages marks the channels of equal sign. *)
Lemma count_true_agree (before after : list Q) :
  length after = length before →
  count_true (eq_mask (signs after) (signs before))
  = length (List.filter (agree before after) (seq 0 (length before))).
Proof.
  revert after. induction before as [|y before IH] using rev_ind; intros after Hlen.
  - by destruct after.
  - destruct after as [|x after _] using rev_ind;
      [rewrite length_app in Hlen; cbn in Hlen; lia|].
    rewrite !length_app in Hlen. cbn in Hlen.
    assert (Hl : length after = length before) by lia.
    unfold signs, eq_mask. rewrite !fmap_app.
    rewrite zip_with_app by (by rewrite !length_fmap).
    rewrite count_true_app. fold (signs after) (signs before).
    fold (eq_mask (signs after) (signs before)). rewrite (IH after Hl).
    rewrite length_app, seq_app, List.filter_app, length_app. cbn [length].
    f_equal.
    + f_equal. apply List.filter_ext_in. intros i Hi. apply in_seq in Hi.
      unfold agree. by rewrite !lookup_app_l by lia.
    + cbn. unfold agree.
      rewrite <- Hl at 2. rewrite !list_lookup_middle by done.
      unfold count_true. cbn. by destruct (Qeq_bool (sign x) (sign y)).
Qed.

Lemma mean_mask_fraction (before after : list Q) :
  before ≠ [] → length after = length before →
  mean_mask (eq_mask (signs after) (signs before))
  = Num (fraction_unchanged before after).
Proof.
  intros Hne Hlen.
  assert (Hm : length (eq_mask (signs after) (signs before)) = length before).
  { unfold eq_mask. rewrite length_zip_with, !length_signs. lia. }
  unfold fraction_unchanged. rewrite <- (count_true_agree _ _ Hlen), <- Hm.
  destruct (eq_mask (signs after) (signs before)) eqn:E; [|done].
  destruct before; [done|]. cbn in Hm. lia.
Qed.

Lemma Qsum_snoc (qs : list Q) (q : Q) : (Qsum (qs ++ [q]) == Qsum qs + q)%Q.
Proof.
  unfold Qsum. induction qs as [|x qs IH]; cbn.
  - ring.
  - rewrite IH. ring.
Qed.

Lemma Qsum_fmap_snoc {A} (f : A → Q) (l : list A) (x : A) :
  (Qsum (f <$> l ++ [x]) == Qsum (f <$> l) + f x)%Q.
Proof. rewrite fmap_app. apply Qsum_snoc. Qed.

Lemma data_of_insert_ne (m : Model) (k k' : pkey) (p : Param) :
  k ≠ k' → data_of (<[k := p]> m) k' = data_of m k'.
Proof. intros H. unfold data_of. by rewrite lookup_insert_ne. Qed.

Lemma reshaped_snoc (done : list pkey) (m0 m : Model) (x : pkey) (p : Param)
    (d : list Q) :
  reshaped (λ k, k ∈ done) m0 m → m !! x = Some p → length d = length (data p) →
  reshaped (λ k, k ∈ done ++ [x]) m0 (<[x := set_data p d]> m).
Proof.
  intros Hre Hp Hd k. destruct (decide (k = x)) as [->|Hne].
  - specialize (Hre x). rewrite Hp in Hre. rewrite lookup_insert_eq.
    destruct (m0 !! x) as [p0|]; [|done].
    destruct Hre as [(d0 & -> & Hd0) _]. split.
    + exists d. by split; [|rewrite Hd].
    + intros Hn. exfalso. apply Hn. apply elem_of_app. right. left.
  - rewrite lookup_insert_ne by done. specialize (Hre k).
    destruct (m0 !! k), (m !! k); try done.
    destruct Hre as [? Hun]. split; [done|].
    intros Hn. apply Hun. intros Hk. apply Hn, elem_of_app. by left.
Qed.

(** C6: with at least one attacked layer, each of at least one channel,
    the similarity that is printed is the arithmetic mean over the
    attacked layers of the fraction of channels whose sign after the flip
    equals the sign before it. *)
Theorem similarity_is_mean_of_fractions (ws : list pkey) (m : Model)
    (idxs : list Z) :
  ws ≠ [] → NoDup ws →
  Forall (λ w, ∃ p, m !! w = Some p ∧ data p ≠ []) ws →
  Forall (λ idx, 0 ≤ idx) idxs →
  ∃ st q, flip_loop ws m idxs = Ok st
    ∧ report (st_sim st) (length ws) = Ok (Num q)
    ∧ (q == arithmetic_mean
              ((λ w, fraction_unchanged (data_of m w) (data_of (st_model st) w))
                 <$> ws))%Q.
Proof.
  intros Hne Hnd Hws Hnn.
  assert (Hloop : ∃ st, flip_loop ws m idxs = Ok st
            ∧ reshaped (λ k, k ∈ ws) m (st_model st)
            ∧ Forall (λ idx, 0 ≤ idx) (st_idxs st)
            ∧ ∃ q, st_sim st = Num q
                ∧ (q == Qsum ((λ w, fraction_unchanged (data_of m w)
                                      (data_of (st_model st) w)) <$> ws))%Q).
  { unfold flip_loop.
    apply (for_each_inv flip_body
      (λ done st, reshaped (λ k, k ∈ done) m (st_model st)
         ∧ Forall (λ idx, 0 ≤ idx) (st_idxs st)
         ∧ ∃ q, st_sim st = Num q
             ∧ (q == Qsum ((λ w, fraction_unchanged (data_of m w)
                                   (data_of (st_model st) w)) <$> done))%Q)).
    - cbn. split; [|split; [done|]].
      + intros k. destruct (m !! k) as [p|]; [|done].
        split; [|done]. exists (data p). by destruct p.
      + by exists 0%Q.
    - intros done x todo st Hxs (Hre & Hidx & q & Hsim & Hq).
      assert (Hx : x ∉ done).
      { rewrite Hxs in Hnd. apply NoDup_app in Hnd as (_ & Hd & _).
        intros Hin. apply (Hd x Hin). left. }
      rewrite Forall_forall in Hws.
      destruct (Hws x) as (p & Hp & Hpne).
      { rewrite Hxs. apply elem_of_app. right. left. }
      assert (Hcur : st_model st !! x = Some p).
      { by rewrite (reshaped_lookup _ _ _ _ Hre Hx). }
      eexists. split; [by apply flip_body_nonneg|].
      cbn [st_model st_idxs st_sim].
      split; [|split; [apply rest_nonneg|]].
      + apply reshaped_snoc; [done..|apply length_flipped].
      + rewrite Hsim. cbn [scalar_add].
        rewrite mean_mask_fraction by (done || apply length_flipped).
        eexists. split; [done|].
        rewrite Qsum_fmap_snoc.
        unfold data_of at 4. rewrite lookup_insert_eq. cbn [data set_data].
        unfold data_of at 3. rewrite Hp.
        apply Qplus_comp; [|reflexivity].
        rewrite Hq.
        assert (∀ a b : Q, a = b → (a == b)%Q) as Heq by (by intros ? ? ->).
        apply Heq. f_equal.
        apply list_fmap_ext. intros i w Hw.
        rewrite data_of_insert_ne; [done|].
        intros ->. apply Hx. by eapply list_elem_of_lookup_2. }
  destruct Hloop as (st & Hrun & _ & _ & q & Hsim & Hq).
  exists st, (q / inject_Z (Z.of_nat (length ws)))%Q. split; [done|]. split.
  - rewrite Hsim. unfold report. by destruct ws.
  - unfold arithmetic_mean. rewrite length_fmap. by rewrite Hq.
Qed.

Lemma similarity_is_mean_of_fractions_witness :
  ∃ st q, flip_loop [bn_weight "0"; bn_weight "2"] Example.model [3; 0] = Ok st
    ∧ report (st_sim st) 2 = Ok (Num q)
    ∧ (q == 7 # 12)%Q.
Proof.
  destruct (similarity_is_mean_of_fractions [bn_weight "0"; bn_weight "2"]
              Example.model [3; 0])
    as (st & q & Hrun & Hrep & Hq).
  - done.
  - apply (bool_decide_unpack _). by vm_compute.
  - repeat constructor; eexists; (split; [reflexivity|done]).
  - repeat constructor; lia.
  - exists st, q. split; [done|]. split; [done|].
    rewrite Hq. vm_compute in Hrun. injection Hrun as <-. by vm_compute.
Defined.

End Similarity.

(** ** The fallback of the weight transplant *)

Section TransferFacts.
Import Tensor Transfer TransferSpec.

Lemma load_state_dict_lookup (t sd : state_dict) (strict : bool) (k : string) :
  (load_state_dict t sd strict).1 !! k
  = (λ v, match sd !! k with
          | Some s => if bool_decide (length s = length v) then s else v
          | None => v
          end) <$> t !! k.
Proof.
  unfold load_state_dict. cbn. rewrite map_lookup_imap.
  by destruct (t !! k).
Qed.

Lemma load_state_dict_dom (t sd : state_dict) (strict : bool) :
  dom (load_state_dict t sd strict).1 = dom t.
Proof.
  apply set_eq. intros k.
  by rewrite !elem_of_dom, load_state_dict_lookup, fmap_is_Some.
Qed.

Lemma load_state_dict_shapes (t sd : state_dict) (strict : bool) :
  map_Forall (λ k v, shape_ok sd k v = true) t →
  map_Forall (λ k v, shape_ok sd k v = true) (load_state_dict t sd strict).1.
Proof.
  intros H k v'. rewrite load_state_dict_lookup.
  destruct (t !! k) as [v|] eqn:Hv; [|done]. cbn. intros [= <-].
  specialize (H k v Hv). unfold shape_ok in *.
  destruct (sd !! k) as [s|]; [|done].
  rewrite H. by apply bool_decide_eq_true_2.
Qed.

Lemma load_state_dict_returns (t sd : state_dict) (strict : bool) :
  map_Forall (λ k v, shape_ok sd k v = true) t →
  (strict = true → dom t = dom sd) →
  (load_state_dict t sd strict).2 = true.
Proof.
  intros Hs Hk. unfold load_state_dict. cbn.
  rewrite bool_decide_eq_true_2 by done. cbn.
  destruct strict; [|done]. cbn. by rewrite bool_decide_eq_true_2 by auto.
Qed.

Lemma load_state_dict_raises (t sd : state_dict) :
  dom t ≠ dom sd → (load_state_dict t sd true).2 = false.
Proof.
  intros Hk. unfold load_state_dict. cbn.
  rewrite (bool_decide_eq_false_2 (dom t = dom sd)) by done.
  by rewrite andb_false_r.
Qed.

(** A load keeps two modules compatible. *)
Lemma compatible_load (t : state_dict) (s : passport_module) (strict : bool) :
  compatible t s → compatible (load_state_dict t (pm_state s) strict).1 s.
Proof.
  intros [Hsh Hm]. split; [by apply load_state_dict_shapes|].
  destruct (pm_affine s) as [[sc bi]|].
  - destruct Hm as ((w & Hw & Hlw) & (b & Hb & Hlb) & Hno).
    split; [|split; [|done]].
    + rewrite load_state_dict_lookup, Hw, Hno. cbn. eauto.
    + rewrite load_state_dict_lookup, Hb. cbn.
      pose proof (Hsh _ _ Hb) as Hok. unfold shape_ok in Hok.
      destruct (pm_state s !! "bn.bias"%string) as [v|]; [|eauto].
      rewrite Hok. apply bool_decide_eq_true in Hok. exists v. split; [done|].
      congruence.
  - by rewrite load_state_dict_dom.
Qed.

(** The body of the fallback loops returns on compatible modules and
    leaves the scale and bias of a passport layer in the clone's module. *)
Lemma transplant_run (t : state_dict) (s : passport_module) :
  compatible t s →
  ∃ t', transplant t s = Ok t' ∧ compatible t' s ∧ transplanted t' s.
Proof.
  intros Hc. pose proof Hc as [Hsh Hm]. unfold transplant, transplanted.
  destruct (pm_affine s) as [[sc bi]|] eqn:Haff.
  - destruct Hm as ((w & Hw & Hlw) & _ & Hno).
    rewrite load_state_dict_raises.
    2:{ intros Hd. assert (Hin : "bn.weight"%string ∈ dom t)
          by (apply elem_of_dom; eauto).
        rewrite Hd in Hin. apply elem_of_dom in Hin as [? Hin]. congruence. }
    pose proof (compatible_load t s true Hc) as Hc1.
    remember (load_state_dict t (pm_state s) true).1 as t1 eqn:Ht1. clear Ht1.
    pose proof (compatible_load t1 s false Hc1) as Hc2.
    rewrite load_state_dict_returns by (apply Hc1 || done).
    remember (load_state_dict t1 (pm_state s) false).1 as t2 eqn:Ht2. clear Ht2.
    cbn. destruct Hc2 as [Hsh2 Hm2]. rewrite Haff in Hm2.
    destruct Hm2 as ((w2 & Hw2 & Hlw2) & (b2 & Hb2 & Hlb2) & _).
    unfold entry, pm_get_scale, pm_get_bias. rewrite Hw2, Haff. cbn.
    rewrite copy__same by done. cbn.
    rewrite lookup_insert_ne, Hb2 by done. cbn.
    rewrite copy__same by done. cbn.
    eexists. split; [done|]. split.
    + split.
      * intros k v. rewrite !lookup_insert.
        destruct (decide ("bn.bias"%string = k)) as [<-|?].
        { intros [= <-]. pose proof (Hsh2 _ _ Hb2) as Hok.
          unfold shape_ok in *. destruct (pm_state s !! "bn.bias"%string); [|done].
          apply bool_decide_eq_true in Hok. apply bool_decide_eq_true_2. congruence. }
        destruct (decide ("bn.weight"%string = k)) as [<-|?].
        { intros _. unfold shape_ok. by rewrite Hno. }
        apply Hsh2.
      * rewrite Haff. split; [|split; [|done]].
        -- exists sc. by rewrite lookup_insert_ne, lookup_insert_eq.
        -- exists bi. by rewrite lookup_insert_eq.
    + by rewrite lookup_insert_ne, !lookup_insert_eq.
  - rewrite load_state_dict_returns by done.
    eexists. split; [done|]. split; [|done].
    apply (compatible_load t s true Hc).
Qed.

Lemma load_state_dict_entry (t sd : state_dict) (strict : bool) (k : string) :
  map_Forall (λ k v, shape_ok sd k v = true) t →
  (load_state_dict t sd strict).1 !! k
  = match t !! k with
    | Some v => Some (default v (sd !! k))
    | None => None
    end.
Proof.
  intros Ht. rewrite load_state_dict_lookup.
  destruct (t !! k) as [v|] eqn:Hv; [|done]. cbn.
  pose proof (Ht k v Hv) as Hok. unfold shape_ok in Hok.
  destruct (sd !! k); [|done]. by rewrite Hok.
Qed.

Lemma transplant_dom (t t' : state_dict) (s : passport_module) :
  transplant t s = Ok t' → dom t' = dom t.
Proof.
  unfold transplant.
  pose proof (load_state_dict_dom t (pm_state s) true) as Hd1.
  destruct (load_state_dict t (pm_state s) true) as [t1 ok1]. cbn [fst snd] in *.
  destruct ok1; [by intros [= <-]|].
  pose proof (load_state_dict_dom t1 (pm_state s) false) as Hd2.
  destruct (load_state_dict t1 (pm_state s) false) as [t2 ok2]. cbn [fst snd] in *.
  destruct ok2; [|done]. cbn. unfold entry.
  destruct (t2 !! "bn.weight"%string) as [w|] eqn:Hw; [|done]. cbn.
  destruct (pm_get_scale s); [|done]. cbn.
  destruct (copy_ w _); [|done]. cbn.
  rewrite lookup_insert_ne by done.
  destruct (t2 !! "bn.bias"%string) as [b|] eqn:Hb; [|done]. cbn.
  destruct (pm_get_bias s); [|done]. cbn.
  destruct (copy_ b _); [|done]. cbn. intros [= <-].
  rewrite <- Hd1, <- Hd2. apply set_eq. intros k.
  rewrite !dom_insert_L, !elem_of_union, !elem_of_singleton.
  split; [|tauto].
  intros [->|[->|?]]; [| |done]; by eapply elem_of_dom_2.
Qed.

Lemma transplant_passport (t : state_dict) (s : passport_module) (sc bi : list Q) :
  compatible t s → pm_affine s = Some (sc, bi) →
  transplant t s
  = Ok (<["bn.bias"%string := bi]>
          (<["bn.weight"%string := sc]>
             (load_state_dict (load_state_dict t (pm_state s) true).1
                (pm_state s) false).1)).
Proof.
  intros Hc Haff. pose proof Hc as [Hsh Hm]. rewrite Haff in Hm.
  destruct Hm as ((w & Hw & Hlw) & _ & Hno).
  unfold transplant. rewrite load_state_dict_raises.
  2:{ intros Hd. assert (Hin : "bn.weight"%string ∈ dom t)
        by (apply elem_of_dom; eauto).
      rewrite Hd in Hin. apply elem_of_dom in Hin as [? Hin]. congruence. }
  pose proof (compatible_load t s true Hc) as Hc1.
  remember (load_state_dict t (pm_state s) true).1 as t1 eqn:Ht1. clear Ht1.
  pose proof (compatible_load t1 s false Hc1) as Hc2.
  rewrite load_state_dict_returns by (apply Hc1 || done).
  remember (load_state_dict t1 (pm_state s) false).1 as t2 eqn:Ht2. clear Ht2.
  cbn. destruct Hc2 as [Hsh2 Hm2]. rewrite Haff in Hm2.
  destruct Hm2 as ((w2 & Hw2 & Hlw2) & (b2 & Hb2 & Hlb2) & _).
  unfold entry, pm_get_scale, pm_get_bias. rewrite Hw2, Haff. cbn.
  rewrite copy__same by done. cbn.
  rewrite lookup_insert_ne, Hb2 by done. cbn.
  by rewrite copy__same by done.
Qed.

(** A load into the clone's module copies what the two modules share. *)
Lemma load_copied (t : state_dict) (s : passport_module) (strict : bool) :
  map_Forall (λ k v, shape_ok (pm_state s) k v = true) t →
  copied t (load_state_dict t (pm_state s) strict).1 s.
Proof.
  intros Hsh. split; [apply load_state_dict_dom|].
  intros k v0 Hk _. by rewrite load_state_dict_entry, Hk by done.
Qed.

(** The body of the fallback loops keeps the copies made before it and
    makes its own. *)
Lemma transplant_copied (t0 t : state_dict) (s : passport_module) :
  compatible t s → copied t0 t s →
  ∃ t', transplant t s = Ok t'
    ∧ compatible t' s ∧ transplanted t' s ∧ copied t0 t' s.
Proof.
  intros Hc [Hdom Hcop].
  destruct (transplant_run t s Hc) as (t' & Hrun & Hc' & Htr).
  exists t'. split; [done|]. split; [done|]. split; [done|].
  split; [by rewrite (transplant_dom _ _ _ Hrun)|].
  intros k v0 Hk Hside. specialize (Hcop k v0 Hk Hside).
  pose proof Hc as [Hsh _].
  pose proof (load_state_dict_shapes t (pm_state s) true Hsh) as Hsh1.
  destruct (pm_affine s) as [[sc bi]|] eqn:Haff.
  - pose proof (transplant_passport t s sc bi Hc Haff) as Hrun'.
    assert (t' = <["bn.bias"%string := bi]>
                   (<["bn.weight"%string := sc]>
                      (load_state_dict (load_state_dict t (pm_state s) true).1
                         (pm_state s) false).1)) as -> by congruence.
    destruct Hside as [Hw Hb]; [by eexists|].
    rewrite !lookup_insert_ne by done.
    rewrite (load_state_dict_entry _ (pm_state s) false k Hsh1).
    rewrite (load_state_dict_entry t (pm_state s) true k Hsh), Hcop.
    by destruct (pm_state s !! k).
  - assert (Hrun' : transplant t s = Ok (load_state_dict t (pm_state s) true).1).
    { unfold transplant. destruct Hc as [_ Hm]. rewrite Haff in Hm.
      by rewrite load_state_dict_returns by done. }
    assert (t' = (load_state_dict t (pm_state s) true).1) as -> by congruence.
    rewrite (load_state_dict_entry t (pm_state s) true k Hsh), Hcop.
    by destruct (pm_state s !! k).
Qed.

End TransferFacts.

Section TransferTheorems.
Import Tensor Transfer TransferSpec.

Lemma load_features_compatible (tl : list state_dict) (self : list passport_module) :
  Forall2 compatible tl self →
  Forall2 compatible (load_features tl self).1 self.
Proof.
  induction 1 as [|t s tl self Hc _ IH]; cbn; [constructor|].
  constructor; [exact (compatible_load t s true Hc)|done].
Qed.

Lemma transplant_features_run (tl : list state_dict) (self : list passport_module) :
  Forall2 compatible tl self →
  ∃ fs, transplant_features tl self = Ok fs ∧ Forall2 transplanted fs self.
Proof.
  induction 1 as [|t s tl self Hc _ (fs & Hfs & IH)]; cbn.
  - exists []. split; [done|constructor].
  - destruct (transplant_run t s Hc) as (t' & Ht' & _ & Htr).
    rewrite Ht'. cbn. rewrite Hfs. cbn.
    exists (t' :: fs). split; [done|by constructor].
Qed.

Lemma transplant_named_run (paths : list string) (tl : gmap string state_dict)
    (self : gmap string passport_module) :
  (∀ path, path ∈ paths →
     ∃ t s, tl !! path = Some t ∧ self !! path = Some s ∧ compatible t s) →
  ∃ tl', transplant_named paths tl self = Ok tl'
    ∧ ∀ path s, self !! path = Some s →
        (path ∈ paths ∨ ∃ t, tl !! path = Some t ∧ transplanted t s) →
        ∃ t', tl' !! path = Some t' ∧ transplanted t' s.
Proof.
  revert tl. induction paths as [|path0 paths IH]; intros tl Hm; cbn.
  - exists tl. split; [done|]. intros path s _ [Hin|Hdone]; [|done].
    by apply not_elem_of_nil in Hin.
  - destruct (Hm path0) as (t0 & s0 & Ht0 & Hs0 & Hc0); [left|].
    unfold named_module. rewrite Ht0, Hs0. cbn.
    destruct (transplant_run t0 s0 Hc0) as (t' & Ht' & Hc' & Htr).
    rewrite Ht'. cbn.
    destruct (IH (<[path0 := t']> tl)) as (tl' & Hrun & Hall).
    { intros path Hin. destruct (decide (path = path0)) as [->|Hne].
      - exists t', s0. by rewrite lookup_insert_eq.
      - destruct (Hm path) as (t & s & Ht & Hs & Hc); [by right|].
        exists t, s. by rewrite lookup_insert_ne. }
    exists tl'. split; [done|]. intros path s Hs Hcase. apply Hall; [done|].
    destruct (decide (path = path0)) as [->|Hne].
    + right. exists t'. rewrite lookup_insert_eq. split; [done|].
      by replace s with s0 by congruence.
    + destruct Hcase as [Hin|(t & Ht & Hdone)].
      * left. apply elem_of_cons in Hin as [?|?]; done.
      * right. exists t. by rewrite lookup_insert_ne.
Qed.

Lemma transplant_features_copied (tl : list state_dict)
    (self : list passport_module) :
  Forall2 compatible tl self →
  ∃ fs, transplant_features (load_features tl self).1 self = Ok fs
    ∧ length fs = length tl
    ∧ ∀ i t0 s, tl !! i = Some t0 → self !! i = Some s →
        ∃ t, fs !! i = Some t ∧ copied t0 t s ∧ transplanted t s.
Proof.
  induction 1 as [|t s tl self Hc _ (fs & Hfs & Hlen & IH)];
    cbn [load_features transplant_features fst].
  - exists []. split; [done|]. split; [done|]. by intros i ???.
  - destruct (transplant_copied t (load_state_dict t (pm_state s) true).1 s)
      as (t' & Ht' & _ & Htr & Hcop).
    { exact (compatible_load t s true Hc). }
    { apply load_copied, Hc. }
    rewrite Ht'. cbn. rewrite Hfs. cbn.
    exists (t' :: fs). split; [done|]. split; [by cbn; rewrite Hlen|].
    intros [|i] t0 s0; cbn.
    + intros [= <-] [= <-]. by exists t'.
    + apply IH.
Qed.

Lemma transplant_named_copied (visited paths : list string)
    (tl0 cur : gmap string state_dict) (self : gmap string passport_module) :
  (∀ path, path ∈ paths → path ∈ visited) →
  (∀ path, path ∈ visited →
     ∃ t0 t s, tl0 !! path = Some t0 ∧ cur !! path = Some t
       ∧ self !! path = Some s ∧ compatible t s ∧ copied t0 t s) →
  ∃ tl', transplant_named paths cur self = Ok tl'
    ∧ ∀ path, path ∈ visited →
        ∃ t0 t s, tl0 !! path = Some t0 ∧ tl' !! path = Some t
          ∧ self !! path = Some s ∧ compatible t s ∧ copied t0 t s.
Proof.
  revert cur. induction paths as [|path0 paths IH]; intros cur Hsub Hinv; cbn.
  - by exists cur.
  - destruct (Hinv path0) as (t0 & t & s & Ht0 & Ht & Hs & Hc & Hcop);
      [apply Hsub; left|].
    unfold named_module. rewrite Ht, Hs. cbn.
    destruct (transplant_copied t0 t s Hc Hcop) as (t' & Ht' & Hc' & _ & Hcop').
    rewrite Ht'. cbn. apply IH.
    + intros path Hin. apply Hsub. by right.
    + intros path Hin. destruct (decide (path = path0)) as [->|Hne].
      * exists t0, t', s. by rewrite lookup_insert_eq.
      * destruct (Hinv path Hin) as (u0 & u & r & ? & ? & ? & ? & ?).
        exists u0, u, r. by rewrite lookup_insert_ne.
Qed.

(** C8: when the strict load of the whole state dict fails on models of
    matching architecture, the transplant still returns: it loads module
    by module, non-strictly where the strict load of the module fails.
    Every module it visits then holds the tensors of the passport model
    in the entries the two modules share and keeps its other entries, and
    every passport layer it visits has its [get_scale()] and
    [get_bias()] in the batch-norm weight and bias of the clone. *)
Theorem strict_load_failure_is_recovered (a : arch)
    (passport_settings : list (string * cfg_entry))
    (tl : CloneNet) (self : PassportNet) :
  (load_model tl self).2 = false →
  matching a passport_settings tl self →
  ∃ tl', transfer_learning a passport_settings tl self = Ok tl'
    ∧ reconstructed a passport_settings tl' self
    ∧ recovered a passport_settings tl tl' self.
Proof.
  intros Hfail Hm. unfold transfer_learning. rewrite Hfail.
  destruct a; unfold matching in Hm; unfold reconstructed, recovered.
  - destruct (transplant_features_run (c_features (load_model tl self).1)
                (p_features self)) as (fs & Hfs & Hall).
    { exact (load_features_compatible _ _ Hm). }
    destruct (transplant_features_copied (c_features tl) (p_features self) Hm)
      as (fs' & Hfs' & Hlen & Hcop).
    change (load_features (c_features tl) (p_features self)).1
      with (c_features (load_model tl self).1) in Hfs'.
    assert (fs' = fs) as -> by congruence.
    rewrite Hfs. eexists. split; [done|]. cbn [c_features].
    split; [|done].
    intros i s Hs. destruct (Forall2_lookup_r _ _ _ _ _ Hall Hs) as (t & Ht & Htr).
    by exists t.
  - assert (Hbase : ∀ path, path ∈ config_paths passport_settings →
              ∃ t0 t s, c_named tl !! path = Some t0
                ∧ c_named (load_model tl self).1 !! path = Some t
                ∧ p_named self !! path = Some s
                ∧ compatible t s ∧ copied t0 t s).
    { intros path Hin. destruct (Hm path Hin) as (t & s & Ht & Hs & Hc).
      exists t, (load_state_dict t (pm_state s) true).1, s.
      unfold load_model. cbn [c_named fst].
      rewrite map_lookup_imap, Ht. cbn [mbind option_bind].
      unfold named_sd. rewrite Hs. cbn [fmap option_fmap option_map default].
      split; [done|]. split; [done|]. split; [done|].
      split; [exact (compatible_load t s true Hc)|apply load_copied, Hc]. }
    destruct (transplant_named_run (config_paths passport_settings)
                (c_named (load_model tl self).1) (p_named self))
      as (named & Hrun & Hall).
    { intros path Hin. destruct (Hbase path Hin) as (_ & t & s & _ & ? & ? & ? & _).
      by exists t, s. }
    destruct (transplant_named_copied (config_paths passport_settings)
                (config_paths passport_settings) (c_named tl)
                (c_named (load_model tl self).1) (p_named self))
      as (named' & Hrun' & Hcop); [done|exact Hbase|].
    assert (named' = named) as -> by congruence.
    rewrite Hrun. eexists. split; [done|]. cbn [c_named]. split.
    + intros path s Hin Hs. apply Hall; [done|by left].
    + intros path t0 s Hin Ht0 Hs.
      destruct (Hcop path Hin) as (u0 & u & r & Hu0 & Hu & Hr & _ & Hcu).
      assert (u0 = t0) as -> by congruence. assert (r = s) as -> by congruence.
      destruct (Hall path s Hs) as (u' & Hu' & Htr); [by left|].
      assert (u' = u) as -> by congruence.
      by exists u.
Qed.

Lemma strict_load_failure_is_recovered_witness :
  ∃ tl', transfer_learning alexnet [] TransferExample.clone
           TransferExample.passport_net = Ok tl'
    ∧ ∃ t, c_features tl' !! 0%nat = Some t
        ∧ t !! "conv.weight"%string = Some [3; 4]%Q
        ∧ t !! "bn.weight"%string = Some [5; -6]%Q
        ∧ t !! "bn.bias"%string = Some [7; 8]%Q.
Proof.
  destruct (strict_load_failure_is_recovered alexnet [] TransferExample.clone
              TransferExample.passport_net) as (tl' & Hrun & _ & _ & Hrec).
  - by vm_compute.
  - constructor; [|constructor; [|constructor]].
    + split; [apply (bool_decide_unpack _); by vm_compute|].
      split; [by exists [1; 1]%Q|]. split; [by exists [0; 0]%Q|done].
    + split; [apply (bool_decide_unpack _); by vm_compute|done].
  - exists tl'. split; [done|].
    destruct (Hrec 0%nat _ TransferExample.passport_layer eq_refl eq_refl)
      as (t & Ht & [_ Hcop] & Hw & Hb).
    exists t. split; [exact Ht|]. split; [|split; [exact Hw|exact Hb]].
    rewrite (Hcop "conv.weight"%string [1; 2]%Q).
    + vm_compute. reflexivity.
    + vm_compute. reflexivity.
    + intros _. split; discriminate.
Defined.

End TransferTheorems.

(** * Further properties of the attack *)

Section LoopLayers.
Import Tensor Flip Attack Spec.

Lemma flipped_below (w : list Q) (idxs : list Z) :
  flipped w (below (length w) idxs) = flipped w idxs.
Proof.
  apply list_eq. intros i. rewrite !lookup_flipped.
  destruct (w !! i) as [x|] eqn:Hx; [|done]. cbn. f_equal.
  apply lookup_lt_Some in Hx.
  destruct (decide (Z.of_nat i ∈ idxs)) as [Hin|Hin].
  - rewrite !bool_decide_eq_true_2; [done..|].
    apply elem_of_below. split; [done|lia].
  - rewrite !bool_decide_eq_false_2; [done..|].
    intros Hb. by apply elem_of_below in Hb as [? _].
Qed.

Lemma data_of_insert_eq (m : Model) (k : pkey) (p : Param) :
  data_of (<[k := p]> m) k = data p.
Proof. unfold data_of. by rewrite lookup_insert_eq. Qed.

(** The loop over distinct layers leaves in every layer the sign pattern
    of the weight it found there, negated at the local indices the layer
    consumed. *)
Lemma flip_loop_layers (ws : list pkey) (m : Model) (idxs : list Z) :
  NoDup ws →
  Forall (λ w, is_Some (m !! w)) ws →
  Forall (λ idx, 0 ≤ idx) idxs →
  ∃ st, flip_loop ws m idxs = Ok st
    ∧ length (st_log st) = length ws
    ∧ ∀ l w loc, ws !! l = Some w → st_log st !! l = Some loc →
        data_of (st_model st) w = flipped (data_of m w) loc.
Proof.
  intros Hnd Hws Hnn. unfold flip_loop.
  cut (∃ st, for_each flip_body ws
               {| st_model := m; st_idxs := idxs; st_sim := Num 0; st_log := [] |}
             = Ok st
         ∧ reshaped (λ k, k ∈ ws) m (st_model st)
         ∧ Forall (λ idx, 0 ≤ idx) (st_idxs st)
         ∧ length (st_log st) = length ws
         ∧ ∀ (l : nat) w loc, ws !! l = Some w → st_log st !! l = Some loc →
             data_of (st_model st) w = flipped (data_of m w) loc).
  { intros (st & Hrun & _ & _ & Hlen & Hall). by exists st. }
  apply (for_each_inv flip_body
    (λ done st, reshaped (λ k, k ∈ done) m (st_model st)
       ∧ Forall (λ idx, 0 ≤ idx) (st_idxs st)
       ∧ length (st_log st) = length done
       ∧ ∀ (l : nat) w loc, done !! l = Some w → st_log st !! l = Some loc →
           data_of (st_model st) w = flipped (data_of m w) loc)).
  - cbn. split; [|done].
    intros k. destruct (m !! k) as [p|]; [|done].
    split; [|done]. exists (data p). by destruct p.
  - intros done x todo st Hxs (Hre & Hidx & Hlen & Hall).
    assert (Hx : x ∉ done).
    { rewrite Hxs in Hnd. apply NoDup_app in Hnd as (_ & Hd & _).
      intros Hin. apply (Hd x Hin). left. }
    rewrite Forall_forall in Hws.
    destruct (Hws x) as [p Hp].
    { rewrite Hxs. apply elem_of_app. right. left. }
    assert (Hcur : st_model st !! x = Some p)
      by (by rewrite (reshaped_lookup _ _ _ _ Hre Hx)).
    eexists. split; [by apply flip_body_nonneg|].
    cbn [st_model st_idxs st_log].
    split; [apply reshaped_snoc; [done..|apply length_flipped]|].
    split; [apply rest_nonneg|].
    split; [rewrite !length_app, Hlen; done|].
    intros l w loc Hw Hloc.
    destruct (decide (l < length done)%nat) as [Hl|Hl].
    + rewrite lookup_app_l in Hw by done.
      rewrite lookup_app_l in Hloc by lia.
      rewrite data_of_insert_ne; [by apply (Hall l)|].
      intros ->. apply Hx. by eapply list_elem_of_lookup_2.
    + assert (l = length done) as ->.
      { apply lookup_lt_Some in Hw. rewrite length_app in Hw. cbn in Hw. lia. }
      rewrite list_lookup_middle in Hw by done. injection Hw as <-.
      rewrite list_lookup_middle in Hloc by done. injection Hloc as <-.
      rewrite data_of_insert_eq. cbn [data set_data].
      unfold data_of at 1. rewrite Hp. symmetry. apply flipped_below.
Qed.

End LoopLayers.

(** ** The stages of [run_attack_2] *)

Section Stages.
Import Tensor Flip Attack Spec.

Lemma for_each_app {A S : Type} (body : S → A → result S) (xs ys : list A) (s : S) :
  for_each body (xs ++ ys) s = for_each body xs s ≫= for_each body ys.
Proof.
  revert s. induction xs as [|x xs IH]; intros s; cbn; [done|].
  destruct (body s x) as [s'|e]; cbn; [apply IH|done].
Qed.

Lemma attackable_app_l (pm : Passport) (done todo : list string) (m : Model) :
  attackable pm (done ++ todo) m → attackable pm done m.
Proof. intros H f Hf. apply H, elem_of_app. by left. Qed.

(** After the loading loop the affine parameters of the layers hold the
    scale and the bias of the passport model. *)
Lemma load_loop_data (pm : Passport) (plkeys : list string) (m0 : Model) :
  attackable pm plkeys m0 →
  ∃ m, for_each (load_affine pm) plkeys m0 = Ok m
    ∧ ∀ f s t, f ∈ plkeys → get_scale pm f = Ok s → get_bias pm f = Ok t →
        data_of m (bn_weight f) = s ∧ data_of m (bn_bias f) = t.
Proof.
  induction plkeys as [|f done IH] using rev_ind; intros Hatt.
  - exists m0. split; [done|]. intros f s t Hf. by apply not_elem_of_nil in Hf.
  - destruct (IH (attackable_app_l _ _ _ _ Hatt)) as (m1 & Hrun1 & Hdata).
    destruct (load_loop_run pm done m0 (attackable_app_l _ _ _ _ Hatt))
      as (m1' & Hrun1' & Hl).
    assert (m1' = m1) as -> by congruence.
    destruct (Hatt f) as (w0 & b0 & s & t & Hw0 & Hb0 & Hs & Hls & Ht & Hlt).
    { apply elem_of_app. right. left. }
    pose proof (Hl (bn_weight f)) as Hw. rewrite Hw0 in Hw.
    destruct (m1 !! bn_weight f) as [w|] eqn:Hmw; [|done].
    pose proof (Hl (bn_bias f)) as Hb. rewrite Hb0 in Hb.
    destruct (m1 !! bn_bias f) as [b|] eqn:Hmb; [|done].
    destruct Hw as (_ & _ & Hwl & _), Hb as (_ & _ & Hbl & _).
    eexists. split.
    { rewrite for_each_app, Hrun1. cbn.
      rewrite (load_affine_run pm m1 f w b s t) by (done || congruence). done. }
    intros g s' t' Hg Hs' Ht'.
    destruct (decide (g = f)) as [->|Hne].
    + assert (s' = s) as -> by congruence. assert (t' = t) as -> by congruence.
      unfold data_of. rewrite lookup_insert_ne by apply not_eq_sym, bn_weight_ne_bias.
      by rewrite !lookup_insert_eq.
    + apply elem_of_app in Hg as [Hg|Hg]; [|by apply list_elem_of_singleton in Hg].
      destruct (Hdata g s' t' Hg Hs' Ht') as [<- <-].
      unfold data_of, bn_weight, bn_bias.
      rewrite !lookup_insert_ne by congruence. done.
Qed.

Lemma loaded_size_of (done : list string) (m0 m : Model) (k : pkey) :
  loaded done m0 m → size_of m k = size_of m0 k.
Proof.
  intros H. specialize (H k). unfold size_of.
  destruct (m0 !! k), (m !! k); try done. by destruct H as (_ & _ & ? & _).
Qed.

Lemma collected_size_of (done : list string) (m0 m : Model) (k : pkey) :
  collected done m0 m → size_of m k = size_of m0 k.
Proof.
  intros H. specialize (H k). unfold size_of.
  destruct (m0 !! k), (m !! k); try done. destruct H as (_ & _ & _ & ->).
  destruct (decide (bias_of done k)); [apply length_zero_|done].
Qed.

Lemma freeze_size_of (m : Model) (k : pkey) : size_of (freeze m) k = size_of m k.
Proof. unfold size_of, freeze. rewrite lookup_fmap. by destruct (m !! k). Qed.

Lemma collected_weight (done : list string) (m0 m : Model) (f : string) :
  collected done m0 m → data_of m (bn_weight f) = data_of m0 (bn_weight f).
Proof.
  intros H. specialize (H (bn_weight f)). unfold data_of.
  destruct (m0 !! bn_weight f), (m !! bn_weight f); try done.
  destruct H as (_ & _ & _ & ->).
  by rewrite decide_False by apply not_bias_of_weight.
Qed.

(** The run on an attackable model, stage by stage. *)
Lemma run_attack_2_stages (pm : Passport) (plkeys : list string) (fraction : Q)
    (randidxs : list Z) (model : Model) :
  attackable pm plkeys model → plkeys ≠ [] →
  Forall (λ idx, 0 ≤ idx) randidxs →
  ∃ m2 pr st sim,
    for_each (load_affine pm) plkeys (freeze model) = Ok m2
    ∧ loaded plkeys (freeze model) m2
    ∧ collected plkeys m2 (pr_model pr)
    ∧ conv_weights_to_reset pr = bn_weight <$> plkeys
    ∧ Forall (λ w, is_Some (pr_model pr !! w)) (bn_weight <$> plkeys)
    ∧ total_weight_size pr
      = sum_list (layer_sizes model (bn_weight <$> plkeys))
    ∧ flip_loop (bn_weight <$> plkeys) (pr_model pr)
        (select (total_weight_size pr) fraction randidxs) = Ok st
    ∧ report (st_sim st) (length plkeys) = Ok sim
    ∧ run_attack_2 pm plkeys fraction randidxs model
      = Ok {| out_model := st_model st; out_left := st_idxs st;
              out_log := st_log st; out_similarity := sim |}.
Proof.
  intros Hatt Hne Hnn.
  destruct (load_loop_run pm plkeys (freeze model) (attackable_freeze _ _ _ Hatt))
    as (m2 & Hload & Hl).
  assert (Hpres2 : ∀ f, f ∈ plkeys →
            is_Some (m2 !! bn_weight f) ∧ is_Some (m2 !! bn_bias f)).
  { intros f Hf.
    destruct (attackable_freeze _ _ _ Hatt f Hf) as (w & b & _ & _ & Hw & Hb & _).
    pose proof (Hl (bn_weight f)) as H1. pose proof (Hl (bn_bias f)) as H2.
    rewrite Hw in H1. rewrite Hb in H2.
    destruct (m2 !! bn_weight f), (m2 !! bn_bias f); done. }
  destruct (collect_loop_run plkeys m2 Hpres2) as (pr & Hcol & Hc & Hrefs & Htot).
  assert (Hpres3 : Forall (λ w, is_Some (pr_model pr !! w)) (bn_weight <$> plkeys)).
  { rewrite Forall_forall. intros k (f & -> & Hf)%list_elem_of_fmap.
    destruct (Hpres2 f Hf) as [[w Hw] _]. pose proof (Hc (bn_weight f)) as H1.
    rewrite Hw in H1. destruct (pr_model pr !! bn_weight f); [eauto|done]. }
  destruct (flip_loop_run (bn_weight <$> plkeys) (pr_model pr)
              (select (total_weight_size pr) fraction randidxs) Hpres3
              (select_Forall _ _ _ _ Hnn))
    as (st & Hflip & _).
  assert (∃ sim, report (st_sim st) (length plkeys) = Ok sim) as [sim Hrep].
  { destruct plkeys; [done|]. cbn. eauto. }
  exists m2, pr, st, sim. repeat split; try done.
  - rewrite Htot. unfold layer_sizes. f_equal. apply list_fmap_ext.
    intros i k _. by rewrite (loaded_size_of _ _ _ _ Hl), freeze_size_of.
  - unfold run_attack_2. rewrite Hload. cbn. rewrite Hcol. cbn.
    rewrite Hrefs, Hflip. cbn. rewrite length_fmap, Hrep. done.
Qed.

End Stages.

(** ** The attack as a whole: weights, pool and parameters *)

Section RunProperties.
Import Tensor Flip Attack Spec.

Lemma bn_weight_inj : Inj (=) (=) bn_weight.
Proof. intros f g H. by injection H. Qed.

Lemma run_sizes (plkeys done1 done2 : list string) (model m2 m3 : Model)
    (ws : list pkey) :
  loaded done1 (freeze model) m2 → collected done2 m2 m3 →
  layer_sizes m3 ws = layer_sizes model ws.
Proof.
  intros Hl Hc. unfold layer_sizes. apply list_fmap_ext. intros i k _.
  by rewrite (collected_size_of _ _ _ _ Hc), (loaded_size_of _ _ _ _ Hl),
    freeze_size_of.
Qed.

(** X1: When the similarity is printed, the batch-norm weight of every
    attacked layer holds the signs of the scale of the passport model,
    negated at the local indices the layer consumed: every entry is -1, 0
    or 1, and the magnitudes of the scale are gone. *)
Theorem attacked_weights_are_flipped_signs (pm : Passport) (plkeys : list string)
    (fraction : Q) (randidxs : list Z) (model : Model) :
  attackable pm plkeys model → plkeys ≠ [] → NoDup plkeys →
  Forall (λ idx, 0 ≤ idx) randidxs →
  ∃ out, run_attack_2 pm plkeys fraction randidxs model = Ok out
    ∧ length (out_log out) = length plkeys
    ∧ ∀ (l : nat) f s loc, plkeys !! l = Some f → get_scale pm f = Ok s →
        out_log out !! l = Some loc →
        data_of (out_model out) (bn_weight f) = flipped s loc.
Proof.
  intros Hatt Hne Hnd Hnn.
  destruct (run_attack_2_stages pm plkeys fraction randidxs model Hatt Hne Hnn)
    as (m2 & pr & st & sim & Hload & Hl & Hc & Hrefs & Hpres & Htot & Hflip & Hrep & Hrun).
  destruct (load_loop_data pm plkeys (freeze model) (attackable_freeze _ _ _ Hatt))
    as (m2' & Hload' & Hdata).
  assert (m2' = m2) as -> by congruence.
  destruct (flip_loop_layers (bn_weight <$> plkeys) (pr_model pr)
              (select (total_weight_size pr) fraction randidxs))
    as (st' & Hflip' & Hlen & Hall).
  { apply (NoDup_fmap_2 _), Hnd. }
  { done. }
  { by apply select_Forall. }
  assert (st' = st) as -> by congruence.
  eexists. split; [exact Hrun|]. cbn [out_log out_model].
  split; [by rewrite Hlen, length_fmap|].
  intros l f s loc Hf Hs Hloc.
  rewrite (Hall l (bn_weight f) loc); [|by rewrite list_lookup_fmap, Hf|done].
  f_equal. rewrite (collected_weight _ _ _ f Hc).
  destruct (Hatt f) as (_ & _ & s' & t & _ & _ & Hs' & _ & Ht & _).
  { by eapply list_elem_of_lookup_2. }
  assert (s' = s) as -> by congruence.
  apply (Hdata f s t); [by eapply list_elem_of_lookup_2|done..].
Qed.

Lemma attacked_weights_are_flipped_signs_witness :
  ∃ out, run_attack_2 Example.passport Example.plkeys (1 # 2) [3; 0; 4; 1; 2]
           Example.model = Ok out
    ∧ data_of (out_model out) (bn_weight "0") = [-1; -1]%Q.
Proof.
  destruct (attacked_weights_are_flipped_signs Example.passport Example.plkeys
              (1 # 2) [3; 0; 4; 1; 2] Example.model)
    as (out & Hrun & Hlen & Hall).
  - exact example_attackable.
  - done.
  - apply (bool_decide_unpack _). by vm_compute.
  - repeat constructor; lia.
  - exists out. split; [done|].
    rewrite (Hall 0%nat "0"%string [5 # 2; -3]%Q [0]); [done..|].
    vm_compute in Hrun. by injection Hrun as <-.
Defined.



(** X2: With the permutation of the total channel count that
    [torch.randperm] hands out, the pool is empty when the loop of
    [run_attack_2] ends, whatever the fraction, and the layers have
    consumed exactly the selected indices. *)
Theorem attack_exhausts_pool (pm : Passport) (plkeys : list string)
    (fraction : Q) (randidxs : list Z) (model : Model) :
  attackable pm plkeys model → plkeys ≠ [] →
  randperm (sum_list (layer_sizes model (bn_weight <$> plkeys))) randidxs →
  ∃ out, run_attack_2 pm plkeys fraction randidxs model = Ok out
    ∧ out_left out = []
    ∧ sum_list (length <$> out_log out)
      = length (select (sum_list (layer_sizes model (bn_weight <$> plkeys)))
                  fraction randidxs).
Proof.
  intros Hatt Hne Hperm.
  pose proof (randperm_range _ _ Hperm) as Hrange.
  assert (Hnn : Forall (λ idx, 0 ≤ idx) randidxs).
  { eapply Forall_impl; [exact Hrange|]. cbn. lia. }
  destruct (run_attack_2_stages pm plkeys fraction randidxs model Hatt Hne Hnn)
    as (m2 & pr & st & sim & Hload & Hl & Hc & Hrefs & Hpres & Htot & Hflip & Hrep & Hrun).
  destruct (flip_loop_run (bn_weight <$> plkeys) (pr_model pr)
              (select (total_weight_size pr) fraction randidxs) Hpres
              (select_Forall _ _ _ _ Hnn))
    as (st' & Hflip' & Hlog & Hleft & _).
  assert (st' = st) as -> by congruence.
  fold (layer_sizes (pr_model pr) (bn_weight <$> plkeys)) in Hlog, Hleft.
  rewrite (run_sizes plkeys _ _ _ _ _ _ Hl Hc) in Hlog, Hleft.
  rewrite Htot in Hlog, Hleft.
  set (total := sum_list (layer_sizes model (bn_weight <$> plkeys))) in *.
  assert (Hnil : st_idxs st = []).
  { rewrite Hleft, consume_left by (by apply select_Forall).
    apply rest_empty. apply select_Forall.
    eapply Forall_impl; [exact Hrange|]. cbn. lia. }
  eexists. split; [exact Hrun|]. cbn [out_left out_log]. split; [done|].
  pose proof (consume_count (layer_sizes model (bn_weight <$> plkeys))
                (select total fraction randidxs)) as Hcount.
  rewrite <- Hlog, <- Hleft, Hnil in Hcount. cbn in Hcount. lia.
Qed.

Lemma attack_exhausts_pool_witness :
  ∃ out, run_attack_2 Example.passport Example.plkeys (3 # 5) [3; 0; 4; 1; 2]
           Example.model = Ok out
    ∧ out_left out = [].
Proof.
  destruct (attack_exhausts_pool Example.passport Example.plkeys (3 # 5)
              [3; 0; 4; 1; 2] Example.model) as (out & Hrun & Hleft & _).
  - exact example_attackable.
  - done.
  - unfold randperm. apply (bool_decide_unpack _). by vm_compute.
  - exists out. split; [exact Hrun|exact Hleft].
Defined.

(** X3: The attack adds and removes no parameter, keeps every shape, and
    leaves gradients and optimizer state as they were. *)
Theorem attack_keeps_parameters_and_shapes (pm : Passport) (plkeys : list string)
    (fraction : Q) (randidxs : list Z) (model : Model) :
  attackable pm plkeys model → plkeys ≠ [] →
  Forall (λ idx, 0 ≤ idx) randidxs →
  ∃ out, run_attack_2 pm plkeys fraction randidxs model = Ok out
    ∧ dom (out_model out) = dom model
    ∧ ∀ k p p', model !! k = Some p → out_model out !! k = Some p' →
        length (data p') = length (data p)
        ∧ grad p' = grad p ∧ momentum_buffer p' = momentum_buffer p.
Proof.
  intros Hatt Hne Hnn.
  destruct (run_attack_2_run pm plkeys fraction randidxs model Hatt Hne Hnn)
    as (out & Hrun & Heff).
  exists out. split; [done|]. split.
  - apply set_eq. intros k. rewrite !elem_of_dom. specialize (Heff k).
    destruct (model !! k), (out_model out !! k); try done;
      split; intros [? ?]; by eauto.
  - intros k p p' Hp Hp'. specialize (Heff k). rewrite Hp, Hp' in Heff.
    by destruct Heff as (? & ? & ? & _).
Qed.

Lemma attack_keeps_parameters_and_shapes_witness :
  ∃ out, run_attack_2 Example.passport Example.plkeys (1 # 2) [3; 0; 4; 1; 2]
           Example.model = Ok out
    ∧ dom (out_model out) = dom Example.model.
Proof.
  destruct (attack_keeps_parameters_and_shapes Example.passport Example.plkeys
              (1 # 2) [3; 0; 4; 1; 2] Example.model) as (out & Hrun & Hdom & _).
  - exact example_attackable.
  - done.
  - repeat constructor; lia.
  - exists out. split; [exact Hrun|exact Hdom].
Defined.

End RunProperties.

(** ** Fractions outside [0, 1] *)

Section FractionEdges.
Import Tensor Flip Attack Spec.

Lemma select_all (total : nat) (f : Q) (randidxs : list Z) :
  randperm total randidxs → Z.of_nat total ≤ 2 ^ 53 → (1 <= f)%Q →
  select total f randidxs = randidxs.
Proof.
  intros Hp Ht Hf.
  assert (H0 : (0 <= f)%Q) by (eapply Qle_trans; [|exact Hf]; done).
  rewrite select_take by done.
  pose proof (flip_product_ge total f Ht Hf) as Hge.
  rewrite py_int_floor by (by apply flip_product_nonneg).
  apply Qfloor_resp_le in Hge. rewrite Qfloor_Z in Hge.
  apply take_ge. rewrite (randperm_length _ _ Hp). lia.
Qed.

(** Flipping at every local index negates every sign. *)
Lemma flipped_all (w : list Q) (loc : list Z) :
  (∀ i : nat, (i < length w)%nat → Z.of_nat i ∈ loc) →
  flipped w loc = (λ x, (sign x * -1)%Q) <$> w.
Proof.
  intros Hall. apply list_eq. intros i.
  rewrite lookup_flipped, list_lookup_fmap.
  destruct (w !! i) as [x|] eqn:Hx; [|done]. cbn.
  by rewrite bool_decide_eq_true_2 by (by eapply Hall, lookup_lt_Some).
Qed.

Lemma size_of_data_of (m : Model) (k : pkey) :
  size_of m k = length (data_of m k).
Proof. unfold size_of, data_of. by destruct (m !! k). Qed.

(** X4: With a fraction of one or more, and no overflow in the product,
    the whole permutation is selected and every channel of every attacked
    layer is flipped: the run returns, the pool is used up, and the
    batch-norm weight of every layer is the negated sign of its scale. *)
Theorem fraction_one_flips_every_channel (pm : Passport) (plkeys : list string)
    (fraction : Q) (randidxs : list Z) (model : Model) :
  attackable pm plkeys model → plkeys ≠ [] → NoDup plkeys →
  randperm (sum_list (layer_sizes model (bn_weight <$> plkeys))) randidxs →
  (1 <= fraction)%Q →
  Z.of_nat (sum_list (layer_sizes model (bn_weight <$> plkeys))) ≤ 2 ^ 53 →
  no_overflow (sum_list (layer_sizes model (bn_weight <$> plkeys))) fraction →
  select (sum_list (layer_sizes model (bn_weight <$> plkeys))) fraction randidxs
    = randidxs
  ∧ ∃ out, run_attack_2 pm plkeys fraction randidxs model = Ok out
      ∧ out_left out = []
      ∧ ∀ f s, f ∈ plkeys → get_scale pm f = Ok s →
          data_of (out_model out) (bn_weight f) = (λ x, (sign x * -1)%Q) <$> s.
Proof.
  intros Hatt Hne Hnd Hperm Hf Ht _.
  pose proof (select_all _ _ _ Hperm Ht Hf) as Hsel. split; [done|].
  pose proof (randperm_range _ _ Hperm) as Hrange.
  assert (Hnn : Forall (λ idx, 0 ≤ idx) randidxs).
  { eapply Forall_impl; [exact Hrange|]. cbn. lia. }
  destruct (run_attack_2_stages pm plkeys fraction randidxs model Hatt Hne Hnn)
    as (m2 & pr & st & sim & Hload & Hl & Hc & Hrefs & Hpres & Htot & Hflip & Hrep & Hrun).
  destruct (load_loop_data pm plkeys (freeze model) (attackable_freeze _ _ _ Hatt))
    as (m2' & Hload' & Hdata).
  assert (m2' = m2) as -> by congruence.
  rewrite Htot, Hsel in Hflip.
  destruct (flip_loop_layers (bn_weight <$> plkeys) (pr_model pr) randidxs)
    as (st' & Hflip' & Hlen & Hall); [apply (NoDup_fmap_2 _), Hnd|done..|].
  assert (st' = st) as -> by congruence.
  destruct (flip_loop_run (bn_weight <$> plkeys) (pr_model pr) randidxs Hpres Hnn)
    as (st' & Hflip'' & Hlog & Hleft & _).
  assert (st' = st) as -> by congruence.
  fold (layer_sizes (pr_model pr) (bn_weight <$> plkeys)) in Hlog, Hleft.
  rewrite (run_sizes plkeys _ _ _ _ _ _ Hl Hc) in Hlog, Hleft.
  set (sizes := layer_sizes model (bn_weight <$> plkeys)) in *.
  eexists. split; [exact Hrun|]. cbn [out_left out_model]. split.
  { rewrite Hleft, consume_left by done. apply rest_empty.
    eapply Forall_impl; [exact Hrange|]. cbn. lia. }
  intros f s Hin Hs.
  destruct (list_elem_of_lookup_1 _ _ Hin) as [l Hlf].
  assert (Hw : (bn_weight <$> plkeys) !! l = Some (bn_weight f))
    by (by rewrite list_lookup_fmap, Hlf).
  assert (is_Some (st_log st !! l)) as [loc Hloc].
  { apply lookup_lt_is_Some. rewrite Hlen. by eapply lookup_lt_Some. }
  assert (Hs' : data_of (pr_model pr) (bn_weight f) = s).
  { rewrite (collected_weight _ _ _ f Hc).
    destruct (Hatt f Hin) as (_ & _ & s' & t & _ & _ & Hs' & _ & Ht' & _).
    assert (s' = s) as -> by congruence.
    by apply (Hdata f s t). }
  rewrite (Hall l (bn_weight f) loc Hw Hloc), Hs'.
  apply flipped_all. intros i Hi.
  assert (Hc' : sizes !! l = Some (length s)).
  { unfold sizes, layer_sizes. rewrite list_lookup_fmap, Hw. cbn.
    rewrite <- Hs', <- size_of_data_of. f_equal.
    assert (Heq : layer_sizes (pr_model pr) [bn_weight f]
                  = layer_sizes model [bn_weight f])
      by apply (run_sizes plkeys _ _ _ _ _ _ Hl Hc).
    by injection Heq. }
  rewrite Hlog in Hloc.
  apply (consume_elem_of sizes randidxs l (length s) loc _ Hnn Hloc Hc').
  split; [lia|].
  pose proof (offset_total sizes l (length s) Hc') as Htotal.
  unfold randperm in Hperm. rewrite Hperm. apply list_elem_of_fmap.
  exists (Z.to_nat (offset sizes l + Z.of_nat i)).
  assert (0 ≤ offset sizes l) by (unfold offset; lia).
  split; [lia|]. apply elem_of_seq. fold sizes. lia.
Qed.

Lemma fraction_one_flips_every_channel_witness :
  select 5 (3 # 2) [3; 0; 4; 1; 2] = [3; 0; 4; 1; 2]
  ∧ ∃ out, run_attack_2 Example.passport Example.plkeys (3 # 2) [3; 0; 4; 1; 2]
             Example.model = Ok out
      ∧ out_left out = []
      ∧ data_of (out_model out) (bn_weight "0") = [-1; 1]%Q.
Proof.
  destruct (fraction_one_flips_every_channel Example.passport Example.plkeys
              (3 # 2) [3; 0; 4; 1; 2] Example.model)
    as (Hsel & out & Hrun & Hleft & Hall).
  - exact example_attackable.
  - done.
  - apply (bool_decide_unpack _). by vm_compute.
  - unfold randperm. apply (bool_decide_unpack _). by vm_compute.
  - unfold Qle. cbn. lia.
  - by vm_compute.
  - repeat split; by vm_compute.
  - split; [exact Hsel|]. exists out. split; [exact Hrun|].
    split; [exact Hleft|].
    rewrite (Hall "0"%string [5 # 2; -3]%Q); [by vm_compute| |done].
    apply list_elem_of_In. by left.
Defined.

Lemma py_int_nonpos (x : Q) : (x <= 0)%Q → py_int x = - Qfloor (- x).
Proof.
  destruct x as [n d]. unfold Qle, py_int. cbn. intros H.
  replace n with (- - n) at 1 by lia.
  rewrite Z.quot_opp_l by lia. f_equal. apply Z.quot_div_nonneg; lia.
Qed.

(** X5: A negative fraction raises no error either. The double product
    [p = total × fraction] is negative or zero, and with [k = -int(p)],
    the integer part of [-p], the slice [randidxs[:-k]] drops the last
    [k] entries of the permutation when [k] is positive, and the slice
    [randidxs[:0]] is empty when [k] is zero: a fraction just below zero
    selects nothing, a fraction of -0.7 selects 3 of 10 channels. *)
Theorem select_with_negative_fraction (total_size : nat) (fraction : Q)
    (randidxs : list Z) :
  randperm total_size randidxs → (fraction < 0)%Q →
  no_overflow total_size fraction →
  (flip_product total_size fraction <= 0)%Q
  ∧ py_int (flip_product total_size fraction)
    = - Qfloor (- flip_product total_size fraction)
  ∧ (Qfloor (- flip_product total_size fraction) = 0 →
     select total_size fraction randidxs = [])
  ∧ (0 < Qfloor (- flip_product total_size fraction) →
     select total_size fraction randidxs
     = take (Z.to_nat (Z.of_nat total_size
                       - Qfloor (- flip_product total_size fraction)))
         randidxs).
Proof.
  intros Hp Hf _.
  pose proof (flip_product_nonpos total_size fraction (Qlt_le_weak _ _ Hf)) as Hle.
  pose proof (py_int_nonpos _ Hle) as Hint.
  split; [done|]. split; [done|].
  unfold select, slice_to. rewrite Hint, (randperm_length _ _ Hp).
  split; intros Hk.
  - rewrite Hk. cbn. by rewrite bool_decide_eq_false_2 by lia.
  - rewrite bool_decide_eq_true_2 by lia. f_equal; f_equal; lia.
Qed.

Lemma select_with_negative_fraction_witness :
  select 10 (- (7 # 10)) [3; 0; 4; 9; 1; 2; 7; 5; 8; 6] = [3; 0; 4]
  ∧ select 8 (- (1 # 10)) [3; 0; 4; 1; 2; 7; 5; 6] = [].
Proof.
  assert (Hp10 : randperm 10 [3; 0; 4; 9; 1; 2; 7; 5; 8; 6]).
  { unfold randperm. apply (bool_decide_unpack _). by vm_compute. }
  assert (Hp8 : randperm 8 [3; 0; 4; 1; 2; 7; 5; 6]).
  { unfold randperm. apply (bool_decide_unpack _). by vm_compute. }
  split.
  - destruct (select_with_negative_fraction 10 (- (7 # 10))
                [3; 0; 4; 9; 1; 2; 7; 5; 8; 6] Hp10 eq_refl) as (_ & _ & _ & H).
    + repeat split; by vm_compute.
    + rewrite H by (by vm_compute). by vm_compute.
  - destruct (select_with_negative_fraction 8 (- (1 # 10))
                [3; 0; 4; 1; 2; 7; 5; 6] Hp8 eq_refl) as (_ & _ & H & _).
    + repeat split; by vm_compute.
    + apply H. by vm_compute.
Defined.

End FractionEdges.

(** ** When [run_attack_2] raises *)

Section RunErrors.
Import Tensor Flip Attack Train Spec.

(** X6: Without a passport layer the run goes through both set-up loops,
    draws an empty permutation, skips the flip loop and fails at the
    print: [sim] still is the integer 0 and is divided by the length 0. *)
Theorem run_attack_2_without_layers (pm : Passport) (fraction : Q)
    (randidxs : list Z) (model : Model) :
  run_attack_2 pm [] fraction randidxs model = Raise ZeroDivisionError.
Proof.
  unfold run_attack_2. cbn [for_each mbind result_bind].
  cbn [conv_weights_to_reset pr_model total_weight_size].
  unfold flip_loop. cbn [for_each mbind result_bind st_sim length].
  unfold report. done.
Qed.

Lemma param_is_Some (m : Model) (k : pkey) (p : Param) :
  param m k = Ok p → m !! k = Some p.
Proof. unfold param. destruct (m !! k); [by intros [= ->]|done]. Qed.

Lemma load_affine_returns (pm : Passport) (m m' : Model) (f : string) :
  load_affine pm m f = Ok m' →
  is_Some (m !! bn_weight f) ∧ is_Some (m !! bn_bias f)
  ∧ is_Ok (get_scale pm f) ∧ is_Ok (get_bias pm f)
  ∧ dom m' = dom m.
Proof.
  pose proof (bn_weight_ne_bias f f) as Hne.
  unfold load_affine, param. intros H.
  destruct (m !! bn_weight f) as [w|] eqn:Hw; [|done]. cbn in H.
  destruct (get_scale pm f) as [s|] eqn:Hs; [|done]. cbn in H.
  destruct (copy_ (data w) s) as [d|]; [|done]. cbn in H.
  rewrite lookup_insert_ne in H by done.
  destruct (m !! bn_bias f) as [b|] eqn:Hb; [|done]. cbn in H.
  destruct (get_bias pm f) as [t|] eqn:Ht; [|done]. cbn in H.
  destruct (copy_ (data b) t) as [d'|]; [|done]. cbn in H.
  rewrite lookup_insert_ne, lookup_insert_eq in H by done. cbn in H.
  rewrite lookup_insert_ne, lookup_insert_eq in H by done.
  cbn in H. injection H as <-.
  repeat split; try by eauto.
  - by exists s.
  - by exists t.
  - apply set_eq. intros k.
    rewrite !dom_insert_L, !elem_of_union, !elem_of_singleton.
    split; [|tauto].
    intros [->|[->|[->|[->|?]]]]; try done; apply elem_of_dom; eauto.
Qed.

Lemma load_loop_returns (pm : Passport) (plkeys : list string) (m m' : Model) :
  for_each (load_affine pm) plkeys m = Ok m' →
  ∀ f, f ∈ plkeys →
    is_Some (m !! bn_weight f) ∧ is_Some (m !! bn_bias f)
    ∧ is_Ok (get_scale pm f) ∧ is_Ok (get_bias pm f).
Proof.
  revert m. induction plkeys as [|g plkeys IH]; intros m Hrun f Hf.
  - by apply not_elem_of_nil in Hf.
  - cbn in Hrun. destruct (load_affine pm m g) as [m1|] eqn:Hg; [|done].
    cbn in Hrun. destruct (load_affine_returns _ _ _ _ Hg) as (? & ? & ? & ? & Hdom).
    apply elem_of_cons in Hf as [->|Hf]; [done|].
    destruct (IH m1 Hrun f Hf) as (Hw & Hb & ? & ?).
    repeat split; try done.
    + apply elem_of_dom. rewrite <- Hdom. by apply elem_of_dom.
    + apply elem_of_dom. rewrite <- Hdom. by apply elem_of_dom.
Qed.

Lemma collect_loop_refs (plkeys : list string) (st st' : prep_state) :
  for_each collect plkeys st = Ok st' →
  conv_weights_to_reset st'
  = conv_weights_to_reset st ++ (bn_weight <$> plkeys).
Proof.
  revert st. induction plkeys as [|f plkeys IH]; intros st Hrun; cbn in Hrun.
  - injection Hrun as <-. by rewrite app_nil_r.
  - destruct (collect st f) as [st1|] eqn:Hc; [|done]. cbn in Hrun.
    rewrite (IH st1 Hrun).
    assert (conv_weights_to_reset st1 = conv_weights_to_reset st ++ [bn_weight f])
      as ->; [|by rewrite <- app_assoc].
    unfold collect in Hc.
    destruct (param (pr_model st) (bn_weight f)); [|done]. cbn in Hc.
    destruct (param (pr_model st) (bn_bias f)); [|done]. cbn in Hc.
    destruct (param _ (bn_weight f)); [|done]. cbn in Hc.
    destruct (param _ (bn_bias f)); [|done]. cbn in Hc.
    by injection Hc as <-.
Qed.

(** X7: [run_attack_2] reaches the printed similarity only with at least one
    layer, and only if every layer has its batch-norm weight and bias in
    the model and the passport model returned its scale and bias. *)
Theorem run_attack_2_returns_only_if (pm : Passport) (plkeys : list string)
    (fraction : Q) (randidxs : list Z) (model : Model) (out : attack_out) :
  run_attack_2 pm plkeys fraction randidxs model = Ok out →
  plkeys ≠ []
  ∧ ∀ f, f ∈ plkeys →
      is_Some (model !! bn_weight f) ∧ is_Some (model !! bn_bias f)
      ∧ is_Ok (get_scale pm f) ∧ is_Ok (get_bias pm f).
Proof.
  unfold run_attack_2. intros Hrun.
  destruct (for_each (load_affine pm) plkeys (freeze model)) as [m2|] eqn:Hload;
    [|done].
  cbn in Hrun.
  destruct (for_each collect plkeys _) as [pr|] eqn:Hcol; [|done]. cbn in Hrun.
  destruct (flip_loop _ _ _) as [st|]; [|done]. cbn in Hrun.
  apply collect_loop_refs in Hcol. cbn in Hcol. rewrite Hcol, length_fmap in Hrun.
  split.
  - intros ->. done.
  - intros f Hf. destruct (load_loop_returns _ _ _ _ Hload f Hf) as (Hw & Hb & ? & ?).
    unfold freeze in Hw, Hb. rewrite lookup_fmap, fmap_is_Some in Hw, Hb. done.
Qed.

Lemma run_attack_2_returns_only_if_witness :
  Example.plkeys ≠ []
  ∧ ∀ f, f ∈ Example.plkeys →
      is_Some (Example.model !! bn_weight f) ∧ is_Some (Example.model !! bn_bias f)
      ∧ is_Ok (get_scale Example.passport f) ∧ is_Ok (get_bias Example.passport f).
Proof.
  destruct (run_attack_2_run Example.passport Example.plkeys (1 # 2)
              [3; 0; 4; 1; 2] Example.model example_attackable)
    as (out & Hrun & _).
  - done.
  - repeat constructor; lia.
  - exact (run_attack_2_returns_only_if Example.passport Example.plkeys (1 # 2)
             [3; 0; 4; 1; 2] Example.model out Hrun).
Defined.

Lemma sgd_param_requires_grad (p : Param) :
  requires_grad (sgd_param p) = requires_grad p.
Proof. unfold sgd_param. by destruct (grad p). Qed.

Lemma train_batch_requires_grad {Batch : Type}
    (autograd : Model → Batch → pkey → list Q) (m : Model) (b : Batch) (k : pkey) :
  requires_grad <$> train_batch autograd m b !! k = requires_grad <$> m !! k.
Proof.
  unfold train_batch, step, backward, zero_grad.
  rewrite lookup_fmap, map_lookup_imap, lookup_fmap.
  destruct (m !! k) as [p|]; [|done]. cbn. f_equal.
  rewrite sgd_param_requires_grad. by destruct (requires_grad p) eqn:E.
Qed.

Lemma fine_tune_requires_grad {Batch : Type}
    (autograd : Model → Batch → pkey → list Q) (epochs : list (list Batch))
    (m : Model) (k : pkey) :
  requires_grad <$> fine_tune autograd m epochs !! k = requires_grad <$> m !! k.
Proof.
  unfold fine_tune. revert m. induction epochs as [|e es IH]; intros m; [done|].
  cbn. rewrite IH. clear IH. unfold train. revert m.
  induction e as [|b bs IH]; intros m; [done|].
  cbn. by rewrite IH, train_batch_requires_grad.
Qed.

(** X8: Fine-tuning neither adds nor removes a parameter and never changes
    which parameters require a gradient: after the attack and any number
    of epochs, the trainable parameters still are exactly the batch-norm
    weights and biases of the attacked layers. *)
Theorem trainable_set_is_stable {Batch : Type}
    (autograd : Model → Batch → pkey → list Q) (pm : Passport)
    (plkeys : list string) (fraction : Q) (randidxs : list Z) (model : Model)
    (epochs : list (list Batch)) :
  attackable pm plkeys model → plkeys ≠ [] →
  Forall (λ idx, 0 ≤ idx) randidxs →
  ∃ out, run_attack_2 pm plkeys fraction randidxs model = Ok out
    ∧ dom (fine_tune autograd (out_model out) epochs) = dom model
    ∧ ∀ k p', fine_tune autograd (out_model out) epochs !! k = Some p' →
        requires_grad p' = true ↔ affine_of plkeys k.
Proof.
  intros Hatt Hne Hnn.
  destruct (run_attack_2_run pm plkeys fraction randidxs model Hatt Hne Hnn)
    as (out & Hrun & Heff).
  exists out. split; [done|]. split.
  - apply set_eq. intros k. rewrite !elem_of_dom.
    pose proof (fine_tune_requires_grad autograd epochs (out_model out) k) as Hk.
    specialize (Heff k).
    destruct (model !! k), (out_model out !! k),
      (fine_tune autograd (out_model out) epochs !! k); try done;
      split; intros [? ?]; by eauto.
  - intros k p' Hp'.
    pose proof (fine_tune_requires_grad autograd epochs (out_model out) k) as Hk.
    rewrite Hp' in Hk. specialize (Heff k).
    destruct (out_model out !! k) as [p1|]; [|done]. cbn in Hk.
    injection Hk as Hk. rewrite Hk.
    destruct (model !! k) as [p|]; [|done].
    destruct Heff as (_ & _ & _ & -> & _). apply bool_decide_eq_true.
Qed.

Lemma trainable_set_is_stable_witness :
  ∃ out, run_attack_2 Example.passport Example.plkeys (1 # 2) [3; 0; 4; 1; 2]
           Example.model = Ok out
    ∧ dom (fine_tune (λ _ (_ : unit) _, [1; 1; 1]%Q) (out_model out)
             [[tt; tt]; [tt]]) = dom Example.model.
Proof.
  destruct (trainable_set_is_stable (λ _ (_ : unit) _, [1; 1; 1]%Q)
              Example.passport Example.plkeys (1 # 2) [3; 0; 4; 1; 2]
              Example.model [[tt; tt]; [tt]])
    as (out & Hrun & Hdom & _).
  - exact example_attackable.
  - done.
  - repeat constructor; lia.
  - exists out. split; [exact Hrun|exact Hdom].
Defined.

End RunErrors.

(** ** Bounds of the similarity *)

Section SimilarityBounds.
Import Tensor Flip Attack Spec.

Lemma count_true_le (mask : list bool) : (count_true mask ≤ length mask)%nat.
Proof.
  unfold count_true. induction mask as [|b mask IH]; cbn; [done|].
  destruct b; cbn; lia.
Qed.

Lemma unit_ratio (c n : nat) :
  (0 < n)%nat → (c ≤ n)%nat →
  (0 <= inject_Z (Z.of_nat c) / inject_Z (Z.of_nat n) <= 1)%Q.
Proof.
  intros Hn Hc.
  assert (Hpos : (0 < inject_Z (Z.of_nat n))%Q) by (unfold Qlt; cbn; lia).
  split.
  - apply Qle_shift_div_l; [done|]. rewrite Qmult_0_l. unfold Qle. cbn. lia.
  - apply Qle_shift_div_r; [done|]. rewrite Qmult_1_l.
    rewrite <- Zle_Qle. lia.
Qed.

Lemma mean_mask_unit (mask : list bool) :
  mask ≠ [] → ∃ q, mean_mask mask = Num q ∧ (0 <= q <= 1)%Q.
Proof.
  intros Hne. destruct mask as [|b rest]; [done|].
  eexists. split; [done|]. apply unit_ratio.
  - cbn. lia.
  - apply count_true_le.
Qed.

Lemma length_flip_mask (w : list Q) (idxs : list Z) :
  length (eq_mask (signs (flipped w idxs)) (signs w)) = length w.
Proof.
  unfold eq_mask. rewrite length_zip_with, !length_signs, length_flipped. lia.
Qed.

(** The sum of the similarities the loop accumulates: a number between 0
    and the number of layers when every layer has a channel, NaN as soon
    as one has none. *)
Lemma flip_loop_similarity (ws : list pkey) (m : Model) (idxs : list Z) :
  Forall (λ w, is_Some (m !! w)) ws →
  Forall (λ idx, 0 ≤ idx) idxs →
  ∃ st, flip_loop ws m idxs = Ok st
    ∧ (Forall (λ w, size_of m w ≠ 0%nat) ws →
       ∃ q, st_sim st = Num q
         ∧ (0 <= q <= inject_Z (Z.of_nat (length ws)))%Q)
    ∧ (Exists (λ w, size_of m w = 0%nat) ws → st_sim st = NaN).
Proof.
  intros Hws Hnn. unfold flip_loop.
  cut (∃ st, for_each flip_body ws
               {| st_model := m; st_idxs := idxs; st_sim := Num 0; st_log := [] |}
             = Ok st
         ∧ reshaped (λ k, k ∈ ws) m (st_model st)
         ∧ Forall (λ idx, 0 ≤ idx) (st_idxs st)
         ∧ (Forall (λ w, size_of m w ≠ 0%nat) ws →
            ∃ q, st_sim st = Num q
              ∧ (0 <= q <= inject_Z (Z.of_nat (length ws)))%Q)
         ∧ (Exists (λ w, size_of m w = 0%nat) ws → st_sim st = NaN)).
  { intros (st & Hrun & _ & _ & HA & HB). by exists st. }
  apply (for_each_inv flip_body
    (λ done st, reshaped (λ k, k ∈ done) m (st_model st)
       ∧ Forall (λ idx, 0 ≤ idx) (st_idxs st)
       ∧ (Forall (λ w, size_of m w ≠ 0%nat) done →
          ∃ q, st_sim st = Num q
            ∧ (0 <= q <= inject_Z (Z.of_nat (length done)))%Q)
       ∧ (Exists (λ w, size_of m w = 0%nat) done → st_sim st = NaN))).
  - cbn. split; [|split; [done|split]].
    + intros k. destruct (m !! k) as [p|]; [|done].
      split; [|done]. exists (data p). by destruct p.
    + intros _. exists 0%Q. done.
    + intros H. by apply Exists_nil in H.
  - intros done x todo st Hxs (Hre & Hidx & HA & HB).
    rewrite Forall_forall in Hws.
    destruct (Hws x) as [p0 Hp0].
    { rewrite Hxs. apply elem_of_app. right. left. }
    pose proof (Hre x) as Hx. rewrite Hp0 in Hx.
    destruct (st_model st !! x) as [p|] eqn:Hp; [|done].
    destruct Hx as [(d & Hpd & Hd) _].
    assert (Hsz : length (data p) = size_of m x).
    { unfold size_of. rewrite Hp0, Hpd. done. }
    eexists. split; [by apply flip_body_nonneg|].
    cbn [st_model st_idxs st_sim].
    split; [apply reshaped_snoc; [done..|apply length_flipped]|].
    split; [apply rest_nonneg|]. split.
    + intros [Hdone Hxnz]%Forall_app. rewrite Forall_singleton in Hxnz.
      destruct (HA Hdone) as (q & -> & Hq0 & Hq1).
      destruct (mean_mask_unit
                  (eq_mask (signs (flipped (data p) (st_idxs st))) (signs (data p))))
        as (t & -> & Ht0 & Ht1).
      { intros E. apply (f_equal length) in E.
        rewrite length_flip_mask in E. cbn in E. lia. }
      exists (q + t)%Q. split; [done|]. split.
      * replace 0%Q with (0 + 0)%Q by done. by apply Qplus_le_compat.
      * rewrite length_app. cbn [length].
        rewrite Nat2Z.inj_add, inject_Z_plus. by apply Qplus_le_compat.
    + intros [Hdone|Hxz]%Exists_app.
      * by rewrite (HB Hdone).
      * apply Exists_cons in Hxz as [Hxz|Hxz]; [|by apply Exists_nil in Hxz].
        assert (eq_mask (signs (flipped (data p) (st_idxs st))) (signs (data p)) = [])
          as ->.
        { apply length_zero_iff_nil. rewrite length_flip_mask. lia. }
        cbn. by destruct (st_sim st).
Qed.

(** X9: The printed similarity is a number between 0 and 1 when every
    attacked layer has at least one channel. *)
Theorem similarity_in_unit_interval (pm : Passport) (plkeys : list string)
    (fraction : Q) (randidxs : list Z) (model : Model) :
  attackable pm plkeys model → plkeys ≠ [] →
  Forall (λ idx, 0 ≤ idx) randidxs →
  (∀ f, f ∈ plkeys → size_of model (bn_weight f) ≠ 0%nat) →
  ∃ out q, run_attack_2 pm plkeys fraction randidxs model = Ok out
    ∧ out_similarity out = Num q ∧ (0 <= q <= 1)%Q.
Proof.
  intros Hatt Hne Hnn Hsize.
  destruct (run_attack_2_stages pm plkeys fraction randidxs model Hatt Hne Hnn)
    as (m2 & pr & st & sim & Hload & Hl & Hc & Hrefs & Hpres & Htot & Hflip & Hrep & Hrun).
  destruct (flip_loop_similarity (bn_weight <$> plkeys) (pr_model pr)
              (select (total_weight_size pr) fraction randidxs) Hpres
              (select_Forall _ _ _ _ Hnn))
    as (st' & Hflip' & HA & _).
  assert (st' = st) as -> by congruence.
  destruct HA as (q & Hq & Hq0 & Hq1).
  { rewrite Forall_forall. intros k (f & -> & Hf)%list_elem_of_fmap.
    rewrite (collected_size_of _ _ _ _ Hc), (loaded_size_of _ _ _ _ Hl),
      freeze_size_of. by apply Hsize. }
  rewrite length_fmap in Hq1. rewrite Hq in Hrep.
  assert (Hpos : (0 < inject_Z (Z.of_nat (length plkeys)))%Q).
  { unfold Qlt. cbn. destruct plkeys; [done|]. cbn. lia. }
  eexists. exists (q / inject_Z (Z.of_nat (length plkeys)))%Q.
  split; [exact Hrun|]. cbn [out_similarity]. split.
  - unfold report in Hrep. destruct plkeys; [done|]. by injection Hrep as <-.
  - split.
    + apply Qle_shift_div_l; [done|]. by rewrite Qmult_0_l.
    + apply Qle_shift_div_r; [done|]. by rewrite Qmult_1_l.
Qed.

Lemma similarity_in_unit_interval_witness :
  ∃ out q, run_attack_2 Example.passport Example.plkeys (1 # 2) [3; 0; 4; 1; 2]
             Example.model = Ok out
    ∧ out_similarity out = Num q ∧ (0 <= q <= 1)%Q.
Proof.
  apply (similarity_in_unit_interval Example.passport Example.plkeys (1 # 2)
           [3; 0; 4; 1; 2] Example.model).
  - exact example_attackable.
  - done.
  - repeat constructor; lia.
  - intros f Hf. unfold Example.plkeys in Hf.
    apply elem_of_cons in Hf as [->|Hf]; [by vm_compute|].
    apply elem_of_cons in Hf as [->|Hf]; [by vm_compute|].
    by apply not_elem_of_nil in Hf.
Defined.

(** X10: With an attacked layer of no channel the mean over the layer is the
    mean of an empty tensor, and the printed similarity is NaN. *)
Theorem similarity_is_nan_with_an_empty_layer (pm : Passport)
    (plkeys : list string) (fraction : Q) (randidxs : list Z) (model : Model)
    (f : string) :
  attackable pm plkeys model →
  Forall (λ idx, 0 ≤ idx) randidxs →
  f ∈ plkeys → size_of model (bn_weight f) = 0%nat →
  ∃ out, run_attack_2 pm plkeys fraction randidxs model = Ok out
    ∧ out_similarity out = NaN.
Proof.
  intros Hatt Hnn Hf Hsize.
  assert (Hne : plkeys ≠ []) by (intros ->; by apply not_elem_of_nil in Hf).
  destruct (run_attack_2_stages pm plkeys fraction randidxs model Hatt Hne Hnn)
    as (m2 & pr & st & sim & Hload & Hl & Hc & Hrefs & Hpres & Htot & Hflip & Hrep & Hrun).
  destruct (flip_loop_similarity (bn_weight <$> plkeys) (pr_model pr)
              (select (total_weight_size pr) fraction randidxs) Hpres
              (select_Forall _ _ _ _ Hnn))
    as (st' & Hflip' & _ & HB).
  assert (st' = st) as -> by congruence.
  rewrite HB in Hrep.
  2:{ apply Exists_exists. exists (bn_weight f). split.
      - apply list_elem_of_fmap. eauto.
      - by rewrite (collected_size_of _ _ _ _ Hc), (loaded_size_of _ _ _ _ Hl),
          freeze_size_of. }
  eexists. split; [exact Hrun|]. cbn [out_similarity].
  unfold report in Hrep. destruct plkeys; [done|]. by injection Hrep as <-.
Qed.

Lemma similarity_is_nan_with_an_empty_layer_witness :
  ∃ out, run_attack_2 EmptyExample.passport ["0"%string] (1 # 2) []
           EmptyExample.model = Ok out
    ∧ out_similarity out = NaN.
Proof.
  apply (similarity_is_nan_with_an_empty_layer EmptyExample.passport
           ["0"%string] (1 # 2) [] EmptyExample.model "0"%string).
  - intros f Hf. apply list_elem_of_singleton in Hf as ->.
    by exists (Example.fresh []), (Example.fresh []), [], [].
  - constructor.
  - left.
  - by vm_compute.
Defined.

End SimilarityBounds.

(** ** The similarity of one layer in closed form *)

Section LayerSimilarity.
Import Tensor Flip Attack Spec.

Lemma agree_flipped (w : list Q) (idxs : list Z) (i : nat) (x : Q) :
  w !! i = Some x → ¬ (x == 0)%Q →
  agree w (flipped w idxs) i = negb (bool_decide (Z.of_nat i ∈ idxs)).
Proof.
  intros Hx Hnz. unfold agree. rewrite lookup_flipped, Hx. cbn.
  assert (Hn : Qnum x ≠ 0).
  { intros Hn. apply Hnz. unfold Qeq. cbn. lia. }
  destruct (bool_decide (Z.of_nat i ∈ idxs)); unfold sign;
    destruct (Qnum x); done.
Qed.

Lemma length_filter_negb {A} (f : A → bool) (l : list A) :
  (length (List.filter (λ a, negb (f a)) l) + length (List.filter f l)
   = length l)%nat.
Proof.
  induction l as [|a l IH]; cbn; [done|]. destruct (f a); cbn; lia.
Qed.

Lemma length_selected (n : nat) (idxs : list Z) :
  NoDup idxs → Forall (λ idx, 0 ≤ idx) idxs →
  length (List.filter (λ i, bool_decide (Z.of_nat i ∈ idxs)) (seq 0 n))
  = length (below n idxs).
Proof.
  intros Hnd Hnn.
  rewrite <- (length_fmap Z.of_nat). apply Permutation_length.
  apply NoDup_Permutation.
  - apply NoDup_fmap_2; [intros a b; lia|].
    apply NoDup_ListNoDup, List.NoDup_filter, NoDup_ListNoDup, NoDup_seq.
  - by apply NoDup_below.
  - intros j. rewrite list_elem_of_fmap, elem_of_below. split.
    + intros (i & -> & Hi). apply list_elem_of_In, filter_In in Hi as [Hi Hsel].
      apply in_seq in Hi. apply bool_decide_eq_true in Hsel. split; [done|lia].
    + intros [Hin Hlt]. rewrite Forall_forall in Hnn. pose proof (Hnn _ Hin).
      exists (Z.to_nat j). split; [lia|].
      apply list_elem_of_In, filter_In. split.
      * apply in_seq. lia.
      * apply bool_decide_eq_true. by rewrite Z2Nat.id by lia.
Qed.

(** X11: For a layer without a zero in its scale and a pool of distinct
    indices, the similarity the loop adds for the layer is the share of
    the channels that were not selected: one minus the number of consumed
    indices over the number of channels. *)
Theorem flip_layer_similarity (w : list Q) (idxs : list Z) :
  w ≠ [] → Forall (λ x, ¬ (x == 0)%Q) w →
  NoDup idxs → Forall (λ idx, 0 ≤ idx) idxs →
  ∃ out, flip_layer w idxs = Ok out
    ∧ (length (widxs out) ≤ length w)%nat
    ∧ sim_term out
      = Num (inject_Z (Z.of_nat (length w - length (widxs out)))
             / inject_Z (Z.of_nat (length w))).
Proof.
  intros Hne Hnz Hnd Hnn. eexists. split; [by apply flip_layer_nonneg|].
  cbn [widxs sim_term].
  assert (Hcount : count_true (eq_mask (signs (flipped w idxs)) (signs w))
                   = (length w - length (below (length w) idxs))%nat
                   ∧ (length (below (length w) idxs) ≤ length w)%nat).
  { rewrite count_true_agree by apply length_flipped.
    rewrite (List.filter_ext_in _
               (λ i, negb (bool_decide (Z.of_nat i ∈ idxs)))).
    - pose proof (length_filter_negb (λ i, bool_decide (Z.of_nat i ∈ idxs))
                    (seq 0 (length w))) as Hsum.
      rewrite length_seq, (length_selected _ _ Hnd Hnn) in Hsum. lia.
    - intros i Hi. apply in_seq in Hi.
      destruct (lookup_lt_is_Some_2 w i) as [x Hx]; [lia|].
      apply (agree_flipped w idxs i x Hx).
      rewrite Forall_forall in Hnz. apply Hnz. by eapply list_elem_of_lookup_2. }
  destruct Hcount as [Hcount Hle]. split; [done|].
  pose proof (length_flip_mask w idxs) as Hlen.
  unfold mean_mask.
  destruct (eq_mask (signs (flipped w idxs)) (signs w)) as [|b mask] eqn:E.
  - destruct w; [done|]. cbn in Hlen. lia.
  - by rewrite Hcount, Hlen.
Qed.

Lemma flip_layer_similarity_witness :
  ∃ out, flip_layer [5 # 2; -3; 1 # 4; -1]%Q [5; 0; 2] = Ok out
    ∧ sim_term out = Num (inject_Z 2 / inject_Z 4).
Proof.
  destruct (flip_layer_similarity [5 # 2; -3; 1 # 4; -1]%Q [5; 0; 2])
    as (out & Hrun & _ & Hsim).
  - done.
  - repeat constructor; by intros H.
  - apply (bool_decide_unpack _). by vm_compute.
  - repeat constructor; lia.
  - exists out. split; [exact Hrun|]. rewrite Hsim.
    vm_compute in Hrun. by injection Hrun as <-.
Defined.

End LayerSimilarity.

(** * Further properties of the weight transplant *)

Section TransplantEdges.
Import Tensor Transfer TransferSpec TransferBack.

Lemma load_state_dict_same (t sd : state_dict) (strict : bool) :
  dom t = dom sd →
  map_Forall (λ k v, shape_ok sd k v = true) t →
  (load_state_dict t sd strict).1 = sd.
Proof.
  intros Hdom Hsh. apply map_eq. intros k. rewrite load_state_dict_lookup.
  destruct (t !! k) as [v|] eqn:Hv; cbn.
  - pose proof (Hsh k v Hv) as Hok. unfold shape_ok in Hok.
    destruct (sd !! k) as [u|] eqn:Hu.
    + by rewrite Hok.
    + apply not_elem_of_dom in Hu. rewrite <- Hdom in Hu.
      apply not_elem_of_dom in Hu. congruence.
  - apply not_elem_of_dom in Hv. rewrite Hdom in Hv.
    by apply not_elem_of_dom in Hv.
Qed.

(** X12: When the strict load of a module succeeds the clone's module becomes
    the state dict of the passport model's module, entry by entry, and
    [get_scale] and [get_bias] are not consulted, not even for a passport
    layer. *)
Theorem transplant_of_equal_keys (t : state_dict) (s : passport_module) :
  dom t = dom (pm_state s) →
  map_Forall (λ k v, shape_ok (pm_state s) k v = true) t →
  transplant t s = Ok (pm_state s).
Proof.
  intros Hdom Hsh. unfold transplant.
  rewrite load_state_dict_returns by done.
  by rewrite load_state_dict_same.
Qed.

Lemma transplant_of_equal_keys_witness :
  transplant (<["conv.weight"%string := [1; 2]%Q]> ∅)
    TransferExample.passport_layer
  = Ok (<["conv.weight"%string := [3; 4]%Q]> ∅).
Proof.
  apply (transplant_of_equal_keys (<["conv.weight"%string := [1; 2]%Q]> ∅)
           TransferExample.passport_layer).
  - apply (bool_decide_unpack _). by vm_compute.
  - apply (bool_decide_unpack _). by vm_compute.
Defined.

Lemma load_state_dict_shape_raises (t sd : state_dict) (strict : bool)
    (k : string) (v u : list Q) :
  t !! k = Some v → sd !! k = Some u → length u ≠ length v →
  (load_state_dict t sd strict).2 = false
  ∧ (load_state_dict t sd strict).1 !! k = Some v.
Proof.
  intros Hv Hu Hne. split.
  - unfold load_state_dict. cbn.
    rewrite bool_decide_eq_false_2; [done|].
    intros Hall. specialize (Hall k v Hv). unfold shape_ok in Hall.
    rewrite Hu in Hall. by apply bool_decide_eq_true in Hall.
  - rewrite load_state_dict_lookup, Hv, Hu. cbn.
    by rewrite bool_decide_eq_false_2.
Qed.

(** X13: An entry that the two modules share with different shapes is fatal:
    the strict load and the non-strict load of the fallback both raise. *)
Theorem transplant_shape_mismatch_is_fatal (t : state_dict) (s : passport_module)
    (k : string) (v u : list Q) :
  t !! k = Some v → pm_state s !! k = Some u → length u ≠ length v →
  transplant t s = Raise RuntimeError.
Proof.
  intros Hv Hu Hne. unfold transplant.
  destruct (load_state_dict_shape_raises t (pm_state s) true k v u Hv Hu Hne)
    as [-> Hv1].
  by destruct (load_state_dict_shape_raises _ (pm_state s) false k v u Hv1 Hu Hne)
    as [-> _].
Qed.

Lemma transplant_shape_mismatch_is_fatal_witness :
  transplant (<["conv.weight"%string := [1; 2; 3]%Q]> ∅)
    TransferExample.passport_layer
  = Raise RuntimeError.
Proof.
  by apply (transplant_shape_mismatch_is_fatal _ TransferExample.passport_layer
              "conv.weight"%string [1; 2; 3]%Q [3; 4]%Q).
Defined.

(** X14: The fallback recovers passport layers only: for a module without
    [get_scale] whose keys differ from the clone's, the non-strict load
    succeeds and the reconstruction of the affine parameters raises. *)
Theorem transplant_of_plain_module_with_other_keys (t : state_dict)
    (s : passport_module) :
  pm_affine s = None → dom t ≠ dom (pm_state s) →
  map_Forall (λ k v, shape_ok (pm_state s) k v = true) t →
  transplant t s = Raise AttributeError.
Proof.
  intros Haff Hdom Hsh. unfold transplant.
  rewrite load_state_dict_raises by done.
  rewrite load_state_dict_returns
    by (by apply load_state_dict_shapes || done).
  cbn. unfold entry, pm_get_scale. rewrite Haff.
  by destruct (_ !! "bn.weight"%string).
Qed.

Lemma transplant_of_plain_module_with_other_keys_witness :
  transplant (<["bn.weight"%string := [1; 2]%Q]> ∅) TransferExample.plain_module
  = Raise AttributeError.
Proof.
  apply (transplant_of_plain_module_with_other_keys _ TransferExample.plain_module).
  - done.
  - intros H. apply (f_equal (λ d, bool_decide ("bn.weight"%string ∈ d))) in H.
    by vm_compute in H.
  - apply (bool_decide_unpack _). by vm_compute.
Defined.

(** X15: The loop over [zip(tl_model.features, self.model.features)] keeps
    the number of modules of the clone and the key set of each of them,
    and leaves the modules beyond the features of the passport model as
    they are. *)
Theorem transplant_features_keeps_structure (tl fs : list state_dict)
    (self : list passport_module) :
  transplant_features tl self = Ok fs →
  length fs = length tl
  ∧ (∀ i t t', tl !! i = Some t → fs !! i = Some t' → dom t' = dom t)
  ∧ (∀ i, (length self ≤ i)%nat → fs !! i = tl !! i).
Proof.
  revert self fs. induction tl as [|t tl IH]; intros self fs Hrun.
  - cbn in Hrun. injection Hrun as <-.
    split; [done|]. split; [|done]. intros i t t' H. by rewrite lookup_nil in H.
  - destruct self as [|s self]; cbn in Hrun.
    { injection Hrun as <-. split; [done|]. split; [|done].
      intros i t0 t0' H0 H0'. congruence. }
    destruct (transplant t s) as [t1|] eqn:Ht; [|done]. cbn in Hrun.
    destruct (transplant_features tl self) as [rest|] eqn:Hrest; [|done].
    cbn in Hrun. injection Hrun as <-.
    destruct (IH self rest Hrest) as (Hlen & Hdom & Hbeyond).
    split; [cbn; by rewrite Hlen|]. split.
    + intros [|i] t0 t0' H0 H0'; cbn in H0, H0'.
      * injection H0 as <-. injection H0' as <-. by eapply transplant_dom.
      * by eapply Hdom.
    + intros [|i] Hi; cbn in Hi |- *; [lia|]. apply Hbeyond. lia.
Qed.

Lemma transplant_features_keeps_structure_witness :
  ∃ fs, transplant_features [∅; <["fc.weight"%string := [9]%Q]> ∅]
          [TransferExample.plain_module] = Ok fs
    ∧ length fs = 2%nat
    ∧ fs !! 1%nat = Some (<["fc.weight"%string := [9]%Q]> ∅).
Proof.
  destruct (transplant_features [∅; <["fc.weight"%string := [9]%Q]> ∅]
              [TransferExample.plain_module]) as [fs|e] eqn:E;
    [|by vm_compute in E].
  destruct (transplant_features_keeps_structure _ _ _ E) as (Hlen & _ & Hb).
  exists fs. split; [reflexivity|]. split; [exact Hlen|].
  apply (Hb 1%nat). cbn. lia.
Defined.

End TransplantEdges.

(** ** Loading the clone back *)

Section LoadBack.
Import Tensor Transfer TransferSpec TransferBack.

Lemma load_state_dict_shapes_iff (t sd : state_dict) (strict : bool) :
  map_Forall (λ k v, shape_ok sd k v = true) (load_state_dict t sd strict).1
  ↔ map_Forall (λ k v, shape_ok sd k v = true) t.
Proof.
  split; [|apply load_state_dict_shapes].
  intros H k v Hv. unfold shape_ok.
  destruct (sd !! k) as [u|] eqn:Hu; [|done].
  apply bool_decide_eq_true_2.
  destruct (decide (length u = length v)) as [|Hne]; [done|].
  destruct (load_state_dict_shape_raises t sd strict k v u Hv Hu Hne) as [_ Hv1].
  specialize (H k v Hv1). unfold shape_ok in H. rewrite Hu in H.
  by apply bool_decide_eq_true in H.
Qed.

Lemma load_state_dict_raises_shapes (t sd : state_dict) (strict : bool) :
  ¬ map_Forall (λ k v, shape_ok sd k v = true) t →
  (load_state_dict t sd strict).2 = false.
Proof.
  intros H. unfold load_state_dict. cbn. by rewrite bool_decide_eq_false_2.
Qed.

Lemma load_back_ok_shapes (self_m tl_m s' : state_dict) :
  load_back self_m tl_m = Ok s' →
  map_Forall (λ k v, shape_ok tl_m k v = true) self_m.
Proof.
  unfold load_back. intros Hrun.
  destruct (decide (map_Forall (λ k v, shape_ok tl_m k v = true) self_m))
    as [Hsh|Hsh]; [done|].
  rewrite (load_state_dict_raises_shapes _ _ true Hsh) in Hrun.
  rewrite load_state_dict_raises_shapes in Hrun; [done|].
  by rewrite load_state_dict_shapes_iff.
Qed.

(** X16: Loading the clone back into a module of the passport model is fatal
    for a shape mismatch only: missing and unexpected keys are absorbed
    by the non-strict load. *)
Theorem load_back_returns_iff (self_m tl_m : state_dict) :
  is_Ok (load_back self_m tl_m)
  ↔ map_Forall (λ k v, shape_ok tl_m k v = true) self_m.
Proof.
  split.
  - intros [s' Hs']. by eapply load_back_ok_shapes.
  - intros Hsh. unfold load_back, is_Ok.
    destruct (load_state_dict self_m tl_m true).2; [eauto|].
    rewrite load_state_dict_returns; [eauto| |done].
    exact (load_state_dict_shapes self_m tl_m true Hsh).
Qed.

(** X17: What a returning [load_back] leaves: the keys of the module of the
    passport model, each entry the clone has taken from the clone, each
    entry the clone lacks as it was. *)
Theorem load_back_entries (self_m tl_m s' : state_dict) (k : string) :
  load_back self_m tl_m = Ok s' →
  s' !! k = match self_m !! k with
            | Some v => Some (default v (tl_m !! k))
            | None => None
            end.
Proof.
  intros Hrun. pose proof (load_back_ok_shapes _ _ _ Hrun) as Hsh.
  unfold load_back in Hrun.
  destruct (load_state_dict self_m tl_m true).2.
  - assert (s' = (load_state_dict self_m tl_m true).1) as -> by congruence.
    exact (load_state_dict_entry self_m tl_m true k Hsh).
  - destruct (load_state_dict _ tl_m false).2; [|done].
    assert (s' = (load_state_dict (load_state_dict self_m tl_m true).1 tl_m false).1)
      as -> by congruence.
    rewrite (load_state_dict_entry _ tl_m false k
               (load_state_dict_shapes self_m tl_m true Hsh)).
    rewrite (load_state_dict_entry self_m tl_m true k Hsh).
    destruct (self_m !! k) as [v|]; [|done]. cbn. by destruct (tl_m !! k).
Qed.

Lemma load_back_entries_witness :
  ∃ s', load_back (<["conv.weight"%string := [3; 4]%Q]> (<["key"%string := [8]%Q]> ∅))
          (<["conv.weight"%string := [1; 2]%Q]> (<["bn.weight"%string := [1; 1]%Q]> ∅))
        = Ok s'
    ∧ s' !! "conv.weight"%string = Some [1; 2]%Q
    ∧ s' !! "key"%string = Some [8]%Q
    ∧ s' !! "bn.weight"%string = None.
Proof.
  destruct (load_back (<["conv.weight"%string := [3; 4]%Q]> (<["key"%string := [8]%Q]> ∅))
              (<["conv.weight"%string := [1; 2]%Q]> (<["bn.weight"%string := [1; 1]%Q]> ∅)))
    as [s'|e] eqn:E; [|by vm_compute in E].
  exists s'. split; [reflexivity|].
  rewrite !(load_back_entries _ _ _ _ E). repeat split; vm_compute; reflexivity.
Defined.

Lemma load_state_dict_fixed (s t' : state_dict) (strict : bool) :
  (∀ k v, s !! k = Some v → t' !! k = Some v ∨ t' !! k = None) →
  (load_state_dict s t' strict).1 = s
  ∧ map_Forall (λ k v, shape_ok t' k v = true) s.
Proof.
  intros H.
  assert (Hsh : map_Forall (λ k v, shape_ok t' k v = true) s).
  { intros k v Hv. unfold shape_ok.
    destruct (H k v Hv) as [-> | ->]; [by apply bool_decide_eq_true_2|done]. }
  split; [|done]. apply map_eq. intros k.
  rewrite load_state_dict_entry by done.
  destruct (s !! k) as [v|] eqn:Hv; [|done].
  by destruct (H k v Hv) as [-> | ->].
Qed.

Lemma load_back_same (s t' : state_dict) :
  (∀ k v, s !! k = Some v → t' !! k = Some v ∨ t' !! k = None) →
  load_back s t' = Ok s.
Proof.
  intros H. unfold load_back.
  destruct (load_state_dict_fixed s t' true H) as [-> Hsh].
  destruct (load_state_dict s t' true).2; [done|].
  destruct (load_state_dict_fixed s t' false H) as [-> _].
  by rewrite load_state_dict_returns.
Qed.

(** X18: Transplanting a module into the clone and loading the clone back,
    with no training in between, gives the module of the passport model
    its own state dict back: the affine parameters reconstructed in the
    clone do not leak into a passport layer that stores none. *)
Theorem transplant_then_load_back (t : state_dict) (s : passport_module) :
  compatible t s → pm_state s !! "bn.bias"%string = None →
  ∃ t', transplant t s = Ok t' ∧ load_back (pm_state s) t' = Ok (pm_state s).
Proof.
  intros Hc Hnb. pose proof Hc as [Hsh Hm].
  destruct (pm_affine s) as [[sc bi]|] eqn:Haff.
  - destruct Hm as (_ & _ & Hnw).
    eexists. split; [by apply transplant_passport|].
    apply load_back_same. intros k v Hv.
    assert (k ≠ "bn.bias"%string) by congruence.
    assert (k ≠ "bn.weight"%string) by congruence.
    rewrite !lookup_insert_ne by done.
    rewrite (load_state_dict_entry _ (pm_state s) false k
               (load_state_dict_shapes t (pm_state s) true Hsh)).
    rewrite (load_state_dict_entry t (pm_state s) true k Hsh), Hv.
    destruct (t !! k); [by left|by right].
  - exists (pm_state s). split.
    + unfold transplant. rewrite load_state_dict_returns by done.
      by rewrite load_state_dict_same.
    + apply load_back_same. intros k v Hv. by left.
Qed.

Lemma transplant_then_load_back_witness :
  ∃ t', transplant
          (<["conv.weight"%string := [1; 2]%Q]>
             (<["bn.weight"%string := [1; 1]%Q]>
                (<["bn.bias"%string := [0; 0]%Q]> ∅)))
          TransferExample.passport_layer = Ok t'
    ∧ load_back (pm_state TransferExample.passport_layer) t'
      = Ok (pm_state TransferExample.passport_layer).
Proof.
  apply (transplant_then_load_back _ TransferExample.passport_layer).
  - split; [apply (bool_decide_unpack _); by vm_compute|].
    split; [by exists [1; 1]%Q|]. split; [by exists [0; 0]%Q|done].
  - done.
Defined.

End LoadBack.

(** * The keys of the passport layers *)

Section KeysTheorems.
Import Keys.
Context {X L : Type}.
Variable is_passport : L → bool.
Variable set_key : L → X → option X → L.

Lemma forward_cons (layer : X → X) (layers : list (X → X)) (x : X) :
  forward (layer :: layers) x = forward layers (layer x).
Proof. done. Qed.

(** X19: Every passport layer within reach of the pretrained model is given
    the keys as the pretrained layers before it transform them; the other
    modules, and the layers beyond the pretrained features, are left as
    they are, and the number of modules is kept. *)
Theorem set_intermediate_keys_lookup (passport_features : list L)
    (pretrained_features : list (X → X)) (x : X) (y : option X) (i : nat) :
  set_intermediate_keys is_passport set_key passport_features
    pretrained_features x y !! i
  = (λ l, if is_passport l && bool_decide (i < length pretrained_features)%nat
          then set_key l (forward (take i pretrained_features) x)
                 (forward (take i pretrained_features) <$> y)
          else l) <$> passport_features !! i.
Proof.
  revert passport_features x y i.
  induction pretrained_features as [|layer pre IH]; intros pas x y i.
  - assert (set_intermediate_keys is_passport set_key pas [] x y = pas) as ->
      by (by destruct pas).
    destruct (pas !! i) as [l|]; [|done]. cbn.
    rewrite bool_decide_eq_false_2 by lia. by rewrite andb_false_r.
  - destruct pas as [|l pas]; [by destruct i|]. destruct i as [|i]; cbn.
    + f_equal. destruct (is_passport l); [|done]. cbn. by destruct y.
    + rewrite IH. destruct (pas !! i) as [l'|]; [|done]. cbn. f_equal.
      destruct (is_passport l'); [|done]. cbn.
      destruct (decide (i < length pre)%nat).
      * rewrite !bool_decide_eq_true_2 by lia. f_equal. by destruct y.
      * by rewrite !bool_decide_eq_false_2 by lia.
Qed.

End KeysTheorems.

(** * The training loop of the experiment *)

Section ExperimentFacts.
Import Experiment.

Lemma lookup_add_prefixed (prefix : string) (src acc : metrics) (key : string) :
  add_prefixed prefix src acc !! (prefix +:+ key)
  = match src !! key with
    | Some v => Some v
    | None => acc !! (prefix +:+ key)
    end.
Proof.
  unfold add_prefixed.
  apply (map_fold_weak_ind
    (λ r m, r !! (prefix +:+ key)
            = match m !! key with
              | Some v => Some v
              | None => acc !! (prefix +:+ key)
              end)).
  - by rewrite lookup_empty.
  - intros i x m r Hi IH. destruct (decide (i = key)) as [->|Hne].
    + by rewrite !lookup_insert_eq.
    + rewrite !lookup_insert_ne; [done|done|].
      intros H. by apply (inj (String.app prefix)) in H.
Qed.

Lemma lookup_add_prefixed_other (prefix : string) (src acc : metrics)
    (key : string) :
  (∀ k, key ≠ prefix +:+ k) →
  add_prefixed prefix src acc !! key = acc !! key.
Proof.
  intros Hkey. unfold add_prefixed.
  apply (map_fold_weak_ind (λ r m, r !! key = acc !! key)); [done|].
  intros i x m r Hi IH. rewrite lookup_insert_ne; [done|].
  intros H. by apply (Hkey i).
Qed.

(** X20: The row of an epoch holds every metric of the trainer under its
    prefixed name; the three groups do not overwrite each other, and the
    backdoor metrics are in the row only when the backdoor is trained. *)
Theorem merge_metrics_lookup (train_backdoor : bool) (r : epoch_result)
    (key : string) :
  merge_metrics train_backdoor r !! ("train_" +:+ key) = train_metrics r !! key
  ∧ merge_metrics train_backdoor r !! ("valid_" +:+ key) = valid_metrics r !! key
  ∧ merge_metrics train_backdoor r !! ("wm_" +:+ key)
    = if train_backdoor then wm_metrics r !! key else None.
Proof.
  unfold merge_metrics. split; [|split].
  - rewrite !lookup_add_prefixed_other by (by intros k [=]).
    rewrite lookup_add_prefixed. by destruct (train_metrics r !! key).
  - rewrite lookup_add_prefixed_other by (by intros k [=]).
    rewrite lookup_add_prefixed.
    destruct (valid_metrics r !! key); [done|].
    by rewrite lookup_add_prefixed_other by (by intros k [=]).
  - rewrite lookup_add_prefixed.
    rewrite !lookup_add_prefixed_other by (by intros k [=]).
    destruct train_backdoor; [by destruct (wm_metrics r !! key)|done].
Qed.

Lemma merge_valid_total_acc (train_backdoor : bool) (r : epoch_result) :
  merge_metrics train_backdoor r !! "valid_total_acc"%string = total_acc r.
Proof.
  unfold merge_metrics, total_acc.
  rewrite lookup_add_prefixed_other by (by intros k [=]).
  change "valid_total_acc"%string with ("valid_" +:+ "total_acc")%string.
  rewrite lookup_add_prefixed.
  destruct (valid_metrics r !! "total_acc"%string); [done|].
  by rewrite lookup_add_prefixed_other by (by intros k [=]).
Qed.

Lemma improves_Best (q x : Q) : improves (Best q) x = true ↔ (q < x)%Q.
Proof.
  cbn. rewrite negb_true_iff, <- not_true_iff_false, Qle_bool_iff. split.
  - apply Qnot_le_lt.
  - apply Qlt_not_le.
Qed.

Lemma improves_step (b : best) (a x : Q) :
  improves (if improves b a then Best a else b) x = true
  ↔ improves b x = true ∧ (a < x)%Q.
Proof.
  destruct (improves b a) eqn:Hba.
  - rewrite improves_Best. split; [|by intros [_ ?]]. intros Hax. split; [|done].
    destruct b as [|q]; [done|]. apply improves_Best in Hba.
    apply improves_Best. by eapply Qlt_trans.
  - destruct b as [|q]; [done|]. rewrite improves_Best.
    split; [|by intros [? _]]. intros Hqx. split; [done|].
    apply Qnot_lt_le in Hqx || idtac.
    assert (Haq : (a <= q)%Q).
    { apply Qnot_lt_le. intros Hlt. apply improves_Best in Hlt. congruence. }
    by eapply Qle_lt_trans.
Qed.

(** An accuracy improves on the running best exactly when it improves on
    the initial best and exceeds every accuracy seen since. *)
Lemma improves_running (b : best) (accs : list Q) (x : Q) :
  improves (running b accs) x = true
  ↔ improves b x = true ∧ Forall (λ a, (a < x)%Q) accs.
Proof.
  revert b. induction accs as [|a accs IH]; intros b.
  - cbn. split; [by intros ?|by intros [? _]].
  - unfold running. cbn. fold (running (if improves b a then Best a else b) accs).
    rewrite IH, improves_step, Forall_cons. tauto.
Qed.

Lemma running_max (b : best) (accs : list Q) :
  match running b accs with
  | NegInf => b = NegInf ∧ accs = []
  | Best m =>
      (b = Best m ∨ m ∈ accs) ∧ Forall (λ a, (a <= m)%Q) accs
      ∧ ∀ q, b = Best q → (q <= m)%Q
  end.
Proof.
  revert b. induction accs as [|a accs IH]; intros b.
  - cbn. destruct b as [|q]; [done|].
    split; [by left|]. split; [done|]. intros q' [= ->]. apply Qle_refl.
  - unfold running. cbn. fold (running (if improves b a then Best a else b) accs).
    specialize (IH (if improves b a then Best a else b)).
    destruct (running _ accs) as [|m].
    { destruct IH as [Hb _]. destruct (improves b a) eqn:E; [done|].
      subst b. done. }
    destruct IH as (Hin & Hall & Hq).
    destruct (improves b a) eqn:Hba.
    + assert (Ham : (a <= m)%Q) by (by apply Hq).
      split; [right; destruct Hin as [[= ->]|Hin]; [left|by right]|].
      split; [by constructor|].
      intros q ->. apply improves_Best in Hba.
      eapply Qle_trans; [apply Qlt_le_weak, Hba|done].
    + destruct b as [|q]; [done|].
      assert (Haq : (a <= q)%Q).
      { apply Qnot_lt_le. intros Hlt. apply improves_Best in Hlt. congruence. }
      assert (Hqm : (q <= m)%Q) by (by apply Hq).
      split; [destruct Hin as [?|?]; [by left|by right; right]|].
      split; [constructor; [by eapply Qle_trans|done]|].
      by intros q' [= <-].
Qed.

Lemma epoch_body_reports (save_interval : Z) (train_backdoor : bool)
    (st : run_state) (ep : Z) (r : epoch_result) (a : Q) :
  reports r a →
  ∃ st', epoch_body save_interval train_backdoor st ep r = Some st'
    ∧ best_acc st' = (if improves (best_acc st) a then Best a else best_acc st)
    ∧ history st' = history st ++ [merge_metrics train_backdoor r]
    ∧ ∀ f e, (f, e) ∈ saves st'
        ↔ (f, e) ∈ saves st
          ∨ (e = ep ∧ written save_interval f ep (best_acc st) a).
Proof.
  intros [[v Hv] Ha]. unfold epoch_body. rewrite Hv. cbn.
  rewrite merge_valid_total_acc, Ha. cbn.
  eexists. split; [done|]. cbn [best_acc history saves].
  split; [done|]. split; [done|]. intros f e.
  destruct (improves (best_acc st) a) eqn:Himp;
    destruct (bool_decide (save_interval ≠ 0)
              && bool_decide (ep `mod` save_interval = 0)) eqn:Hper;
    rewrite ?andb_true_iff, ?andb_false_iff, ?bool_decide_eq_true,
      ?bool_decide_eq_false in Hper;
    rewrite ?elem_of_app, !list_elem_of_singleton;
    destruct f; cbn [written]; rewrite ?Himp;
    split; intros H;
    repeat match goal with
           | H : _ ∨ _ |- _ => destruct H as [H|H]
           | H : _ ∧ _ |- _ => destruct H
           end; simplify_eq; try done; try tauto; try (by right).
Qed.

Lemma epoch_loop_reports (save_interval : Z) (train_backdoor : bool)
    (results : list epoch_result) (accs : list Q) :
  Forall2 reports results accs →
  ∀ (ep : Z) (st : run_state),
  ∃ st', epoch_loop save_interval train_backdoor ep results st = Some st'
    ∧ best_acc st' = running (best_acc st) accs
    ∧ history st' = history st ++ (merge_metrics train_backdoor <$> results)
    ∧ ∀ f e, (f, e) ∈ saves st'
        ↔ (f, e) ∈ saves st
          ∨ ∃ (i : nat) (a : Q),
              accs !! i = Some a ∧ e = ep + Z.of_nat i
              ∧ written save_interval f e
                  (running (best_acc st) (take i accs)) a.
Proof.
  induction 1 as [|r a results accs Hr _ IH]; intros ep st.
  - exists st. split; [done|]. split; [done|].
    split; [by rewrite app_nil_r|]. intros f e. split; [by left|].
    by intros [?|(i & a & ? & _)].
  - destruct (epoch_body_reports save_interval train_backdoor st ep r a Hr)
      as (st1 & Hbody & Hbest1 & Hhist1 & Hsaves1).
    destruct (IH (ep + 1) st1) as (st' & Hloop & Hbest & Hhist & Hsaves).
    exists st'. cbn [epoch_loop]. rewrite Hbody. cbn.
    split; [done|]. split; [by rewrite Hbest, Hbest1|].
    split; [by rewrite Hhist, Hhist1, <- app_assoc|].
    intros f e. rewrite Hsaves, Hsaves1, Hbest1. split.
    + intros [[?|[-> Hw]]|(i & x & Hx & -> & Hw)].
      * by left.
      * right. exists 0%nat, a. split; [done|]. split; [lia|].
        by replace (ep + Z.of_nat 0) with ep by lia.
      * right. exists (S i), x. split; [done|]. split; [lia|].
        by replace (ep + Z.of_nat (S i)) with (ep + 1 + Z.of_nat i) by lia.
    + intros [?|(i & x & Hx & -> & Hw)]; [by left; left|].
      destruct i as [|i].
      * left; right. cbn in Hx. injection Hx as <-.
        replace (ep + Z.of_nat 0) with ep in * by lia. by split.
      * right. exists i, x. split; [done|]. split; [lia|].
        by replace (ep + 1 + Z.of_nat i) with (ep + Z.of_nat (S i)) by lia.
Qed.

Lemma epoch_body_is_Some (save_interval : Z) (train_backdoor : bool)
    (st : run_state) (ep : Z) (r : epoch_result) :
  is_Some (epoch_body save_interval train_backdoor st ep r)
  ↔ is_Some (train_metrics r !! "sign_acc"%string) ∧ is_Some (total_acc r).
Proof.
  unfold epoch_body. rewrite merge_valid_total_acc.
  destruct (train_metrics r !! "sign_acc"%string) as [v|];
    destruct (total_acc r) as [a|]; cbn;
    rewrite ?is_Some_alt; tauto.
Qed.

Lemma epoch_loop_is_Some (save_interval : Z) (train_backdoor : bool)
    (results : list epoch_result) (ep : Z) (st : run_state) :
  is_Some (epoch_loop save_interval train_backdoor ep results st)
  ↔ Forall (λ r, is_Some (train_metrics r !! "sign_acc"%string)
                 ∧ is_Some (total_acc r)) results.
Proof.
  revert ep st. induction results as [|r results IH]; intros ep st.
  - cbn. split; [by constructor|by eexists].
  - cbn [epoch_loop]. rewrite Forall_cons,
      <- (epoch_body_is_Some save_interval train_backdoor st ep r).
    destruct (epoch_body save_interval train_backdoor st ep r) as [st1|]; cbn.
    + rewrite IH. split; [by split; [eexists|]|by intros [_ ?]].
    + rewrite !is_Some_alt. tauto.
Qed.

(** X21: [training] runs to its end exactly when the trainer returns, in
    every epoch, a [sign_acc] among the training metrics and a [total_acc]
    among the validation metrics; it stops with a [KeyError] otherwise.
    The save interval and the backdoor flag have no part in it. *)
Theorem training_returns_iff (save_interval : Z) (train_backdoor : bool)
    (results : list epoch_result) :
  is_Some (training save_interval train_backdoor results)
  ↔ Forall (λ r, is_Some (train_metrics r !! "sign_acc"%string)
                 ∧ is_Some (valid_metrics r !! "total_acc"%string)) results.
Proof. apply epoch_loop_is_Some. Qed.

(** X22: after a run of at least one epoch, [best_acc] is the greatest of
    the validation accuracies of the epochs. *)
Theorem training_best_is_maximum (save_interval : Z) (train_backdoor : bool)
    (results : list epoch_result) (accs : list Q) :
  Forall2 reports results accs →
  results ≠ [] →
  ∃ st m, training save_interval train_backdoor results = Some st
    ∧ best_acc st = Best m
    ∧ m ∈ accs
    ∧ Forall (λ a, (a <= m)%Q) accs.
Proof.
  intros Hrep Hne. unfold training.
  destruct (epoch_loop_reports save_interval train_backdoor results accs Hrep 1
              {| best_acc := NegInf; history := [];
                 saves := if bool_decide (0 < save_interval)
                          then [(epoch_pth 0, 0)] else [] |})
    as (st & Hrun & Hbest & _).
  cbn [best_acc] in Hbest. pose proof (running_max NegInf accs) as Hmax.
  rewrite <- Hbest in Hmax. destruct (best_acc st) as [|m] eqn:Hb.
  - destruct Hmax as [_ ->]. apply Forall2_nil_inv_r in Hrep. done.
  - exists st, m. destruct Hmax as ([?|?] & ? & _); done.
Qed.

Lemma training_best_is_maximum_witness :
  ∃ st m, training 2 false ExperimentExample.results = Some st
    ∧ best_acc st = Best m
    ∧ m ∈ ExperimentExample.accs
    ∧ Forall (λ a, (a <= m)%Q) ExperimentExample.accs.
Proof.
  apply (training_best_is_maximum 2 false ExperimentExample.results
           ExperimentExample.accs).
  - repeat constructor; vm_compute; eauto.
  - discriminate.
Defined.

(** X23: [training] appends one row to the history per epoch, in the
    order of the epochs: the merged metrics of that epoch. *)
Theorem training_history_rows (save_interval : Z) (train_backdoor : bool)
    (results : list epoch_result) (accs : list Q) :
  Forall2 reports results accs →
  ∃ st, training save_interval train_backdoor results = Some st
    ∧ history st = merge_metrics train_backdoor <$> results.
Proof.
  intros Hrep. unfold training.
  destruct (epoch_loop_reports save_interval train_backdoor results accs Hrep 1
              {| best_acc := NegInf; history := [];
                 saves := if bool_decide (0 < save_interval)
                          then [(epoch_pth 0, 0)] else [] |})
    as (st & Hrun & _ & Hhist & _).
  by exists st.
Qed.

Lemma training_history_rows_witness :
  ∃ st, training 2 false ExperimentExample.results = Some st
    ∧ history st = merge_metrics false <$> ExperimentExample.results.
Proof.
  apply (training_history_rows 2 false ExperimentExample.results
           ExperimentExample.accs).
  repeat constructor; vm_compute; eauto.
Defined.

(** X24: [best.pth] is written in an epoch exactly when the validation
    accuracy of that epoch is strictly greater than that of every earlier
    epoch; the first epoch always writes it. *)
Theorem best_pth_written_on_strict_improvement (save_interval : Z)
    (train_backdoor : bool) (results : list epoch_result) (accs : list Q) :
  Forall2 reports results accs →
  ∃ st, training save_interval train_backdoor results = Some st
    ∧ ∀ e, (best_pth, e) ∈ saves st
        ↔ ∃ (i : nat) (a : Q),
            accs !! i = Some a ∧ e = 1 + Z.of_nat i
            ∧ Forall (λ x, (x < a)%Q) (take i accs).
Proof.
  intros Hrep. unfold training.
  destruct (epoch_loop_reports save_interval train_backdoor results accs Hrep 1
              {| best_acc := NegInf; history := [];
                 saves := if bool_decide (0 < save_interval)
                          then [(epoch_pth 0, 0)] else [] |})
    as (st & Hrun & _ & _ & Hsaves).
  exists st. split; [done|]. intros e. rewrite Hsaves. cbn [saves best_acc written].
  split.
  - intros [Hin|(i & a & Ha & -> & Hw)].
    + destruct (bool_decide (0 < save_interval)).
      * apply list_elem_of_singleton in Hin. discriminate.
      * by apply elem_of_nil in Hin.
    + exists i, a. apply improves_running in Hw. tauto.
  - intros (i & a & Ha & -> & Hall). right. exists i, a.
    split; [done|]. split; [done|]. apply improves_running. by split.
Qed.

Lemma best_pth_written_on_strict_improvement_witness :
  ∃ st, training 2 false ExperimentExample.results = Some st
    ∧ ∀ e, (best_pth, e) ∈ saves st
        ↔ ∃ (i : nat) (a : Q),
            ExperimentExample.accs !! i = Some a ∧ e = 1 + Z.of_nat i
            ∧ Forall (λ x, (x < a)%Q) (take i ExperimentExample.accs).
Proof.
  apply (best_pth_written_on_strict_improvement 2 false
           ExperimentExample.results ExperimentExample.accs).
  repeat constructor; vm_compute; eauto.
Defined.

(** X25: the numbered checkpoints: [epoch-0.pth] is written, with the
    initial model, exactly when the save interval is positive;
    [epoch-k.pth] for [k >= 1] is written, with the model of epoch [k],
    exactly when [k] is an epoch of the run and a multiple of the non-zero
    save interval, a negative interval included. *)
Theorem training_checkpoints (save_interval : Z) (train_backdoor : bool)
    (results : list epoch_result) (accs : list Q) :
  Forall2 reports results accs →
  ∃ st, training save_interval train_backdoor results = Some st
    ∧ ∀ k e, (epoch_pth k, e) ∈ saves st
        ↔ e = k
          ∧ (k = 0 ∧ 0 < save_interval
             ∨ 1 <= k <= Z.of_nat (length results)
               ∧ save_interval ≠ 0 ∧ k `mod` save_interval = 0).
Proof.
  intros Hrep. unfold training.
  destruct (epoch_loop_reports save_interval train_backdoor results accs Hrep 1
              {| best_acc := NegInf; history := [];
                 saves := if bool_decide (0 < save_interval)
                          then [(epoch_pth 0, 0)] else [] |})
    as (st & Hrun & _ & _ & Hsaves).
  pose proof (Forall2_length _ _ _ Hrep) as Hlen.
  exists st. split; [done|]. intros k e. rewrite Hsaves. cbn [saves written].
  split.
  - intros [Hin|(i & a & Ha & -> & -> & Hsi & Hmod)].
    + case_bool_decide as Hpos.
      * apply list_elem_of_singleton in Hin. injection Hin as -> ->.
        split; [done|]. by left.
      * by apply elem_of_nil in Hin.
    + apply lookup_lt_Some in Ha. split; [done|]. right. split; [lia|done].
  - intros [-> [[-> Hpos]|(Hk & Hsi & Hmod)]].
    + left. rewrite bool_decide_eq_true_2 by done. by apply list_elem_of_singleton.
    + right. destruct (lookup_lt_is_Some_2 accs (Z.to_nat (k - 1))) as [a Ha];
        [lia|].
      exists (Z.to_nat (k - 1)), a. split; [done|].
      replace (1 + Z.of_nat (Z.to_nat (k - 1))) with k by lia. done.
Qed.

Lemma training_checkpoints_witness :
  ∃ st, training 2 false ExperimentExample.results = Some st
    ∧ ∀ k e, (epoch_pth k, e) ∈ saves st
        ↔ e = k
          ∧ (k = 0 ∧ 0 < 2
             ∨ 1 <= k <= Z.of_nat (length ExperimentExample.results)
               ∧ 2 ≠ 0 ∧ k `mod` 2 = 0).
Proof.
  apply (training_checkpoints 2 false ExperimentExample.results
           ExperimentExample.accs).
  repeat constructor; vm_compute; eauto.
Defined.

Lemma holds_snoc (f f' : file) (e : Z) (l : list (file * Z)) :
  holds f (l ++ [(f', e)]) = if decide (f' = f) then Some e else holds f l.
Proof. unfold holds. by rewrite fold_left_app. Qed.

Lemma epoch_body_holds (save_interval : Z) (train_backdoor : bool)
    (st : run_state) (ep : Z) (r : epoch_result) (a : Q) :
  reports r a →
  ∃ st', epoch_body save_interval train_backdoor st ep r = Some st'
    ∧ best_acc st' = (if improves (best_acc st) a then Best a else best_acc st)
    ∧ holds best_pth (saves st')
      = (if improves (best_acc st) a then Some ep
         else holds best_pth (saves st))
    ∧ holds last_pth (saves st') = Some ep.
Proof.
  intros [[v Hv] Ha]. unfold epoch_body. rewrite Hv. cbn.
  rewrite merge_valid_total_acc, Ha. cbn.
  eexists. split; [done|]. cbn [best_acc history saves].
  split; [done|].
  destruct (improves (best_acc st) a);
    destruct (bool_decide (save_interval ≠ 0)
              && bool_decide (ep `mod` save_interval = 0));
    by rewrite !holds_snoc.
Qed.

Lemma epoch_loop_app (save_interval : Z) (train_backdoor : bool)
    (rs1 rs2 : list epoch_result) (ep : Z) (st : run_state) :
  epoch_loop save_interval train_backdoor ep (rs1 ++ rs2) st
  = epoch_loop save_interval train_backdoor ep rs1 st
    ≫= epoch_loop save_interval train_backdoor (ep + Z.of_nat (length rs1)) rs2.
Proof.
  revert ep st. induction rs1 as [|r rs1 IH]; intros ep st.
  - cbn. by rewrite Z.add_0_r.
  - cbn [app epoch_loop length].
    destruct (epoch_body save_interval train_backdoor st ep r) as [st1|]; [|done].
    cbn. rewrite IH. by replace (ep + 1 + Z.of_nat (length rs1))
                       with (ep + Z.of_nat (S (length rs1))) by lia.
Qed.

Lemma epoch_loop_no_improvement (save_interval : Z) (train_backdoor : bool)
    (results : list epoch_result) (accs : list Q) (m : Q) :
  Forall2 reports results accs →
  Forall (λ a, (a <= m)%Q) accs →
  ∀ (ep : Z) (st : run_state),
  best_acc st = Best m →
  ∃ st', epoch_loop save_interval train_backdoor ep results st = Some st'
    ∧ best_acc st' = Best m
    ∧ holds best_pth (saves st') = holds best_pth (saves st).
Proof.
  induction 1 as [|r a results accs Hr _ IH]; intros Hle ep st Hbest.
  - by exists st.
  - apply Forall_cons in Hle as [Ham Hle].
    destruct (epoch_body_holds save_interval train_backdoor st ep r a Hr)
      as (st1 & Hbody & Hbest1 & Hholds1 & _).
    assert (Himp : improves (best_acc st) a = false).
    { rewrite Hbest. apply not_true_iff_false. rewrite improves_Best.
      by apply Qle_not_lt. }
    rewrite Himp in Hbest1, Hholds1.
    destruct (IH Hle (ep + 1) st1) as (st' & Hloop & Hbest' & Hholds');
      [congruence|].
    exists st'. cbn [epoch_loop]. rewrite Hbody. cbn.
    split; [done|]. split; [done|]. congruence.
Qed.

Lemma epoch_loop_last (save_interval : Z) (train_backdoor : bool)
    (results : list epoch_result) (accs : list Q) :
  Forall2 reports results accs →
  ∀ (ep : Z) (st : run_state),
  ∃ st', epoch_loop save_interval train_backdoor ep results st = Some st'
    ∧ holds last_pth (saves st')
      = match results with
        | [] => holds last_pth (saves st)
        | _ => Some (ep + Z.of_nat (length results) - 1)
        end.
Proof.
  induction 1 as [|r a results accs Hr _ IH]; intros ep st.
  - by exists st.
  - destruct (epoch_body_holds save_interval train_backdoor st ep r a Hr)
      as (st1 & Hbody & _ & _ & Hlast1).
    destruct (IH (ep + 1) st1) as (st' & Hloop & Hlast).
    exists st'. cbn [epoch_loop]. rewrite Hbody. cbn [mbind option_bind].
    split; [done|]. rewrite Hlast. destruct results as [|r' results'].
    + rewrite Hlast1. f_equal. cbn. lia.
    + f_equal. cbn [length]. lia.
Qed.

(** X26: at the end of a run, [best.pth] holds the model of the first
    epoch that reached the greatest validation accuracy: a later epoch
    that only equals it does not replace the file. *)
Theorem best_pth_holds_first_maximum (save_interval : Z)
    (train_backdoor : bool) (results : list epoch_result) (accs : list Q)
    (i : nat) (m : Q) :
  Forall2 reports results accs →
  accs !! i = Some m →
  Forall (λ a, (a < m)%Q) (take i accs) →
  Forall (λ a, (a <= m)%Q) accs →
  ∃ st, training save_interval train_backdoor results = Some st
    ∧ holds best_pth (saves st) = Some (1 + Z.of_nat i).
Proof.
  intros Hrep Hi Hlt Hle. unfold training.
  destruct (Forall2_lookup_r _ _ _ _ _ Hrep Hi) as (r & Hr & Hrm).
  rewrite <- (take_drop_middle results i r Hr).
  rewrite epoch_loop_app.
  destruct (epoch_loop_reports save_interval train_backdoor (take i results)
              (take i accs) (Forall2_take _ _ _ i Hrep) 1
              {| best_acc := NegInf; history := [];
                 saves := if bool_decide (0 < save_interval)
                          then [(epoch_pth 0, 0)] else [] |})
    as (st1 & Hrun1 & Hbest1 & _).
  rewrite Hrun1. cbn [mbind option_bind epoch_loop best_acc] in *.
  destruct (epoch_body_holds save_interval train_backdoor st1
              (1 + Z.of_nat (length (take i results))) r m Hrm)
    as (st2 & Hbody & Hbest2 & Hholds2 & _).
  rewrite Hbody. cbn [mbind option_bind].
  assert (Himp : improves (best_acc st1) m = true).
  { rewrite Hbest1. apply improves_running. by split. }
  rewrite Himp in Hbest2, Hholds2.
  destruct (epoch_loop_no_improvement save_interval train_backdoor
              (drop (S i) results) (drop (S i) accs) m
              (Forall2_drop _ _ _ (S i) Hrep) (Forall_drop _ _ _ Hle)
              (1 + Z.of_nat (length (take i results)) + 1) st2 Hbest2)
    as (st & Hrun & _ & Hholds).
  exists st. split; [done|]. rewrite Hholds, Hholds2.
  apply lookup_lt_Some in Hr. rewrite length_take. do 2 f_equal. lia.
Qed.

Lemma best_pth_holds_first_maximum_witness :
  ∃ st, training 2 false ExperimentExample.results = Some st
    ∧ holds best_pth (saves st) = Some (1 + Z.of_nat 1).
Proof.
  apply (best_pth_holds_first_maximum 2 false ExperimentExample.results
           ExperimentExample.accs 1 (3 # 4)%Q).
  - repeat constructor; vm_compute; eauto.
  - reflexivity.
  - repeat constructor.
  - repeat constructor; by vm_compute.
Defined.

(** X27: at the end of a run of at least one epoch, the file of
    [save_last_model] holds the model of the final epoch. *)
Theorem last_pth_holds_final_epoch (save_interval : Z)
    (train_backdoor : bool) (results : list epoch_result) (accs : list Q) :
  Forall2 reports results accs →
  results ≠ [] →
  ∃ st, training save_interval train_backdoor results = Some st
    ∧ holds last_pth (saves st) = Some (Z.of_nat (length results)).
Proof.
  intros Hrep Hne. unfold training.
  destruct (epoch_loop_last save_interval train_backdoor results accs Hrep 1
              {| best_acc := NegInf; history := [];
                 saves := if bool_decide (0 < save_interval)
                          then [(epoch_pth 0, 0)] else [] |})
    as (st & Hrun & Hlast).
  exists st. split; [done|]. rewrite Hlast.
  destruct results; [done|]. f_equal. lia.
Qed.

Lemma last_pth_holds_final_epoch_witness :
  ∃ st, training 2 false ExperimentExample.results = Some st
    ∧ holds last_pth (saves st)
      = Some (Z.of_nat (length ExperimentExample.results)).
Proof.
  apply (last_pth_holds_final_epoch 2 false ExperimentExample.results
           ExperimentExample.accs).
  - repeat constructor; vm_compute; eauto.
  - discriminate.
Defined.

End ExperimentFacts.
